(** * Gitness: reference store, reference walker, SHA values and commit builder

    A shallow embedding of the Go sources

      - [git/sha/sha.go]      (package [sha]: the SHA value type),
      - [git/api/ref.go]      (package [api]: WalkReferences, GetRef, UpdateRef,
                               updateRefWithHooks),
      - [git/api/errors.go]   (package [api]: processGitErrorf and error values),
      - the commit builder    (package [git]: CommitFiles, prepareTree,
                               processAction, getFileEntry, checkPathAvailability)

    into Rocq.  Go strings are byte sequences and are modelled by [string]
    (a list of 8-bit characters); [[]byte] is [list byte]; a Go [error] that may
    be nil is [option error]; a Go [(T, error)] result is [result T]; code that
    talks to the object store or to the hook client threads an explicit state. *)

From Stdlib Require Import ZArith NArith Ascii String List Lia.
From Stdlib Require Import Strings.Byte DecimalString.
From stdpp Require Import base gmap strings list.

Set Default Proof Using "Type".

Global Instance byte_eq_decision : EqDecision byte.
Proof.
  intros x y. destruct (Byte.eqb x y) eqn:E.
  - left. by apply Byte.byte_dec_bl.
  - right. by apply Byte.eqb_false.
Defined.

(** ** Part I: definitions *)

(** *** Go standard library: [strings], [path], [encoding/hex], [fmt] *)

Module gostd.

Definition code (c : ascii) : N := N_of_ascii c.

(** [strings.asciiSpace]: the six ASCII white-space bytes. *)
Definition asciiSpace (c : ascii) : bool :=
  match c with
  | "009" | "010" | "011" | "012" | "013" | " " => true
  | _ => false
  end%char.

(** [unicode.IsSpace] on the non-ASCII runes, read off their UTF-8 encoding:
    U+0085 and U+00A0 take two bytes, the others three
    (U+1680, U+2000..U+200A, U+2028, U+2029, U+202F, U+205F, U+3000). *)
Definition space2 (c1 c2 : ascii) : bool :=
  (code c1 =? 194)%N && ((code c2 =? 133)%N || (code c2 =? 160)%N).

Definition space3 (c1 c2 c3 : ascii) : bool :=
  ((code c1 =? 225)%N && (code c2 =? 154)%N && (code c3 =? 128)%N)
  || ((code c1 =? 226)%N && (code c2 =? 128)%N
      && (((128 <=? code c3)%N && (code c3 <=? 138)%N)
          || (code c3 =? 168)%N || (code c3 =? 169)%N || (code c3 =? 175)%N))
  || ((code c1 =? 226)%N && (code c2 =? 129)%N && (code c3 =? 159)%N)
  || ((code c1 =? 227)%N && (code c2 =? 128)%N && (code c3 =? 128)%N).

(** [strings.TrimLeftFunc(s, unicode.IsSpace)] *)
Fixpoint trimLeftSpace (s : string) : string :=
  match s with
  | String c1 s1 =>
      if asciiSpace c1 then trimLeftSpace s1
      else match s1 with
           | String c2 s2 =>
               if space2 c1 c2 then trimLeftSpace s2
               else match s2 with
                    | String c3 s3 =>
                        if space3 c1 c2 c3 then trimLeftSpace s3 else s
                    | EmptyString => s
                    end
           | EmptyString => s
           end
  | EmptyString => s
  end.

(** [strings.TrimRightFunc(s, unicode.IsSpace)], run over the reversed byte
    sequence: the last rune of [s] is decoded from the first bytes of
    [rev s], read backwards. *)
Fixpoint trimRightSpaceRev (r : list ascii) : list ascii :=
  match r with
  | c1 :: r1 =>
      if asciiSpace c1 then trimRightSpaceRev r1
      else match r1 with
           | c2 :: r2 =>
               if space2 c2 c1 then trimRightSpaceRev r2
               else match r2 with
                    | c3 :: r3 =>
                        if space3 c3 c2 c1 then trimRightSpaceRev r3 else r
                    | [] => r
                    end
           | [] => r
           end
  | [] => r
  end.

Definition trimRightSpace (s : string) : string :=
  string_of_list_ascii (rev (trimRightSpaceRev (rev (list_ascii_of_string s)))).

(** A text made of ASCII white space only. *)
Fixpoint allAsciiSpace (s : string) : bool :=
  match s with
  | EmptyString => true
  | String c s' => asciiSpace c && allAsciiSpace s'
  end.

(** [strings.TrimSpace]: leading and trailing Unicode white space removed. *)
Definition TrimSpace (s : string) : string :=
  trimRightSpace (trimLeftSpace s).

(** [strings.HasPrefix] and [strings.TrimPrefix] *)
Fixpoint HasPrefix (s p : string) : bool :=
  match p, s with
  | EmptyString, _ => true
  | String a p', String b s' => Ascii.eqb a b && HasPrefix s' p'
  | String _ _, EmptyString => false
  end.

Fixpoint TrimPrefix (s p : string) : string :=
  if HasPrefix s p then
    match p, s with
    | String _ p', String _ s' => TrimPrefix s' p'
    | _, _ => s
    end
  else s.

(** [strings.Contains] *)
Fixpoint Contains (s sub : string) : bool :=
  HasPrefix s sub ||
  match s with
  | String _ s' => Contains s' sub
  | EmptyString => false
  end.

(** [strings.Split(s, sep)] for a one-byte separator. *)
Fixpoint Split (s : string) (sep : ascii) : list string :=
  match s with
  | EmptyString => [EmptyString]
  | String c s' =>
      if Ascii.eqb c sep then EmptyString :: Split s' sep
      else match Split s' sep with
           | h :: t => String c h :: t
           | [] => [String c EmptyString]
           end
  end.

(** [path.Clean]: the path is cut at the slashes; empty and [.] elements
    are dropped, [..] removes the element before it (at the root it is
    dropped, in a relative path with nothing left to remove it is kept);
    an empty result is [.]. *)
Definition cleanStep (rooted : bool) (stack : list string) (seg : string)
  : list string :=
  if bool_decide (seg = "") || bool_decide (seg = ".") then stack
  else if bool_decide (seg = "..") then
    match stack with
    | top :: rest =>
        if bool_decide (top = "..") then seg :: stack else rest
    | [] => if rooted then [] else [seg]
    end
  else seg :: stack.

Definition isRooted (p : string) : bool :=
  match p with
  | String c _ => Ascii.eqb c "/"
  | EmptyString => false
  end.

Definition Clean (p : string) : string :=
  if bool_decide (p = "") then "."
  else
    let rooted := isRooted p in
    let stack := fold_left (cleanStep rooted) (Split p "/") [] in
    let body := String.concat "/" (rev stack) in
    if rooted then String "/" body
    else if bool_decide (body = "") then "." else body.

(** [path.Join] of two elements: empty elements are ignored, the rest is
    joined with a slash and cleaned; all empty gives the empty string. *)
Definition Join (a b : string) : string :=
  if bool_decide (a = "") then
    if bool_decide (b = "") then "" else Clean b
  else if bool_decide (b = "") then Clean a
  else Clean (a +:+ "/" +:+ b).

(** [bytes.IndexByte]: position of the first occurrence, if any. *)
Fixpoint IndexByte (b : list byte) (c : byte) : option nat :=
  match b with
  | [] => None
  | x :: b' =>
      if bool_decide (x = c) then Some 0%nat
      else option_map S (IndexByte b' c)
  end.

(** [strings.Index]: position of the first occurrence of [sub], if any. *)
Fixpoint Index (s sub : string) : option nat :=
  if HasPrefix s sub then Some 0%nat
  else match s with
       | String _ s' => option_map S (Index s' sub)
       | EmptyString => None
       end.

(** [strings.IndexByte] *)
Fixpoint IndexByteString (s : string) (c : ascii) : option nat :=
  match s with
  | EmptyString => None
  | String x s' =>
      if Ascii.eqb x c then Some 0%nat
      else option_map S (IndexByteString s' c)
  end.

(** The slices [s[i:]] and [s[i:j]] of a string, for indices within it
    (beyond it Go panics; the code at hand slices within the string). *)
Fixpoint sliceFrom (i : nat) (s : string) : string :=
  match i, s with
  | O, _ => s
  | S i', String _ s' => sliceFrom i' s'
  | S _, EmptyString => EmptyString
  end.

Fixpoint sliceTo (j : nat) (s : string) : string :=
  match j, s with
  | O, _ => EmptyString
  | S j', String c s' => String c (sliceTo j' s')
  | S _, EmptyString => EmptyString
  end.

Definition slice (i j : nat) (s : string) : string := sliceTo (j - i) (sliceFrom i s).

(** [encoding/hex] *)
Definition hextable (n : N) : ascii :=
  match n with
  | 0 => "0" | 1 => "1" | 2 => "2" | 3 => "3" | 4 => "4" | 5 => "5"
  | 6 => "6" | 7 => "7" | 8 => "8" | 9 => "9" | 10 => "a" | 11 => "b"
  | 12 => "c" | 13 => "d" | 14 => "e" | _ => "f"
  end%N%char.

Definition fromHexChar (c : ascii) : option N :=
  let n := code c in
  if (48 <=? n)%N && (n <=? 57)%N then Some (n - 48)%N
  else if (97 <=? n)%N && (n <=? 102)%N then Some (n - 97 + 10)%N
  else if (65 <=? n)%N && (n <=? 70)%N then Some (n - 65 + 10)%N
  else None.

(** [hex.EncodeToString]: two lower-case digits per byte, [v>>4] first and
    [v&0x0f] second. *)
Fixpoint EncodeToString (src : list byte) : string :=
  match src with
  | [] => EmptyString
  | v :: src' =>
      String (hextable (N.shiftr (Byte.to_N v) 4))
        (String (hextable (N.land (Byte.to_N v) 15)) (EncodeToString src'))
  end.

(** [hex.DecodeString]: digits of either case, two per byte, [(a<<4)|b];
    [None] stands for [InvalidByteError] and [ErrLength]. *)
Fixpoint DecodeString (s : string) : option (list byte) :=
  match s with
  | EmptyString => Some []
  | String p (String q s') =>
      match fromHexChar p, fromHexChar q with
      | Some a, Some b =>
          match Byte.of_N (N.lor (N.shiftl a 4) b), DecodeString s' with
          | Some v, Some rest => Some (v :: rest)
          | _, _ => None
          end
      | _, _ => None
      end
  | String _ EmptyString => None
  end.

(** Texts made of hex digits, and of lower-case hex digits only
    ([0-9] and [a-f], what [EncodeToString] writes). *)
Definition isHexChar (c : ascii) : bool :=
  match fromHexChar c with Some _ => true | None => false end.

Definition lowerHexChar (c : ascii) : bool :=
  ((48 <=? code c)%N && (code c <=? 57)%N)
  || ((97 <=? code c)%N && (code c <=? 102)%N).

Fixpoint lowerHex (s : string) : bool :=
  match s with
  | EmptyString => true
  | String c s' => lowerHexChar c && lowerHex s'
  end.

Fixpoint allHex (s : string) : bool :=
  match s with
  | EmptyString => true
  | String c s' => isHexChar c && allHex s'
  end.

(** [strconv.Itoa] *)
Definition Itoa (z : Z) : string := NilZero.string_of_int (Z.to_int z).

(** [fmt.Sprintf] for the verbs the sources use; the arguments come already
    rendered as text, and [%q] puts its argument between double quotes. *)
Definition dquote : ascii := "034"%char.

Fixpoint Sprintf (format : string) (args : list string) : string :=
  match format with
  | String "%" (String v rest) =>
      match args with
      | a :: args' =>
          (if Ascii.eqb v "q" then String dquote (a +:+ String dquote "") else a)
            +:+ Sprintf rest args'
      | [] => String "%" (String v (Sprintf rest []))
      end
  | String c rest => String c (Sprintf rest args)
  | EmptyString => EmptyString
  end.

End gostd.

(** *** Package [errors]: status-carrying errors *)

Module errors.

Inductive Status : Type :=
| StatusConflict
| StatusInternal
| StatusInvalidArgument
| StatusNotFound
| StatusPreconditionFailed.

Global Instance Status_eq_dec : EqDecision Status.
Proof. solve_decision. Defined.

(** A Go [error] value, as the sources build them:
    - [StatusErr]: the package's own [*Error] with a status and a message
      ([errors.NotFound], [errors.Conflict], ...);
    - [Plain]: [errors.New] and [fmt.Errorf] without [%w];
    - [Wrap]: [fmt.Errorf("...: %w", err)], keeping the wrapped error;
    - [CmdErr]: the command adapter's error, with the exit code of the
      process, the text of the process error and what it wrote to stderr. *)
Inductive error : Type :=
| StatusErr (status : Status) (message : string)
| Plain (message : string)
| Wrap (message : string) (inner : error)
| CmdErr (exitCode : Z) (text : string) (stdErr : string).

Inductive result (A : Type) : Type :=
| Ok (a : A)
| Err (e : error).
Global Arguments Ok {A} a.
Global Arguments Err {A} e.

(** [err.Error()] *)
Definition Error (e : error) : string :=
  match e with
  | StatusErr _ m => m
  | Plain m => m
  | Wrap m _ => m
  | CmdErr _ t s => t +:+ ": " +:+ s
  end.

(** Modelled from the spec: the constructors of package [errors]
    ([InvalidArgument], [NotFound], [Conflict], [PreconditionFailed],
    [Internal]) build an error of the taxonomy's class with the formatted
    message; the package is not among the sources. *)
Definition InvalidArgument (format : string) (args : list string) : error :=
  StatusErr StatusInvalidArgument (gostd.Sprintf format args).
Definition NotFound (format : string) (args : list string) : error :=
  StatusErr StatusNotFound (gostd.Sprintf format args).
Definition Conflict (format : string) (args : list string) : error :=
  StatusErr StatusConflict (gostd.Sprintf format args).
Definition PreconditionFailed (format : string) (args : list string) : error :=
  StatusErr StatusPreconditionFailed (gostd.Sprintf format args).
Definition Internal (cause : option error) (format : string) (args : list string)
  : error :=
  StatusErr StatusInternal (gostd.Sprintf format args).
Definition New (text : string) : error := Plain text.

(** [fmt.Errorf] without and with a final [%w] verb. *)
Definition Errorf (format : string) (args : list string) : error :=
  Plain (gostd.Sprintf format args).
Definition Errorfw (format : string) (args : list string) (err : error) : error :=
  Wrap (gostd.Sprintf format (args ++ [Error err])) err.

(** Modelled from the spec: [errors.AsStatus] gives the class of the first
    status-carrying error of the wrap chain, and [Internal] when there is
    none ("an internal/wrapped error for store failures"). *)
Fixpoint AsStatus (e : error) : Status :=
  match e with
  | StatusErr s _ => s
  | Wrap _ inner => AsStatus inner
  | Plain _ => StatusInternal
  | CmdErr _ _ _ => StatusInternal
  end.

Definition IsNotFound (err : option error) : bool :=
  match err with
  | Some e => bool_decide (AsStatus e = StatusNotFound)
  | None => false
  end.

(** [command.AsError(err).IsExitCode(code)]: the exit code of the first
    command error of the wrap chain; false when there is none. *)
Fixpoint IsExitCode (e : error) (c : Z) : bool :=
  match e with
  | CmdErr x _ _ => (x =? c)%Z
  | Wrap _ inner => IsExitCode inner c
  | _ => false
  end.

End errors.

Export errors(error, result, Ok, Err).

(** *** Package [sha] ([git/sha/sha.go]) *)

Module sha.

(** [type SHA struct { bytes []byte; str string }] *)
Record SHA : Type := mkSHA { bytes : list byte; str : string }.

Global Instance SHA_eq_dec : EqDecision SHA.
Proof. solve_decision. Defined.

Definition ErrTypeNotSupported : error := errors.New "type not supported".

(** The hex texts of the two well-known hashes. *)
Definition NilHex : string := "0000000000000000000000000000000000000000".
Definition EmptyTree : string := "4b825dc642cb6eb9a060e54bf8d69288fbee4904".

(** [func (s SHA) IsZero() bool] *)
Definition IsZero (s : SHA) : bool := bool_decide (length (bytes s) = 0%nat).

(** A Go value of type [any], as far as [Equal] and [New] look at it. *)
Inductive any : Type :=
| AString (v : string)
| ABytes (v : list byte)
| ASHA (v : SHA)
| AOther.

(** [bytes.Equal] *)
Definition bytesEqual (a b : list byte) : bool := bool_decide (a = b).

(** [func (s SHA) String() string]: the receiver is a copy, so the text
    computed for an empty [str] is returned and not kept. *)
Definition toString (s : SHA) : string :=
  if bool_decide (str s = "") then gostd.EncodeToString (bytes s) else str s.

(** [func (s SHA) Equal(val any) bool] *)
Definition Equal (s : SHA) (val : any) : bool :=
  match val with
  | AString v => bool_decide (v = toString s)
  | ABytes v => bytesEqual v (bytes s)
  | ASHA v => bytesEqual (bytes v) (bytes s)
  | AOther => false
  end.

(** [func New[T ~string | ~[]byte](value T) (SHA, error)] *)
Definition New (value : any) : result SHA :=
  match value with
  | AString arg =>
      let s := gostd.TrimSpace arg in
      match gostd.DecodeString s with
      | Some b => Ok (mkSHA b "")
      | None => Err (errors.Plain "encoding/hex: invalid input")
      end
  | ABytes arg => Ok (mkSHA arg "")
  | _ => Err ErrTypeNotSupported
  end.

(** [func MustNew(s string) SHA]: the error is dropped, the zero SHA is
    what [New] returns with it. *)
Definition MustNew (s : string) : SHA :=
  match New (AString s) with
  | Ok v => v
  | Err _ => mkSHA [] ""
  end.

(** Modelled from the spec: [sha.None] (named [Empty] here), [sha.Nil],
    [IsEmpty] and [IsNil], which [git/api/ref.go] uses and [git/sha/sha.go]
    does not declare.
    "IsZero/IsEmpty reports absence of bytes (not equal to the Nil
    constant, which has bytes -- all zero)"; [Nil] is the all-zero hash and
    is different from the unset value. *)
Definition Empty : SHA := mkSHA [] "".
Definition Nil : SHA := MustNew NilHex.
Definition IsEmpty (s : SHA) : bool := IsZero s.
Definition IsNil (s : SHA) : bool := Equal s (ASHA Nil).

(** [String] is the Go name of [toString]. *)
Definition String (s : SHA) : string := toString s.

End sha.

(** *** Package [hook]: the hook protocol *)

Module hook.

(** [ReferenceUpdate{Ref, Old, New}]: one atomic transition of a ref. *)
Record ReferenceUpdate : Type :=
  mkReferenceUpdate { Ref : string; Old : sha.SHA; New : sha.SHA }.

(** [PreReceiveInput] and [PostReceiveInput] carry the same fields; the
    sources pass an empty [Environment] in both. *)
Record Input : Type := mkInput { RefUpdates : list ReferenceUpdate }.

(** [Output{Messages, Error}]: a non-nil [Error] is the hook's veto. *)
Record Output : Type := mkOutput { Messages : list string; Error : option string }.

(** The client interface: the answers of the two hooks are whatever the
    server-side policy gives for the input. *)
Record Client : Type := mkClient {
  PreReceive : Input → result Output;
  PostReceive : Input → result Output
}.

(** A hook call that "fails or returns a non-nil Error". *)
Definition failed (r : result Output) : bool :=
  match r with
  | Err _ => true
  | Ok out => bool_decide (is_Some (Error out))
  end.

(** [ClientFactory.NewClient(ctx, envVars)] *)
Definition ClientFactory : Type := list (string * string) → result Client.

End hook.

(** *** Package [api] ([git/api/errors.go], [git/api/ref.go]) *)

Module api.

Definition ErrInvalidPath : error := errors.New "path is invalid".
Definition ErrRepositoryPathEmpty : error :=
  errors.InvalidArgument "repository path cannot be empty" [].

(** [func processGitErrorf(err error, format string, args ...interface{}) error];
    the warning written to the log is not part of the model. *)
Definition processGitErrorf (err : error) (format : string) (args : list string)
  : error :=
  let fallbackErr := errors.Internal (Some err) format args in
  if bool_decide (errors.Error err = "no such file or directory") then
    errors.NotFound "repository not found" []
  else if gostd.Contains (errors.Error err) "reference already exists" then
    errors.Conflict "reference already exists" []
  else fallbackErr.

(** [type PushRejectedError struct]: "an error if merging fails due to
    rejection from a hook". *)
Module PushRejectedError.

Record t : Type := mk {
  Message : string;
  StdOut : string;
  StdErr : string;
  Err : option error
}.

(** The loop of [GenerateMessage], which ends at one of its two [break]s;
    [fuel] bounds the number of iterations. *)
Fixpoint generateLoop (fuel : nat) (stdErr : string) (i : nat) (messageBuilder : string)
  : string :=
  match fuel with
  | O => messageBuilder
  | S fuel' =>
      if (String.length stdErr <=? i + 8)%nat then messageBuilder
      else if negb (bool_decide (gostd.slice i (i + 8) stdErr = "remote: ")) then
        messageBuilder
      else
        let i := (i + 8)%nat in
        match gostd.IndexByteString (gostd.sliceFrom i stdErr) "010" with
        | Some nl =>
            generateLoop fuel' stdErr (i + nl + 1)
              (messageBuilder +:+ gostd.slice i (i + nl + 1) stdErr)
        | None =>
            generateLoop fuel' stdErr (String.length stdErr)
              (messageBuilder +:+ gostd.sliceFrom i stdErr)
        end
  end.

(** [func (err *PushRejectedError) GenerateMessage()]: "generates the remote
    message from the stderr". Every iteration but the last moves [i] on by
    eight bytes at least, so the length of [StdErr] is fuel enough. *)
Definition GenerateMessage (err : t) : t :=
  let withMessage (message : string) := mk message (StdOut err) (StdErr err) (Err err) in
  match gostd.Index (StdErr err) "remote: " with
  | None => withMessage ""
  | Some i =>
      withMessage
        (gostd.TrimSpace (generateLoop (String.length (StdErr err)) (StdErr err) i ""))
  end.

End PushRejectedError.

(** **** The store behind the command interface *)

(** A command as the adapter runs it: [command.New(name, options...)] with
    the flags of [command.WithFlag] (a flag and its value, if it has one) and
    the arguments of [command.WithArg], each in the order they were added,
    and the working directory of [command.WithDir]. *)
Record Command : Type := mkCommand {
  name : string;
  flags : list string;
  args : list string;
  dir : string
}.

(** What happened outside the process, in order: commands run against the
    store and calls made to the hook client. *)
Inductive Event : Type :=
| EvGit (c : Command)
| EvNewClient (envVars : list (string * string))
| EvPreReceive (i : hook.Input)
| EvPostReceive (i : hook.Input).

(** The repository as the reference store sees it: the refs with the object
    each one points to, and the trace of events. *)
Record World : Type := mkWorld {
  refs : gmap string (list byte);
  events : list Event
}.

Definition record (e : Event) (w : World) : World :=
  mkWorld (refs w) (events w ++ [e]).

Definition exitError (stdErr : string) : error :=
  errors.CmdErr 128 "exit status 128" stdErr.

(** An object name on the command line: forty hex digits. *)
Definition parseOid (s : string) : option (list byte) :=
  match gostd.DecodeString s with
  | Some b => if bool_decide (length b = 20%nat) then Some b else None
  | None => None
  end.

Definition isZeroOid (b : list byte) : bool :=
  forallb (λ x, bool_decide (x = Byte.x00)) b.

(** Modelled from the spec: the store's single-ref lookup,
    [<ref-show> --verify -s <ref>]: the object name and a newline, or exit
    code 128 with a "not a valid ref" message. *)
Definition showRef (rs : gmap string (list byte)) (ref : string) : result string :=
  match rs !! ref with
  | Some oid => Ok (gostd.EncodeToString oid +:+ String "010" EmptyString)
  | None => Err (exitError ("fatal: '" +:+ ref +:+ "' - not a valid ref"))
  end.

(** Modelled from the spec: the store's compare-and-swap,
    [<ref-update> [-d] <ref> [<new>] <old>]: "the update only succeeds if
    the ref's current value still equals oldValue, otherwise it fails"; an
    all-zero old value stands for a ref that must not exist yet. *)
Definition casCheck (rs : gmap string (list byte)) (ref : string) (old : list byte)
  : option error :=
  match rs !! ref with
  | Some cur =>
      if isZeroOid old then
        Some (exitError ("fatal: cannot lock ref '" +:+ ref
                         +:+ "': reference already exists"))
      else if bool_decide (cur = old) then None
      else Some (exitError ("fatal: cannot lock ref '" +:+ ref
                            +:+ "': is at another value than expected"))
  | None =>
      if isZeroOid old then None
      else Some (exitError ("fatal: cannot lock ref '" +:+ ref
                            +:+ "': unable to resolve reference"))
  end.

Definition updateRefCmd (rs : gmap string (list byte))
    (ref : string) (new : option string) (old : string)
  : option error * gmap string (list byte) :=
  match parseOid old with
  | None => (Some (exitError ("fatal: " +:+ old +:+ ": not a valid SHA1")), rs)
  | Some oldOid =>
      match new with
      | None =>
          match casCheck rs ref oldOid with
          | Some e => (Some e, rs)
          | None => (None, delete ref rs)
          end
      | Some newHex =>
          match parseOid newHex with
          | None =>
              (Some (exitError ("fatal: " +:+ newHex +:+ ": not a valid SHA1")), rs)
          | Some newOid =>
              match casCheck rs ref oldOid with
              | Some e => (Some e, rs)
              | None =>
                  (None, if isZeroOid newOid then delete ref rs
                         else <[ref := newOid]> rs)
              end
          end
      end
  end.

(** The commands of this file that read or write single refs. *)
Definition git (c : Command) (rs : gmap string (list byte))
  : result string * gmap string (list byte) :=
  if bool_decide (name c = "show-ref") then
    match args c with
    | [ref] =>
        if bool_decide (flags c = ["--verify"; "-s"])
        then (showRef rs ref, rs)
        else (Err (exitError "usage: git show-ref"), rs)
    | _ => (Err (exitError "usage: git show-ref"), rs)
    end
  else if bool_decide (name c = "update-ref") then
    let usage := (Err (exitError "usage: git update-ref"), rs) in
    let answer (r : option error * gmap string (list byte)) :=
      match r.1 with
      | Some e => (Err e, r.2)
      | None => (Ok EmptyString, r.2)
      end in
    match flags c, args c with
    | [], [ref; new; old] => answer (updateRefCmd rs ref (Some new) old)
    | [d; ref], [old] =>
        if bool_decide (d = "-d") then answer (updateRefCmd rs ref None old)
        else usage
    | _, _ => usage
    end
  else (Err (exitError ("git: '" +:+ name c +:+ "' is not a git command")), rs).

(** [cmd.Run(ctx, command.WithDir(repoPath), ...)]: the command is recorded
    and run against the store; its standard output is the result. *)
Definition Run (c : Command) (w : World) : result string * World :=
  let '(r, rs') := git c (refs w) in
  (r, mkWorld rs' (events w ++ [EvGit c])).

(** **** The receiver *)

(** [type Git struct]: the fields this file reads. *)
Record Git : Type := mkGit {
  githookFactory : hook.ClientFactory;
  traceGit : bool
}.

(** **** Walking references *)

(** [type GitReferenceField string] *)
Definition GitReferenceField : Type := string.
Definition GitReferenceFieldRefName : GitReferenceField := "refname".
Definition GitReferenceFieldObjectType : GitReferenceField := "objecttype".
Definition GitReferenceFieldObjectName : GitReferenceField := "objectname".
Definition GitReferenceFieldCreatorDate : GitReferenceField := "creatordate".

Definition ParseGitReferenceField (f : string) : result GitReferenceField :=
  if bool_decide (f = GitReferenceFieldCreatorDate) then Ok GitReferenceFieldCreatorDate
  else if bool_decide (f = GitReferenceFieldRefName) then Ok GitReferenceFieldRefName
  else if bool_decide (f = GitReferenceFieldObjectName) then Ok GitReferenceFieldObjectName
  else if bool_decide (f = GitReferenceFieldObjectType) then Ok GitReferenceFieldObjectType
  else Err (errors.Errorf "unknown git reference field '%s'" [f]).

(** [type WalkInstruction int], with [iota] numbering from [Stop]. *)
Inductive WalkInstruction : Type :=
| WalkInstructionStop
| WalkInstructionHandle
| WalkInstructionSkip.

Global Instance WalkInstruction_eq_dec : EqDecision WalkInstruction.
Proof. solve_decision. Defined.

(** [type WalkReferencesEntry map[GitReferenceField]string] *)
Definition WalkReferencesEntry : Type := gmap string string.

(** A raw record of the reference listing, [map[string]string]. *)
Definition RawRef : Type := gmap string string.

(** Modelled from the spec: the line parser of the reference listing
    ([foreachref.Parser]), a stream that is "parsed incrementally": [Next]
    hands out the records one by one and gives nil at the end of the output
    or at an error, which [Err] then reports. *)
Record Parser : Type := mkParser {
  pending : list RawRef;
  failure : option error;
  err : option error
}.

Definition Next (p : Parser) : option RawRef * Parser :=
  match pending p with
  | r :: rest => (Some r, mkParser rest (failure p) (err p))
  | [] => (None, mkParser [] (failure p) (failure p))
  end.

(** The entry a raw record maps to, if it maps to one. *)
Definition mapped (mapRawRef : RawRef → result WalkReferencesEntry) (raw : RawRef)
  : option WalkReferencesEntry :=
  match mapRawRef raw with
  | Ok ref => Some ref
  | Err _ => None
  end.

Definition MaxInt32 : Z := 2147483647.

Section Walk.

(** The handler and the instructor are closures of the caller: they see the
    entry and the caller's own state [H]. *)
Context {H : Type}.

(** [SortOrder] and the two helpers that render the sort argument and the
    format flag of the listing are declared outside the sources at hand. *)
Context {SortOrder : Type}.
Variable mapToReferenceSortingArgument : GitReferenceField → SortOrder → string.
Variable formatFlag : list string → string.

Definition WalkReferencesInstructor : Type :=
  WalkReferencesEntry → H → result WalkInstruction * H.
Definition WalkReferencesHandler : Type :=
  WalkReferencesEntry → H → option error * H.

(** [type WalkReferencesOptions struct] *)
Record WalkReferencesOptions : Type := mkWalkReferencesOptions {
  Patterns : list string;
  Fields : list GitReferenceField;
  Instructor : option WalkReferencesInstructor;
  Sort : GitReferenceField;
  Order : SortOrder;
  MaxWalkDistance : Z
}.

Definition DefaultInstructor : WalkReferencesInstructor :=
  λ _ h, (Ok WalkInstructionHandle, h).

(** [mapRawRef] converts a raw record into an entry; it is declared
    outside the sources at hand. *)
Variable mapRawRef : RawRef → result WalkReferencesEntry.

(** The state of a walk: the parser, the caller's state, and the entries
    the handler has been invoked with, latest last. *)
Record Walk : Type := mkWalk {
  parser : Parser;
  caller : H;
  handled : list WalkReferencesEntry
}.

(** The loop of [walkReferenceParser]: [n] is [MaxWalkDistance - i], the
    number of iterations the counter still allows. The result is the
    error a [return] inside the loop gives, if one is taken. *)
Fixpoint walkLoop (n : nat) (instructor : WalkReferencesInstructor)
    (handler : WalkReferencesHandler) (st : Walk) : option error * Walk :=
  match n with
  | O => (None, st)
  | S n' =>
      let '(rawRef, p) := Next (parser st) in
      let st := mkWalk p (caller st) (handled st) in
      match rawRef with
      | None => (None, st)
      | Some rawRef =>
          match mapRawRef rawRef with
          | Err e => (Some e, st)
          | Ok ref =>
              let '(instruction, h) := instructor ref (caller st) in
              let st := mkWalk (parser st) h (handled st) in
              match instruction with
              | Err e =>
                  (Some (errors.Errorfw "error getting instruction: %w" [] e), st)
              | Ok WalkInstructionSkip => walkLoop n' instructor handler st
              | Ok WalkInstructionStop => (None, st)
              | Ok WalkInstructionHandle =>
                  let '(e, h) := handler ref (caller st) in
                  let st := mkWalk (parser st) h (handled st ++ [ref]) in
                  match e with
                  | Some e =>
                      (Some (errors.Errorfw "error handling reference: %w" [] e), st)
                  | None => walkLoop n' instructor handler st
                  end
              end
          end
      end
  end.

(** [func walkReferenceParser(parser, handler, opts) error]; the options
    reach it with the instructor filled in. *)
Definition walkReferenceParser (p : Parser) (handler : WalkReferencesHandler)
    (opts : WalkReferencesOptions) (h : H) : option error * Walk :=
  let instructor := default DefaultInstructor (Instructor opts) in
  match walkLoop (Z.to_nat (MaxWalkDistance opts)) instructor handler
          (mkWalk p h []) with
  | (Some e, st) => (Some e, st)
  | (None, st) =>
      match err (parser st) with
      | Some e =>
          (Some (processGitErrorf e "failed to parse reference walk output" []), st)
      | None => (None, st)
      end
  end.

(** The listing the store streams for a [for-each-ref] command: the
    records in order, and the error the stream ends with, if any. *)
Variable forEachRef :
  Command → gmap string (list byte) → list RawRef * option error.

(** [func (g *Git) WalkReferences(ctx, repoPath, handler, opts) error]:
    the producer runs the command with [--count MaxWalkDistance] and
    writes into the pipe, the consumer parses what it reads from it. *)
Definition WalkReferences (g : Git) (repoPath : string)
    (handler : WalkReferencesHandler) (opts : WalkReferencesOptions)
    (h : H) (w : World) : option error * Walk * World :=
  if bool_decide (repoPath = "") then
    (Some ErrRepositoryPathEmpty, mkWalk (mkParser [] None None) h [], w)
  else
    let opts :=
      mkWalkReferencesOptions
        (Patterns opts)
        (if bool_decide (length (Fields opts) = 0%nat)
         then [GitReferenceFieldRefName; GitReferenceFieldObjectName]
         else Fields opts)
        (Some (default DefaultInstructor (Instructor opts)))
        (if bool_decide (Sort opts = "") then GitReferenceFieldRefName
         else Sort opts)
        (Order opts)
        (if (MaxWalkDistance opts <=? 0)%Z then MaxInt32
         else MaxWalkDistance opts) in
    let sortArg := mapToReferenceSortingArgument (Sort opts) (Order opts) in
    let cmd :=
      mkCommand "for-each-ref"
        ["--format"; formatFlag (Fields opts);
         "--sort"; sortArg;
         "--count"; gostd.Itoa (MaxWalkDistance opts);
         "--ignore-case"]
        (Patterns opts)
        repoPath in
    let '(records, failure) := forEachRef cmd (refs w) in
    let stream := take (Z.to_nat (MaxWalkDistance opts)) records in
    let '(e, st) :=
      walkReferenceParser (mkParser stream failure None) handler opts h in
    (e, st, record (EvGit cmd) w).

End Walk.

(** **** Reading and updating one reference *)

(** [func (g *Git) GetRef(ctx, repoPath, ref) (sha.SHA, error)] *)
Definition GetRef (g : Git) (repoPath ref : string) (w : World)
  : result sha.SHA * World :=
  if bool_decide (repoPath = "") then (Err ErrRepositoryPathEmpty, w)
  else
    let cmd := mkCommand "show-ref" ["--verify"; "-s"] [ref] repoPath in
    match Run cmd w with
    | (Err err, w) =>
        if errors.IsExitCode err 128
           && gostd.Contains (errors.Error err) "not a valid ref"
        then (Err (errors.NotFound "reference %q not found" [ref]), w)
        else (Err err, w)
    | (Ok output, w) => (sha.New (sha.AString output), w)
    end.

(** The command [updateRefWithHooks] builds: [update-ref -d <ref> <old>]
    when the new value is [Nil], [update-ref <ref> <new> <old>] otherwise. *)
Definition updateRefCommand (repoPath ref : string) (oldValue newValue : sha.SHA)
  : Command :=
  mkCommand "update-ref"
    (if sha.IsNil newValue then ["-d"; ref] else [])
    ((if sha.IsNil newValue then [] else [ref; sha.String newValue])
     ++ [sha.String oldValue])
    repoPath.

(** The single update a hook is told about. *)
Definition intent (ref : string) (old new : sha.SHA) : hook.Input :=
  hook.mkInput [hook.mkReferenceUpdate ref old new].

(** An event that is not a command run against the store. *)
Definition notGit (e : Event) : Prop :=
  match e with EvGit _ => False | _ => True end.

(** [func (g *Git) updateRefWithHooks(ctx, envVars, repoPath, ref,
    oldValue, newValue) error]; the trace messages written when [traceGit]
    is set are not part of the model. *)
Definition updateRefWithHooks (g : Git) (envVars : list (string * string))
    (repoPath ref : string) (oldValue newValue : sha.SHA) (w : World)
  : option error * World :=
  if bool_decide (repoPath = "") then (Some ErrRepositoryPathEmpty, w)
  else if sha.IsEmpty oldValue then
    (Some (errors.Errorf "oldValue can't be empty" []), w)
  else if sha.IsEmpty newValue then
    (Some (errors.Errorf "newValue can't be empty" []), w)
  else if sha.IsNil oldValue && sha.IsNil newValue then
    (Some (errors.Errorf "provided values cannot be both empty" []), w)
  else
    let w := record (EvNewClient envVars) w in
    match githookFactory g envVars with
    | Err e => (Some (errors.Errorfw "failed to create githook client: %w" [] e), w)
    | Ok githookClient =>
        let input := intent ref oldValue newValue in
        (* call pre-receive before updating the reference *)
        let w := record (EvPreReceive input) w in
        match hook.PreReceive githookClient input with
        | Err e => (Some (errors.Errorfw "pre-receive call failed with: %w" [] e), w)
        | Ok out =>
            match hook.Error out with
            | Some msg =>
                (Some (errors.Errorf "pre-receive call returned error: %q" [msg]), w)
            | None =>
                let cmd := updateRefCommand repoPath ref oldValue newValue in
                match Run cmd w with
                | (Err e, w) =>
                    (Some (processGitErrorf e "update of ref %q from %q to %q failed"
                             [ref; sha.String oldValue; sha.String newValue]), w)
                | (Ok _, w) =>
                    (* call post-receive after updating the reference *)
                    let w := record (EvPostReceive input) w in
                    match hook.PostReceive githookClient input with
                    | Err e =>
                        (Some (errors.Errorfw "post-receive call failed with: %w" [] e), w)
                    | Ok out =>
                        match hook.Error out with
                        | Some msg =>
                            (Some (errors.Errorf
                                     "post-receive call returned error: %q" [msg]), w)
                        | None => (None, w)
                        end
                    end
                end
            end
        end
    end.

(** What [UpdateRef] returns for the outcome of the delegated call: an
    error comes back wrapped, success comes back as it is. *)
Definition delegated (r : option error * World) : option error * World :=
  match r with
  | (Some e, w) =>
      (Some (errors.Errorfw "failed to update reference with hooks: %w" [] e), w)
  | (None, w) => (None, w)
  end.

(** [func (g *Git) UpdateRef(ctx, envVars, repoPath, ref, oldValue,
    newValue) error] *)
Definition UpdateRef (g : Git) (envVars : list (string * string))
    (repoPath ref : string) (oldValue newValue : sha.SHA) (w : World)
  : option error * World :=
  if bool_decide (repoPath = "") then (Some ErrRepositoryPathEmpty, w)
  else
    (* don't break existing interface - user calls with empty value to delete the ref. *)
    let newValue := if sha.IsEmpty newValue then sha.Nil else newValue in
    (* if no old value was provided, use current value (as required for hooks) *)
    let resolved : result sha.SHA * World :=
      if sha.IsEmpty oldValue then
        match GetRef g repoPath ref w with
        | (Err e, w) =>
            if errors.IsNotFound (Some e) then
              (* fail in case someone tries to delete a reference that doesn't exist. *)
              if sha.IsNil newValue then
                (Err (errors.NotFound "reference %q not found" [ref]), w)
              else (Ok sha.Nil, w)
            else
              (Err (errors.Errorfw "failed to get current value of reference: %w" [] e), w)
        | (Ok val, w) => (Ok val, w)
        end
      else (Ok oldValue, w) in
    match resolved with
    | (Err e, w) => (Some e, w)
    | (Ok oldValue, w) =>
        match updateRefWithHooks g envVars repoPath ref oldValue newValue w with
        | (Some e, w) =>
            (Some (errors.Errorfw "failed to update reference with hooks: %w" [] e), w)
        | (None, w) => (None, w)
        end
    end.

(** An SHA as [sha.New] builds it from a full object name: twenty bytes, the
    text not cached. *)
Definition objectName (v : sha.SHA) : Prop :=
  sha.str v = EmptyString ∧ length (sha.bytes v) = 20%nat.

(** What the compare-and-swap expects of the ref for the old value: no ref
    for [Nil], the ref at that value otherwise. *)
Definition expected (oldValue : sha.SHA) : option (list byte) :=
  if sha.IsNil oldValue then None else Some (sha.bytes oldValue).

(** What the ref is after the update: gone for [Nil], at the new value
    otherwise. *)
Definition updated (ref : string) (newValue : sha.SHA) (rs : gmap string (list byte))
  : gmap string (list byte) :=
  if sha.IsNil newValue then delete ref rs else <[ref := sha.bytes newValue]> rs.

(** **** Tree nodes, commits and the shared repository *)

(** Modelled from the spec: the mode of a tree entry ([api.TreeNodeMode])
    tells "a file, a symlink", an executable file, a directory or a
    submodule commit; [String] is the octal text the index takes. *)
Inductive TreeNodeMode : Type :=
| TreeNodeModeFile
| TreeNodeModeSymlink
| TreeNodeModeExec
| TreeNodeModeTree
| TreeNodeModeCommit.

Global Instance TreeNodeMode_eq_dec : EqDecision TreeNodeMode.
Proof. solve_decision. Defined.

Definition modeString (m : TreeNodeMode) : string :=
  match m with
  | TreeNodeModeFile => "100644"
  | TreeNodeModeSymlink => "120000"
  | TreeNodeModeExec => "100755"
  | TreeNodeModeTree => "040000"
  | TreeNodeModeCommit => "160000"
  end.

(** [api.TreeNode]: the fields the commit builder reads. *)
Record TreeNode : Type := mkTreeNode {
  Mode : TreeNodeMode;
  nodeSHA : sha.SHA;
  nodeName : string;
  nodePath : string
}.

Definition IsDir (n : TreeNode) : bool := bool_decide (Mode n = TreeNodeModeTree).
Definition IsLink (n : TreeNode) : bool := bool_decide (Mode n = TreeNodeModeSymlink).
Definition IsExecutable (n : TreeNode) : bool := bool_decide (Mode n = TreeNodeModeExec).

(** Modelled from the spec: a tree object is "a content-addressed directory
    listing (path -> mode, object hash)": a leaf entry with its mode and
    object, or a directory with its named entries. *)
#[warnings="-register-all"]
Inductive Tree : Type :=
| Leaf (mode : TreeNodeMode) (oid : sha.SHA)
| Directory (oid : sha.SHA) (entries : list (string * Tree)).

Definition treeMode (t : Tree) : TreeNodeMode :=
  match t with
  | Leaf mode _ => mode
  | Directory _ _ => TreeNodeModeTree
  end.

Definition treeOid (t : Tree) : sha.SHA :=
  match t with
  | Leaf _ oid => oid
  | Directory oid _ => oid
  end.

Definition childNamed (seg : string) (entries : list (string * Tree)) : option Tree :=
  snd <$> List.find (λ kv, bool_decide (kv.1 = seg)) entries.

(** The entry a tree holds at a path given by its elements. *)
Fixpoint treeEntry (t : Tree) (segs : list string) : option Tree :=
  match segs with
  | [] => Some t
  | seg :: rest =>
      match t with
      | Directory _ entries =>
          match childNamed seg entries with
          | Some child => treeEntry child rest
          | None => None
          end
      | Leaf _ _ => None
      end
  end.

(** The node the store reports for a path of the tree [root]: the root for
    the empty path, the entry at the path if there is one, [NotFound]
    otherwise. *)
Definition treeNodeAt (root : Tree) (treePath : string) : result TreeNode :=
  if bool_decide (treePath = "") then
    Ok (mkTreeNode TreeNodeModeTree (treeOid root) "" "")
  else
    let segs := gostd.Split treePath "/" in
    match treeEntry root segs with
    | Some t => Ok (mkTreeNode (treeMode t) (treeOid t) (List.last segs "") treePath)
    | None => Err (errors.NotFound "path %q not found" [treePath])
    end.

(** A path element as a cleaned path has them: not empty, not [.] or [..],
    and without a slash. *)
Fixpoint hasSlash (s : string) : bool :=
  match s with
  | EmptyString => false
  | String c s' => Ascii.eqb c "/" || hasSlash s'
  end.

Definition normalSegment (s : string) : bool :=
  negb (bool_decide (s = "")) && negb (bool_decide (s = "."))
  && negb (bool_decide (s = "..")) && negb (hasSlash s).

(** [api.Commit], [api.Branch] and [api.Identity], as far as they are read. *)
Record Commit : Type := mkCommit { commitSHA : sha.SHA }.
(** A branch the store reports always comes with its commit. *)
Record Branch : Type := mkBranch { branchName : string; branchCommit : Commit }.
Record Identity : Type := mkIdentity { Name : string; Email : string }.

(** A point in time, in seconds. *)
Definition Time : Type := Z.

(** The calls made on a shared repository, in order. *)
Inductive Call : Type :=
| CallInitAsShared
| CallSetIndex (rev : string)
| CallWriteGitObject (payload : list byte)
| CallAddObjectToIndex (mode objectHash filePath : string)
| CallRemoveFilesFromIndex (filePath : string)
| CallLsFiles (filePath : string)
| CallGetTreeNode (rev treePath : string)
| CallWriteTree
| CallCommitTree (parent : sha.SHA) (tree : sha.SHA) (message : string)
| CallMoveObjects
| CallClose.

(** A call that writes neither a tree nor a commit. *)
Definition notTreeOrCommit (c : Call) : Prop :=
  match c with
  | CallWriteTree | CallCommitTree _ _ _ => False
  | _ => True
  end.

(** A call that stages: it looks up the parent tree or the index, writes an
    object or changes the index. *)
Definition stagingCall (c : Call) : Prop :=
  match c with
  | CallWriteGitObject _ | CallAddObjectToIndex _ _ _ | CallRemoveFilesFromIndex _
  | CallLsFiles _ | CallGetTreeNode _ _ => True
  | _ => False
  end.

(** The parts of the repository that the commit builder calls and that are
    declared outside the sources at hand, over the state [S] of a staging
    repository: the primitives of [api.SharedRepo], the read operations of
    [api.Git] on the origin, and the helpers of the packages. A primitive
    may fail, and it changes the staging state as it sees fit; the two
    queries only read it. The answer of [hasBranches] is the value that
    [CommitFiles] takes for [isEmpty]. *)
Class Collaborators (S : Type) : Type := {
  cleanUploadFileName : string → string;
  getReferenceFromBranchName : string → string;
  getFullPathForRepo : string → string → string;
  hasBranches : string → World → result bool;
  getDefaultBranch : string → World → result string;
  getBranch : string → string → World → result Branch;
  getCommit : string → string → World → result Commit;
  newSharedRepo : string → string → string → result S;
  initAsShared : S → option error * S;
  setIndex : string → S → option error * S;
  writeGitObject : list byte → S → result sha.SHA * S;
  addObjectToIndex : string → string → string → S → option error * S;
  removeFilesFromIndex : string → S → option error * S;
  lsFiles : string → S → result (list string);
  getTreeNode : string → string → S → result TreeNode;
  writeTree : S → result sha.SHA * S;
  commitTreeWithDate :
    sha.SHA → Identity → Identity → sha.SHA → string → bool → Time → Time →
    S → result sha.SHA * S;
  moveObjects : S → option error * S
}.

(** [api.SharedRepo]: the staging state and the calls made on it so far. *)
Record SharedRepo (S : Type) : Type := mkSharedRepo {
  store : S;
  calls : list Call
}.
Global Arguments mkSharedRepo {S} store calls.
Global Arguments store {S} s.
Global Arguments calls {S} s.

(** The calls on [repo'] are those on [repo] and then staging calls. *)
Definition stages {S : Type} (repo repo' : SharedRepo S) : Prop :=
  ∃ tr, calls repo' = calls repo ++ tr ∧ Forall stagingCall tr.

Section SharedRepoMethods.

Context {S : Type} `{!Collaborators S}.

Definition called (c : Call) (r : SharedRepo S) (s : S) : SharedRepo S :=
  mkSharedRepo s (calls r ++ [c]).

Definition CleanUploadFileName (name : string) : string := cleanUploadFileName name.

Definition InitAsShared (r : SharedRepo S) : option error * SharedRepo S :=
  let '(e, s) := initAsShared (store r) in (e, called CallInitAsShared r s).

Definition SetIndex (rev : string) (r : SharedRepo S) : option error * SharedRepo S :=
  let '(e, s) := setIndex rev (store r) in (e, called (CallSetIndex rev) r s).

Definition WriteGitObject (payload : list byte) (r : SharedRepo S)
  : result sha.SHA * SharedRepo S :=
  let '(h, s) := writeGitObject payload (store r) in
  (h, called (CallWriteGitObject payload) r s).

Definition AddObjectToIndex (mode objectHash filePath : string) (r : SharedRepo S)
  : option error * SharedRepo S :=
  let '(e, s) := addObjectToIndex mode objectHash filePath (store r) in
  (e, called (CallAddObjectToIndex mode objectHash filePath) r s).

Definition RemoveFilesFromIndex (filePath : string) (r : SharedRepo S)
  : option error * SharedRepo S :=
  let '(e, s) := removeFilesFromIndex filePath (store r) in
  (e, called (CallRemoveFilesFromIndex filePath) r s).

Definition LsFiles (filePath : string) (r : SharedRepo S)
  : result (list string) * SharedRepo S :=
  (lsFiles filePath (store r), called (CallLsFiles filePath) r (store r)).

Definition GetTreeNode (rev treePath : string) (r : SharedRepo S)
  : result TreeNode * SharedRepo S :=
  (getTreeNode rev treePath (store r), called (CallGetTreeNode rev treePath) r (store r)).

Definition WriteTree (r : SharedRepo S) : result sha.SHA * SharedRepo S :=
  let '(h, s) := writeTree (store r) in (h, called CallWriteTree r s).

Definition CommitTreeWithDate (parent : sha.SHA) (author committer : Identity)
    (treeHash : sha.SHA) (message : string) (signoff : bool)
    (authorDate committerDate : Time) (r : SharedRepo S)
  : result sha.SHA * SharedRepo S :=
  let '(h, s) :=
    commitTreeWithDate parent author committer treeHash message signoff
      authorDate committerDate (store r) in
  (h, called (CallCommitTree parent treeHash message) r s).

Definition MoveObjects (r : SharedRepo S) : option error * SharedRepo S :=
  let '(e, s) := moveObjects (store r) in (e, called CallMoveObjects r s).

Definition Close (r : SharedRepo S) : SharedRepo S := called CallClose r (store r).

End SharedRepoMethods.

End api.

(** *** Package [git]: the commit builder *)

Module git.

Import api.

Definition defaultFilePermission : string := "100644".
Definition gitReferenceNamePrefixBranch : string := "refs/heads/".

(** [type FileAction string] *)
Definition FileAction : Type := string.
Definition CreateAction : FileAction := "CREATE".
Definition UpdateAction : FileAction := "UPDATE".
Definition DeleteAction : FileAction := "DELETE".
Definition MoveAction : FileAction := "MOVE".

(** A value in a Go [interface{}], as far as this file builds them: the
    dynamic type is [FileAction] or [string]. In the [const] block only
    [CreateAction] and [UpdateAction] are declared with the type
    [FileAction]; [DeleteAction] and [MoveAction] are untyped string
    constants, which an [interface{}] holds as [string]. *)
Inductive Interface : Type :=
| OfFileAction (v : FileAction)
| OfString (v : string).

(** [func (FileAction) Enum() []interface{}] *)
Definition Enum : list Interface :=
  [OfFileAction CreateAction; OfFileAction UpdateAction;
   OfString DeleteAction; OfString MoveAction].

(** [type CommitFileAction struct] *)
Record CommitFileAction : Type := mkCommitFileAction {
  Action : FileAction;
  Path : string;
  Payload : list byte;
  SHA : string
}.

(** [type WriteParams struct], as far as it is read. *)
Record WriteParams : Type := mkWriteParams {
  RepoUID : string;
  Actor : Identity;
  EnvVars : list (string * string)
}.

(** [type CommitFilesParams struct] *)
Record CommitFilesParams : Type := mkCommitFilesParams {
  writeParams : WriteParams;
  Title : string;
  Message : string;
  Branch : string;
  NewBranch : string;
  Actions : list CommitFileAction;
  Committer : option Identity;
  CommitterDate : option Time;
  Author : option Identity;
  AuthorDate : option Time
}.

(** [type CommitFilesResponse struct] *)
Record CommitFilesResponse : Type := mkCommitFilesResponse { CommitID : sha.SHA }.

(** [type Service struct]: the fields [CommitFiles] reads, with the check of
    [WriteParams.Validate] and the clock of [time.Now]. *)
Record Service : Type := mkService {
  git : Git;
  reposRoot : string;
  tmpDir : string;
  validate : WriteParams → option error;
  now : Time
}.

Section CommitBuilder.

Context {S : Type} `{!Collaborators S}.

(** [func checkPathAvailability(ctx, repo, commit, filePath, isNewFile) error]:
    the loop over [parts], with [index] counted from [len(parts)] downwards
    by the parts still to come. *)
Fixpoint checkPathLoop (commit : Commit) (filePath : string) (isNewFile : bool)
    (len : nat) (index : nat) (parts : list string) (subTreePath : string)
    (repo : SharedRepo S) : option error * SharedRepo S :=
  match parts with
  | [] => (None, repo)
  | part :: rest =>
      let subTreePath := gostd.Join subTreePath part in
      let '(r, repo) := GetTreeNode (sha.String (commitSHA commit)) subTreePath repo in
      match r with
      | Err err =>
          if errors.IsNotFound (Some err) then
            (* Means there is no item with that name, so we're good *)
            (None, repo)
          else
            (Some (errors.Errorfw
                     "checkPathAvailability: failed to get tree entry for path %s: %w"
                     [subTreePath] err), repo)
      | Ok entry =>
          let continue := checkPathLoop commit filePath isNewFile len (Datatypes.S index)
                            rest subTreePath repo in
          if (index <? len - 1)%nat then
            if negb (IsDir entry) then
              (Some (errors.Conflict
                       "a file already exists where you're trying to create a subdirectory [path: %s]"
                       [subTreePath]), repo)
            else continue
          else if IsLink entry then
            (Some (errors.Conflict
                     "a symbolic link already exist where you're trying to create a subdirectory [path: %s]"
                     [subTreePath]), repo)
          else if IsDir entry then
            (Some (errors.Conflict
                     "a directory already exists where you're trying to create a subdirectory [path: %s]"
                     [subTreePath]), repo)
          else if negb (bool_decide (filePath = "")) || isNewFile then
            (Some (errors.Conflict "file path %s already exists" [filePath]), repo)
          else continue
      end
  end.

Definition checkPathAvailability (repo : SharedRepo S) (commit : Commit)
    (filePath : string) (isNewFile : bool) : option error * SharedRepo S :=
  let parts := gostd.Split filePath "/" in
  checkPathLoop commit filePath isNewFile (length parts) 0 parts "" repo.

(** [func getFileEntry(ctx, repo, commit, sha, path)], which returns a
    [*api.TreeNode] and an error. *)
Definition getFileEntry (repo : SharedRepo S) (commit : Commit)
    (sha path : string) : result TreeNode * SharedRepo S :=
  let '(r, repo) := GetTreeNode (sha.String (commitSHA commit)) path repo in
  match r with
  | Err err =>
      if errors.IsNotFound (Some err) then
        (Err (errors.NotFound "path %s not found" [path]), repo)
      else
        (Err (errors.Errorfw "getFileEntry: failed to get tree for path %s: %w"
                [path] err), repo)
  | Ok entry =>
      (* If a SHA was given and the SHA given doesn't match the SHA of the
         fromTreePath, throw error *)
      if negb (bool_decide (sha = ""))
         && negb (bool_decide (sha = sha.String (nodeSHA entry))) then
        (Err (errors.InvalidArgument
                "sha does not match for path %s [given: %s, expected: %s]"
                [path; sha; sha.String (nodeSHA entry)]), repo)
      else (Ok entry, repo)
  end.

(** [func createFile(ctx, repo, commit, filePath, mode, payload) error];
    [commit] is nil for an empty repository. *)
Definition createFile (repo : SharedRepo S) (commit : option Commit)
    (filePath mode : string) (payload : list byte) : option error * SharedRepo S :=
  (* only check path availability if a source commit is available *)
  let '(e, repo) :=
    match commit with
    | Some commit => checkPathAvailability repo commit filePath true
    | None => (None, repo)
    end in
  match e with
  | Some err => (Some err, repo)
  | None =>
      let '(hash, repo) := WriteGitObject payload repo in
      match hash with
      | Err err => (Some (errors.Errorfw "createFile: error hashing object: %w" [] err), repo)
      | Ok hash =>
          (* Add the object to the index *)
          let '(e, repo) := AddObjectToIndex mode (sha.String hash) filePath repo in
          match e with
          | Some err =>
              (Some (errors.Errorfw "createFile: error creating object: %w" [] err), repo)
          | None => (None, repo)
          end
      end
  end.

(** [func updateFile(ctx, repo, commit, filePath, sha, mode, payload) error] *)
Definition updateFile (repo : SharedRepo S) (commit : Commit)
    (filePath sha mode : string) (payload : list byte) : option error * SharedRepo S :=
  (* get file mode from existing file (default unless executable) *)
  let '(entry, repo) := getFileEntry repo commit sha filePath in
  match entry with
  | Err err => (Some err, repo)
  | Ok entry =>
      let mode := if IsExecutable entry then "100755" else mode in
      let '(hash, repo) := WriteGitObject payload repo in
      match hash with
      | Err err => (Some (errors.Errorfw "updateFile: error hashing object: %w" [] err), repo)
      | Ok hash =>
          let '(e, repo) := AddObjectToIndex mode (sha.String hash) filePath repo in
          match e with
          | Some err =>
              (Some (errors.Errorfw "updateFile: error updating object: %w" [] err), repo)
          | None => (None, repo)
          end
      end
  end.

(** [func parseMovePayload(payload []byte) (string, []byte, error)]: the new
    content is nil when the payload has no NUL byte. *)
Definition parseMovePayload (payload : list byte)
  : result (string * option (list byte)) :=
  let '(newPath, newContent) :=
    match gostd.IndexByte payload Byte.x00 with
    | None => (string_of_list_byte payload, None)
    | Some filePathEnd =>
        (string_of_list_byte (take filePathEnd payload),
         Some (drop (filePathEnd + 1) payload))
    end in
  let newPath := CleanUploadFileName newPath in
  if bool_decide (newPath = "") then Err ErrInvalidPath
  else Ok (newPath, newContent).

(** [func moveFile(ctx, repo, commit, filePath, sha, mode, payload) error] *)
Definition moveFile (repo : SharedRepo S) (commit : Commit)
    (filePath sha mode : string) (payload : list byte) : option error * SharedRepo S :=
  match parseMovePayload payload with
  | Err err => (Some err, repo)
  | Ok (newPath, newContent) =>
      (* ensure file exists and matches SHA *)
      let '(entry, repo) := getFileEntry repo commit sha filePath in
      match entry with
      | Err err => (Some err, repo)
      | Ok entry =>
          (* ensure new path is available *)
          let '(e, repo) := checkPathAvailability repo commit newPath false in
          match e with
          | Some err => (Some err, repo)
          | None =>
              let '(staged, repo) :=
                match newContent with
                | Some newContent =>
                    let '(hash, repo) := WriteGitObject newContent repo in
                    match hash with
                    | Err err =>
                        (Err (errors.Errorfw "moveFile: error hashing object: %w" [] err),
                         repo)
                    | Ok hash =>
                        (Ok (sha.String hash,
                             if IsExecutable entry then "100755" else mode), repo)
                    end
                | None =>
                    (Ok (sha.String (nodeSHA entry), modeString (Mode entry)), repo)
                end in
              match staged with
              | Err err => (Some err, repo)
              | Ok (fileHash, fileMode) =>
                  let '(e, repo) := AddObjectToIndex fileMode fileHash newPath repo in
                  match e with
                  | Some err =>
                      (Some (errors.Errorfw "moveFile: add object error: %w" [] err), repo)
                  | None =>
                      let '(e, repo) := RemoveFilesFromIndex filePath repo in
                      match e with
                      | Some err =>
                          (Some (errors.Errorfw "moveFile: remove object error: %w" [] err),
                           repo)
                      | None => (None, repo)
                      end
                  end
              end
          end
      end
  end.

(** [func deleteFile(ctx, repo, filePath) error] *)
Definition deleteFile (repo : SharedRepo S) (filePath : string)
  : option error * SharedRepo S :=
  let '(filesInIndex, repo) := LsFiles filePath repo in
  match filesInIndex with
  | Err err => (Some (errors.Errorfw "deleteFile: listing files error: %w" [] err), repo)
  | Ok filesInIndex =>
      if negb (bool_decide (filePath ∈ filesInIndex)) then
        (Some (errors.NotFound "file path %s not found" [filePath]), repo)
      else
        let '(e, repo) := RemoveFilesFromIndex filePath repo in
        match e with
        | Some err =>
            (Some (errors.Errorfw "deleteFile: remove object error: %w" [] err), repo)
        | None => (None, repo)
        end
  end.

(** [func (s *Service) processAction(ctx, shared, action, commit) (err error)]:
    the [switch] has no default, and [err] is nil until a case assigns it. *)
Definition processAction (s : Service) (shared : SharedRepo S)
    (action : CommitFileAction) (commit : Commit) : option error * SharedRepo S :=
  let filePath := CleanUploadFileName (Path action) in
  if bool_decide (filePath = "") then
    (Some (errors.InvalidArgument "path cannot be empty" []), shared)
  else if bool_decide (Action action = CreateAction) then
    createFile shared (Some commit) filePath defaultFilePermission (Payload action)
  else if bool_decide (Action action = UpdateAction) then
    updateFile shared commit filePath (SHA action) defaultFilePermission (Payload action)
  else if bool_decide (Action action = MoveAction) then
    moveFile shared commit filePath (SHA action) defaultFilePermission (Payload action)
  else if bool_decide (Action action = DeleteAction) then
    deleteFile shared filePath
  else (None, shared).

(** [func (s *Service) prepareTree(ctx, shared, actions, commit) error] *)
Fixpoint prepareTree (s : Service) (shared : SharedRepo S)
    (actions : list CommitFileAction) (commit : Commit)
  : option error * SharedRepo S :=
  match actions with
  | [] => (None, shared)
  | action :: rest =>
      match processAction s shared action commit with
      | (Some err, shared) => (Some err, shared)
      | (None, shared) => prepareTree s shared rest commit
      end
  end.

(** [func (s *Service) prepareTreeEmptyRepo(ctx, shared, actions) error] *)
Fixpoint prepareTreeEmptyRepo (s : Service) (shared : SharedRepo S)
    (actions : list CommitFileAction) : option error * SharedRepo S :=
  match actions with
  | [] => (None, shared)
  | action :: rest =>
      if negb (bool_decide (Action action = CreateAction)) then
        (Some (errors.PreconditionFailed "action not allowed on empty repository" []),
         shared)
      else
        let filePath := CleanUploadFileName (Path action) in
        if bool_decide (filePath = "") then
          (Some (errors.InvalidArgument "invalid path" []), shared)
        else
          match createFile shared None filePath defaultFilePermission (Payload action) with
          | (Some err, shared) =>
              (Some (errors.Internal (Some err) "failed to create file '%s'"
                       [Path action]), shared)
          | (None, shared) => prepareTreeEmptyRepo s shared rest
          end
  end.

(** [func (s *Service) validateAndPrepareHeader(ctx, repoPath, isEmpty,
    params)], which returns a [*api.Commit] and an error; the branch names it
    writes back into [params] are returned with the result. *)
Definition validateAndPrepareHeader (s : Service) (repoPath : string)
    (isEmpty : bool) (params : CommitFilesParams) (w : World)
  : result (option Commit) * CommitFilesParams :=
  let withBranches (b nb : string) : CommitFilesParams :=
    mkCommitFilesParams (writeParams params) (Title params) (Message params) b nb
      (Actions params) (Committer params) (CommitterDate params) (Author params)
      (AuthorDate params) in
  let defaulted : result string :=
    if bool_decide (Branch params = "") then getDefaultBranch repoPath w
    else Ok (Branch params) in
  match defaulted with
  | Err err =>
      (Err (errors.Errorfw "failed to get default branch: %w" [] err), params)
  | Ok branch =>
      let newBranch :=
        if bool_decide (NewBranch params = "") then branch else NewBranch params in
      (* trim refs/heads/ prefixes to avoid issues when calling gitea API *)
      let branch :=
        gostd.TrimPrefix (gostd.TrimSpace branch) gitReferenceNamePrefixBranch in
      let newBranch :=
        gostd.TrimPrefix (gostd.TrimSpace newBranch) gitReferenceNamePrefixBranch in
      let params := withBranches branch newBranch in
      (* if the repo is empty then we can skip branch existence checks *)
      if isEmpty then (Ok None, params)
      else
        (* ensure source branch exists *)
        match getBranch repoPath branch w with
        | Err err =>
            (Err (errors.Errorfw "failed to get source branch '%s': %w" [branch] err),
             params)
        | Ok source =>
            (* ensure new branch doesn't exist yet (if new branch creation was requested) *)
            let clash : option error :=
              if negb (bool_decide (branch = newBranch)) then
                match getBranch repoPath newBranch w with
                | Ok existingBranch =>
                    Some (errors.Conflict "branch %s already exists"
                            [branchName existingBranch])
                | Err err =>
                    if negb (errors.IsNotFound (Some err)) then
                      Some (errors.Errorfw "failed to create new branch '%s': %w"
                              [newBranch] err)
                    else None
                end
              else None in
            match clash with
            | Some err => (Err err, params)
            | None => (Ok (Some (branchCommit source)), params)
            end
        end
  end.

(** The closure of [CommitFiles] that works on the shared repository; the
    deferred [shared.Close] runs on every way out of it. *)
Definition buildCommit (s : Service) (params : CommitFilesParams)
    (repoPath : string) (isEmpty : bool) (commit : option Commit)
    (oldCommitSHA : sha.SHA) (author committer : Identity)
    (authorDate committerDate : Time) (log : list Call)
  : result sha.SHA * list Call :=
  match newSharedRepo (tmpDir s) (RepoUID (writeParams params)) repoPath with
  | Err err =>
      (Err (errors.Errorfw "failed to create shared repository: %w" [] err), log)
  | Ok st =>
      let shared := mkSharedRepo st log in
      let closing (r : result sha.SHA * SharedRepo S) : result sha.SHA * list Call :=
        (r.1, calls (Close r.2)) in
      closing
        ((* Create bare repository with alternates pointing to the original repository. *)
         let '(e, shared) := InitAsShared shared in
         match e with
         | Some err =>
             (Err (errors.Errorfw "failed to create temp repo with alternates: %w" [] err),
              shared)
         | None =>
             (* handle empty repo separately (as branch doesn't exist, no commit exists, ...) *)
             let '(prepared, shared) :=
               if isEmpty then
                 let '(e, shared) := prepareTreeEmptyRepo s shared (Actions params) in
                 (Ok e, shared)
               else
                 let '(e, shared) := SetIndex (sha.String oldCommitSHA) shared in
                 match e with
                 | Some err =>
                     (Err (errors.Errorfw "failed to set index to temp repo: %w" [] err),
                      shared)
                 | None =>
                     match commit with
                     | Some commit =>
                         let '(e, shared) :=
                           prepareTree s shared (Actions params) commit in
                         (Ok e, shared)
                     | None =>
                         (* not reached: the commit is nil for an empty repository only *)
                         (Err (errors.New "nil commit"), shared)
                     end
                 end in
             match prepared with
             | Err err => (Err err, shared)
             | Ok (Some err) =>
                 (Err (errors.Errorfw "failed to prepare tree: %w" [] err), shared)
             | Ok None =>
                 (* Now write the tree *)
                 let '(treeHash, shared) := WriteTree shared in
                 match treeHash with
                 | Err err =>
                     (Err (errors.Errorfw "failed to write tree object: %w" [] err), shared)
                 | Ok treeHash =>
                     let message :=
                       gostd.TrimSpace (Title params)
                       +:+ (if (0 <? String.length (Message params))%nat
                            then String "010" (String "010" EmptyString)
                                 +:+ gostd.TrimSpace (Message params)
                            else EmptyString) in
                     (* Now commit the tree *)
                     let '(commitSHA, shared) :=
                       CommitTreeWithDate oldCommitSHA
                         (mkIdentity (Name author) (Email author))
                         (mkIdentity (Name committer) (Email committer))
                         treeHash message false authorDate committerDate shared in
                     match commitSHA with
                     | Err err =>
                         (Err (errors.Errorfw "failed to commit the tree: %w" [] err), shared)
                     | Ok commitSHA =>
                         let '(e, shared) := MoveObjects shared in
                         match e with
                         | Some err =>
                             (Err (errors.Errorfw "failed to move git objects: %w" [] err),
                              shared)
                         | None => (Ok commitSHA, shared)
                         end
                     end
                 end
             end
         end)
  end.

(** The state [CommitFiles] works on: the origin repository's refs and trace,
    and the calls made on shared repositories. *)
Record State : Type := mkState {
  world : World;
  sharedCalls : list Call
}.

(** [func (s *Service) CommitFiles(ctx, params) (CommitFilesResponse, error)] *)
Definition CommitFiles (s : Service) (params : CommitFilesParams) (st : State)
  : result CommitFilesResponse * State :=
  match validate s (writeParams params) with
  | Some err => (Err err, st)
  | None =>
      let committer := default (Actor (writeParams params)) (Committer params) in
      let committerDate := default (now s) (CommitterDate params) in
      let author := default committer (Author params) in
      let authorDate := default committerDate (AuthorDate params) in
      let repoPath := getFullPathForRepo (reposRoot s) (RepoUID (writeParams params)) in
      (* check if repo is empty *)
      match hasBranches repoPath (world st) with
      | Err err =>
          (Err (errors.Errorfw
                  "CommitFiles: failed to determine if repository is empty: %w" [] err),
           st)
      | Ok isEmpty =>
          (* ensure input data is valid; the commit will be nil for empty repositories *)
          match validateAndPrepareHeader s repoPath isEmpty params (world st) with
          | (Err err, _) => (Err err, st)
          | (Ok commit, params) =>
              let oldCommitSHA :=
                match commit with
                | Some commit => commitSHA commit
                | None => sha.Empty
                end in
              match
                buildCommit s params repoPath isEmpty commit oldCommitSHA author
                  committer authorDate committerDate (sharedCalls st)
              with
              | (Err err, log) =>
                  (Err (errors.Errorfw
                          "CommitFiles: failed to create commit in shared repository: %w"
                          [] err),
                   mkState (world st) log)
              | (Ok newCommitSHA, log) =>
                  let creating := negb (bool_decide (Branch params = NewBranch params)) in
                  (* we are creating a new branch, rather than updating the existing one *)
                  let oldCommitSHA := if creating then sha.Nil else oldCommitSHA in
                  let branchRef :=
                    getReferenceFromBranchName
                      (if creating then NewBranch params else Branch params) in
                  match
                    UpdateRef (git s) (EnvVars (writeParams params)) repoPath branchRef
                      oldCommitSHA newCommitSHA (world st)
                  with
                  | (Some err, w) =>
                      (Err (errors.Errorfw "CommitFiles: failed to update ref %s: %w"
                              [branchRef] err),
                       mkState w log)
                  | (None, w) =>
                      match getCommit repoPath (sha.String newCommitSHA) w with
                      | Err err =>
                          (Err (errors.Errorfw "failed to get commit for SHA %s: %w"
                                  [sha.String newCommitSHA] err),
                           mkState w log)
                      | Ok commit =>
                          (Ok (mkCommitFilesResponse (commitSHA commit)), mkState w log)
                      end
                  end
              end
          end
      end
  end.

End CommitBuilder.

End git.

(** *** Sample values *)

Module sample.

Definition repoPath : string := "/repos/a".
Definition mainRef : string := "refs/heads/main".

Definition commitA : sha.SHA := sha.MustNew "1111111111111111111111111111111111111111".
Definition commitB : sha.SHA := sha.MustNew "2222222222222222222222222222222222222222".

(** Hook answers: acceptance, a veto, and a call that fails. *)
Definition accept (i : hook.Input) : result hook.Output :=
  Ok (hook.mkOutput [] None).
Definition veto (i : hook.Input) : result hook.Output :=
  Ok (hook.mkOutput ["rejected by policy"] (Some "branch is protected")).
Definition unreachable (i : hook.Input) : result hook.Output :=
  Err (errors.New "hook endpoint unreachable").

Definition gitWith (pre post : hook.Input → result hook.Output) : api.Git :=
  api.mkGit (λ _, Ok (hook.mkClient pre post)) false.

(** A repository whose main branch is at [commitA], and one with no refs. *)
Definition world : api.World :=
  api.mkWorld {[ mainRef := sha.bytes commitA ]} [].
Definition emptyWorld : api.World := api.mkWorld ∅ [].

(** A stand-in for [mapRawRef]: every key of the record has to be a known
    field name. *)
Definition mapRawRef (raw : api.RawRef) : result api.WalkReferencesEntry :=
  let unknown (kv : string * string) :=
    match api.ParseGitReferenceField kv.1 with Ok _ => false | Err _ => true end in
  match List.find unknown (map_to_list raw) with
  | Some kv => Err (errors.Errorf "unknown git reference field '%s'" [kv.1])
  | None => Ok raw
  end.

Definition branch (refname : string) : api.RawRef :=
  {[ api.GitReferenceFieldRefName := refname ]}.

Definition fiveBranches : list api.RawRef :=
  [branch "refs/heads/a"; branch "refs/heads/b"; branch "refs/heads/c";
   branch "refs/heads/d"; branch "refs/heads/e"].

(** Callbacks over a caller state that counts nothing. *)
Definition stopAtOnce : @api.WalkReferencesInstructor unit :=
  λ _ h, (Ok api.WalkInstructionStop, h).
Definition keep : @api.WalkReferencesHandler unit := λ _ h, (None, h).

Definition options (instructor : option (@api.WalkReferencesInstructor unit))
    (maxWalkDistance : Z) : @api.WalkReferencesOptions unit unit :=
  api.mkWalkReferencesOptions [] [] instructor EmptyString tt maxWalkDistance.

(** A stand-in for [api.CleanUploadFileName]: the name is cleaned as a path
    below the root, the slashes around it are cut off, and a name with a
    [.git] element (in any ASCII case) is refused with the empty string. *)
Definition trimSlashes (s : string) : string :=
  let cut := fix cut (l : list ascii) : list ascii :=
    match l with
    | c :: l' => if Ascii.eqb c "/" then cut l' else l
    | [] => []
    end in
  string_of_list_ascii (rev (cut (rev (cut (list_ascii_of_string s))))).

Definition lowerAscii (c : ascii) : ascii :=
  let n := gostd.code c in
  if (65 <=? n)%N && (n <=? 90)%N then ascii_of_N (n + 32) else c.

Fixpoint toLower (s : string) : string :=
  match s with
  | EmptyString => EmptyString
  | String c s' => String (lowerAscii c) (toLower s')
  end.

Definition cleanUploadFileName (name : string) : string :=
  let name := trimSlashes (gostd.Clean (String "/" name)) in
  if existsb (λ part, bool_decide (toLower part = ".git")) (gostd.Split name "/")
  then EmptyString else name.

(** A staging repository in memory: the tree of the parent commit and the
    index, path to mode and object. *)
Record Staging : Type := mkStaging {
  parent : api.Tree;
  index : gmap string (string * string)
}.

(** A stand-in for the object hash: the first twenty bytes of the content,
    filled up with zeros. *)
Definition blobHash (payload : list byte) : sha.SHA :=
  sha.mkSHA (take 20 (payload ++ replicate 20 Byte.x00)) EmptyString.

Definition treeOid : sha.SHA := sha.MustNew "4444444444444444444444444444444444444444".

Fixpoint flatten (prefix : string) (t : api.Tree) : list (string * (string * string)) :=
  match t with
  | api.Leaf mode oid => [(prefix, (api.modeString mode, sha.String oid))]
  | api.Directory _ entries =>
      (fix go (es : list (string * api.Tree)) :=
         match es with
         | [] => []
         | (n, child) :: es' => flatten (gostd.Join prefix n) child ++ go es'
         end) entries
  end.

Definition branchRefs (w : api.World) : list (string * list byte) :=
  filter (λ kv, gostd.HasPrefix kv.1 "refs/heads/" = true) (map_to_list (api.refs w)).

(** The collaborators over the in-memory staging repository, for an origin
    whose parent commit has the tree [root]. The answer of [hasBranches] is
    what [CommitFiles] reads as emptiness: true when there is no branch. *)
Definition collaborators (root : api.Tree) : api.Collaborators Staging := {|
  api.cleanUploadFileName := cleanUploadFileName;
  api.getReferenceFromBranchName := λ b, "refs/heads/" +:+ b;
  api.getFullPathForRepo := λ root uid, root +:+ "/" +:+ uid;
  api.hasBranches := λ _ w, Ok (bool_decide (branchRefs w = []));
  api.getDefaultBranch := λ _ _, Ok "main";
  api.getBranch := λ _ b w,
    match api.refs w !! ("refs/heads/" +:+ b) with
    | Some oid => Ok (api.mkBranch b (api.mkCommit (sha.mkSHA oid EmptyString)))
    | None => Err (errors.NotFound "branch %q not found" [b])
    end;
  api.getCommit := λ _ rev _, Ok (api.mkCommit (sha.MustNew rev));
  api.newSharedRepo := λ _ _ _, Ok (mkStaging root ∅);
  api.initAsShared := λ s, (None, s);
  api.setIndex := λ _ s,
    (None, mkStaging (parent s) (list_to_map (flatten EmptyString (parent s))));
  api.writeGitObject := λ payload s, (Ok (blobHash payload), s);
  api.addObjectToIndex := λ mode h p s,
    (None, mkStaging (parent s) (<[p := (mode, h)]> (index s)));
  api.removeFilesFromIndex := λ p s, (None, mkStaging (parent s) (delete p (index s)));
  api.lsFiles := λ p s, Ok (if bool_decide (is_Some (index s !! p)) then [p] else []);
  api.getTreeNode := λ _ p s, api.treeNodeAt (parent s) p;
  api.writeTree := λ s, (Ok treeOid, s);
  api.commitTreeWithDate := λ _ _ _ _ _ _ _ _ s, (Ok commitB, s);
  api.moveObjects := λ s, (None, s)
|}.

(** A tree with a plain file [dir], a directory [src] holding [main.go], and
    a file [README.md]. *)
Definition fileOid : sha.SHA := sha.MustNew "3333333333333333333333333333333333333333".
Definition rootTree : api.Tree :=
  api.Directory commitA
    [("README.md", api.Leaf api.TreeNodeModeFile fileOid);
     ("dir", api.Leaf api.TreeNodeModeFile fileOid);
     ("src", api.Directory commitA [("main.go", api.Leaf api.TreeNodeModeFile fileOid)])].

Definition service : git.Service :=
  git.mkService (gitWith accept accept) "/repos" "/tmp" (λ _, None) 0%Z.

Definition staging : api.SharedRepo Staging :=
  api.mkSharedRepo (mkStaging rootTree ∅) [].

Definition parentCommit : api.Commit := api.mkCommit commitA.

Definition action (kind : git.FileAction) (path : string) (payload : list byte)
    (sha : string) : git.CommitFileAction :=
  git.mkCommitFileAction kind path payload sha.

(** A request on the default branch with the given actions. *)
Definition emptyRepoParams (actions : list git.CommitFileAction) : git.CommitFilesParams :=
  git.mkCommitFilesParams
    (git.mkWriteParams "a" (api.mkIdentity "Ada" "ada@example.com") [])
    "add files" EmptyString EmptyString EmptyString actions None None None None.

(** A request for the given branches with the given actions. *)
Definition params (branch newBranch : string) (actions : list git.CommitFileAction)
  : git.CommitFilesParams :=
  git.mkCommitFilesParams
    (git.mkWriteParams "a" (api.mkIdentity "Ada" "ada@example.com") [])
    "add files" EmptyString branch newBranch actions None None None None.

(** A repository with two branches, [main] at [commitA] and [dev] at [commitB]. *)
Definition twoBranches : api.World :=
  api.mkWorld (<["refs/heads/dev" := sha.bytes commitB]> {[ mainRef := sha.bytes commitA ]}) [].

End sample.

(** ** Part II: theorems *)

(** *** Facts about the Go standard library model *)

Section GoStd.
Import gostd.

(** Strings are consumed two bytes at a time by the hex decoder. *)
Lemma string_pair_ind (P : string → Prop) :
  P EmptyString →
  (∀ c, P (String c EmptyString)) →
  (∀ c d s, P s → P (String c (String d s))) →
  ∀ s, P s.
Proof.
  intros H0 H1 H2.
  fix IH 1. intros [|c [|d s]].
  - exact H0.
  - apply H1.
  - apply H2, IH.
Qed.

Lemma isHexChar_ascii c : isHexChar c = true → (code c < 128)%N ∧ asciiSpace c = false.
Proof.
  destruct c as [[] [] [] [] [] [] [] []]; vm_compute; (discriminate || (intros _; split; reflexivity)).
Qed.

Lemma low_not_space2_l c x : (code c < 128)%N → space2 c x = false.
Proof.
  intros H. unfold space2.
  replace (code c =? 194)%N with false; [done|].
  symmetry. apply N.eqb_neq. lia.
Qed.

Lemma low_not_space2_r c x : (code c < 128)%N → space2 x c = false.
Proof.
  intros H. unfold space2.
  replace (code c =? 133)%N with false by (symmetry; apply N.eqb_neq; lia).
  replace (code c =? 160)%N with false by (symmetry; apply N.eqb_neq; lia).
  by rewrite andb_false_r.
Qed.

Lemma low_not_space3_l c x y : (code c < 128)%N → space3 c x y = false.
Proof.
  intros H. unfold space3.
  replace (code c =? 225)%N with false by (symmetry; apply N.eqb_neq; lia).
  replace (code c =? 226)%N with false by (symmetry; apply N.eqb_neq; lia).
  replace (code c =? 227)%N with false by (symmetry; apply N.eqb_neq; lia).
  done.
Qed.

Lemma low_not_space3_r c x y : (code c < 128)%N → space3 x y c = false.
Proof.
  intros H. unfold space3.
  replace (code c =? 128)%N with false by (symmetry; apply N.eqb_neq; lia).
  replace (code c =? 159)%N with false by (symmetry; apply N.eqb_neq; lia).
  replace (code c =? 168)%N with false by (symmetry; apply N.eqb_neq; lia).
  replace (code c =? 169)%N with false by (symmetry; apply N.eqb_neq; lia).
  replace (code c =? 175)%N with false by (symmetry; apply N.eqb_neq; lia).
  replace (128 <=? code c)%N with false by (symmetry; apply N.leb_gt; lia).
  by rewrite !andb_false_r.
Qed.

(** White space is only trimmed when the text starts or ends with it. *)
Lemma trimLeftSpace_hex_head c s :
  isHexChar c = true → trimLeftSpace (String c s) = String c s.
Proof.
  intros [Hlow Hsp]%isHexChar_ascii. simpl. rewrite Hsp.
  destruct s as [|c2 [|c3 s3]]; [done| |].
  - by rewrite low_not_space2_l.
  - by rewrite low_not_space2_l, low_not_space3_l.
Qed.

Lemma trimRightSpaceRev_hex_head c r :
  isHexChar c = true → trimRightSpaceRev (c :: r) = c :: r.
Proof.
  intros [Hlow Hsp]%isHexChar_ascii. simpl. rewrite Hsp.
  destruct r as [|c2 [|c3 r3]]; [done| |].
  - by rewrite low_not_space2_r.
  - by rewrite low_not_space2_r, low_not_space3_r.
Qed.

Lemma allHex_Forall s :
  allHex s = true ↔ Forall (λ c, isHexChar c = true) (list_ascii_of_string s).
Proof.
  induction s as [|c s IH]; simpl.
  - split; [constructor|done].
  - rewrite andb_true_iff, IH. split.
    + intros [??]. by constructor.
    + by inversion 1.
Qed.

Lemma trimRightSpace_allHex s : allHex s = true → trimRightSpace s = s.
Proof.
  intros H%allHex_Forall. unfold trimRightSpace.
  apply Forall_rev in H.
  destruct (rev (list_ascii_of_string s)) as [|c r] eqn:E.
  - simpl. apply (f_equal (@rev ascii)) in E. rewrite rev_involutive in E.
    rewrite <- (string_of_list_ascii_of_string s). by rewrite E.
  - inversion H; subst. rewrite trimRightSpaceRev_hex_head by done.
    rewrite <- E, rev_involutive. apply string_of_list_ascii_of_string.
Qed.

Lemma TrimSpace_allHex s : allHex s = true → TrimSpace s = s.
Proof.
  intros H. unfold TrimSpace.
  assert (trimLeftSpace s = s) as ->.
  { destruct s as [|c s]; [done|]. simpl in H.
    apply andb_true_iff in H as [H _]. by apply trimLeftSpace_hex_head. }
  by apply trimRightSpace_allHex.
Qed.

Lemma DecodeString_allHex s b : DecodeString s = Some b → allHex s = true.
Proof.
  revert b. induction s as [|c|c d s IH] using string_pair_ind; intros b; simpl.
  - done.
  - done.
  - unfold isHexChar.
    destruct (fromHexChar c); [|done]. destruct (fromHexChar d); [|done].
    destruct (Byte.of_N _); [|done].
    destruct (DecodeString s) eqn:E; [|done]. intros _. simpl. eauto.
Qed.

Lemma lowerHexChar_hextable c a :
  lowerHexChar c = true → fromHexChar c = Some a → (a < 16)%N ∧ hextable a = c.
Proof.
  destruct c as [[] [] [] [] [] [] [] []]; intros Hc; try discriminate Hc;
    intros [= <-]; split; reflexivity.
Qed.

Lemma nibble_pack a b :
  (a < 16)%N → (b < 16)%N →
  N.shiftr (N.lor (N.shiftl a 4) b) 4 = a ∧ N.land (N.lor (N.shiftl a 4) b) 15 = b.
Proof.
  intros Ha Hb.
  assert (∃ n, (n < 16)%nat ∧ a = N.of_nat n) as (n & Hn & ->)
    by (exists (N.to_nat a); lia).
  assert (∃ m, (m < 16)%nat ∧ b = N.of_nat m) as (m & Hm & ->)
    by (exists (N.to_nat b); lia).
  clear Ha Hb.
  do 16 (destruct n as [|n];
         [do 16 (destruct m as [|m]; [split; reflexivity|]); lia|]).
  lia.
Qed.

Lemma lowerHex_pair p q v a b :
  lowerHexChar p = true → lowerHexChar q = true →
  fromHexChar p = Some a → fromHexChar q = Some b →
  Byte.of_N (N.lor (N.shiftl a 4) b) = Some v →
  hextable (N.shiftr (Byte.to_N v) 4) = p ∧ hextable (N.land (Byte.to_N v) 15) = q.
Proof.
  intros Hp Hq Ha Hb Hv. apply Byte.to_of_N in Hv. rewrite Hv.
  destruct (lowerHexChar_hextable p a Hp Ha) as [Ha16 <-].
  destruct (lowerHexChar_hextable q b Hq Hb) as [Hb16 <-].
  by destruct (nibble_pack a b Ha16 Hb16) as [-> ->].
Qed.

(** Encoding what was decoded gives the text back when it is lower case. *)
Lemma Encode_Decode_lower s b :
  lowerHex s = true → DecodeString s = Some b → EncodeToString b = s.
Proof.
  revert b. induction s as [|c|c d s IH] using string_pair_ind; intros b Hl; simpl.
  - by intros [= <-].
  - done.
  - simpl in Hl. apply andb_true_iff in Hl as [Hc Hl].
    apply andb_true_iff in Hl as [Hd Hl].
    destruct (fromHexChar c) as [x|] eqn:Ec; [|done].
    destruct (fromHexChar d) as [y|] eqn:Ed; [|done].
    destruct (Byte.of_N _) as [v|] eqn:Ev; [|done].
    destruct (DecodeString s) as [rest|] eqn:E; [|done].
    intros [= <-]. simpl.
    destruct (lowerHex_pair c d v x y Hc Hd Ec Ed Ev) as [-> ->].
    by rewrite (IH rest Hl eq_refl).
Qed.

(** Decoding what was encoded gives the bytes back. *)
Lemma Decode_Encode b : DecodeString (EncodeToString b) = Some b.
Proof.
  induction b as [|v b IH]; [done|]. simpl. rewrite IH.
  destruct v; reflexivity.
Qed.

Lemma EncodeToString_lowerHex b : lowerHex (EncodeToString b) = true.
Proof.
  induction b as [|v b IH]; [done|]. simpl. rewrite IH.
  destruct v; reflexivity.
Qed.

Lemma lowerHexChar_isHexChar c : lowerHexChar c = true → isHexChar c = true.
Proof.
  destruct c as [[] [] [] [] [] [] [] []]; vm_compute; done.
Qed.

Lemma lowerHex_allHex s : lowerHex s = true → allHex s = true.
Proof.
  induction s as [|c s IH]; [done|]. simpl.
  intros [H1 H2]%andb_true_iff. by rewrite lowerHexChar_isHexChar, IH.
Qed.

End GoStd.

(** *** SHA values *)

Section ShaFacts.

Lemma New_of_decodable h b :
  gostd.DecodeString h = Some b → sha.New (sha.AString h) = Ok (sha.mkSHA b EmptyString).
Proof.
  intros Hd. unfold sha.New.
  rewrite (TrimSpace_allHex h) by (by eapply DecodeString_allHex).
  by rewrite Hd.
Qed.

Lemma Equal_text_iff_lower h b :
  gostd.DecodeString h = Some b →
  sha.Equal (sha.mkSHA b EmptyString) (sha.AString h) = gostd.lowerHex h.
Proof.
  intros Hd. unfold sha.Equal, sha.toString. simpl.
  destruct (gostd.lowerHex h) eqn:Hl.
  - apply bool_decide_eq_true. symmetry. by apply Encode_Decode_lower.
  - apply bool_decide_eq_false. intros ->.
    by rewrite EncodeToString_lowerHex in Hl.
Qed.

(** C9 (as amended): [Equal] is reflexive; for a hex text [h] that decodes
    to the bytes [b], [New(h)] succeeds and is [Equal] to [b]; it is [Equal]
    to the text [h] itself exactly when [h] is written with lower-case
    digits, the form [String()] produces. *)
Theorem Equal_reflexive_and_representations (s : sha.SHA) (h : string) (b : list byte) :
  gostd.DecodeString h = Some b →
  sha.Equal s (sha.ASHA s) = true ∧
  ∃ v, sha.New (sha.AString h) = Ok v
       ∧ sha.Equal v (sha.ABytes b) = true
       ∧ sha.Equal v (sha.AString h) = gostd.lowerHex h.
Proof.
  intros Hd. split.
  - unfold sha.Equal, sha.bytesEqual. by apply bool_decide_eq_true.
  - exists (sha.mkSHA b EmptyString). split; [by apply New_of_decodable|]. split.
    + unfold sha.Equal, sha.bytesEqual. by apply bool_decide_eq_true.
    + by apply Equal_text_iff_lower.
Qed.

Lemma Equal_reflexive_and_representations_witness :
  sha.Equal sha.Nil (sha.ASHA sha.Nil) = true ∧
  ∃ v, sha.New (sha.AString "4b825dc6") = Ok v
       ∧ sha.Equal v (sha.ABytes [Byte.x4b; Byte.x82; Byte.x5d; Byte.xc6]) = true
       ∧ sha.Equal v (sha.AString "4b825dc6") = true.
Proof.
  exact (Equal_reflexive_and_representations sha.Nil "4b825dc6"
           [Byte.x4b; Byte.x82; Byte.x5d; Byte.xc6] eq_refl).
Defined.

(** C9 (as stated) fails on a text with upper-case digits: ["AB"] decodes
    to the byte [0xab], and [New("AB").Equal("AB")] compares ["AB"] with
    ["ab"]. *)
Lemma Equal_uppercase_text_counterexample :
  gostd.DecodeString "AB" = Some [Byte.xab]
  ∧ sha.New (sha.AString "AB") = Ok (sha.mkSHA [Byte.xab] EmptyString)
  ∧ sha.String (sha.mkSHA [Byte.xab] EmptyString) = "ab"
  ∧ sha.Equal (sha.mkSHA [Byte.xab] EmptyString) (sha.AString "AB") = false.
Proof. repeat split; reflexivity. Qed.

End ShaFacts.

(** *** The reference store *)

Section RefStore.

Import api.

Implicit Types (g : Git) (w : World) (rs : gmap string (list byte)).

Lemma Run_refs c w : refs (Run c w).2 = (git c (refs w)).2.
Proof. unfold Run. by destruct (git c (refs w)). Qed.

Lemma Run_result c w : (Run c w).1 = (git c (refs w)).1.
Proof. unfold Run. by destruct (git c (refs w)). Qed.

Lemma Run_events c w : events (Run c w).2 = events w ++ [EvGit c].
Proof. unfold Run. by destruct (git c (refs w)). Qed.

Lemma git_show_ref repoPath ref rs :
  git (mkCommand "show-ref" ["--verify"; "-s"] [ref] repoPath) rs = (showRef rs ref, rs).
Proof. reflexivity. Qed.

(** The lookup is read-only, and its answer depends on the refs alone. *)
Lemma GetRef_refs g repoPath ref w : refs (GetRef g repoPath ref w).2 = refs w.
Proof.
  unfold GetRef. case_bool_decide; [done|].
  unfold Run. rewrite git_show_ref. simpl.
  destruct (showRef (refs w) ref) as [out|e]; [done|].
  by destruct (_ && _).
Qed.

Lemma GetRef_result_refs g repoPath ref w w' :
  refs w = refs w' → (GetRef g repoPath ref w).1 = (GetRef g repoPath ref w').1.
Proof.
  intros Hr. unfold GetRef. case_bool_decide; [done|].
  unfold Run. rewrite !git_show_ref, Hr. simpl.
  destruct (showRef (refs w') ref) as [out|e]; [done|].
  by destruct (_ && _).
Qed.

(** C3: when the old value is unset, or the new value is unset, or both are
    [Nil], [updateRefWithHooks] returns an error and the world is what it
    was: no hook client is created, no hook is called and no command is run. *)
Theorem updateRefWithHooks_rejects_before_effects
    g envVars repoPath ref (oldValue newValue : sha.SHA) w :
  sha.IsEmpty oldValue = true
  ∨ sha.IsEmpty newValue = true
  ∨ (sha.IsNil oldValue = true ∧ sha.IsNil newValue = true) →
  ∃ e, updateRefWithHooks g envVars repoPath ref oldValue newValue w = (Some e, w).
Proof.
  intros Hbad. unfold updateRefWithHooks.
  case_bool_decide; [by eauto|].
  destruct (sha.IsEmpty oldValue) eqn:Ho; [by eauto|].
  destruct (sha.IsEmpty newValue) eqn:Hn; [by eauto|].
  destruct Hbad as [?|[?|[-> ->]]]; [done..|]. simpl. by eauto.
Qed.

Lemma updateRefWithHooks_rejects_before_effects_witness :
  ∃ e, updateRefWithHooks
         (mkGit (λ _, Ok (hook.mkClient (λ _, Ok (hook.mkOutput [] None))
                                        (λ _, Ok (hook.mkOutput [] None)))) false)
         [] "/repos/a" "refs/heads/main" sha.Nil sha.Nil (mkWorld ∅ [])
       = (Some e, mkWorld ∅ []).
Proof.
  apply updateRefWithHooks_rejects_before_effects.
  right; right. split; reflexivity.
Defined.

(** C1: when the pre-receive call fails or returns a non-nil [Error],
    [updateRefWithHooks] returns an error, the refs are what they were, no
    command was run against the store (so [update-ref] was not), and [GetRef]
    answers afterwards what it answered before. *)
Theorem pre_receive_failure_leaves_ref
    g envVars repoPath ref (oldValue newValue : sha.SHA) w client :
  githookFactory g envVars = Ok client →
  hook.failed (hook.PreReceive client (intent ref oldValue newValue)) = true →
  let '(r, w') := updateRefWithHooks g envVars repoPath ref oldValue newValue w in
  is_Some r
  ∧ refs w' = refs w
  ∧ (∃ tr, events w' = events w ++ tr ∧ Forall notGit tr)
  ∧ (GetRef g repoPath ref w').1 = (GetRef g repoPath ref w).1.
Proof.
  intros Hf Hpre. unfold updateRefWithHooks.
  assert (∀ e : error, is_Some (Some e) ∧ refs w = refs w
               ∧ (∃ tr, events w = events w ++ tr ∧ Forall notGit tr)
               ∧ (GetRef g repoPath ref w).1 = (GetRef g repoPath ref w).1) as Hsame.
  { intros e. split; [by eauto|]. split; [done|]. split; [|done].
    exists []. by rewrite app_nil_r. }
  case_bool_decide; [by apply Hsame|].
  destruct (sha.IsEmpty oldValue); [by apply Hsame|].
  destruct (sha.IsEmpty newValue); [by apply Hsame|].
  destruct (sha.IsNil oldValue && sha.IsNil newValue); [by apply Hsame|].
  rewrite Hf.
  set (tr := [EvNewClient envVars; EvPreReceive (intent ref oldValue newValue)]).
  assert (Forall notGit tr) as Htr by (repeat constructor).
  destruct (hook.PreReceive client (intent ref oldValue newValue)) as [out|e].
  - simpl in Hpre. destruct (hook.Error out) as [msg|].
    + split; [by eauto|]. split; [done|]. split.
      * exists tr. split; [|done]. simpl. by rewrite <- app_assoc.
      * by apply GetRef_result_refs.
    + by apply bool_decide_eq_true, is_Some_None in Hpre.
  - split; [by eauto|]. split; [done|]. split.
    + exists tr. split; [|done]. simpl. by rewrite <- app_assoc.
    + by apply GetRef_result_refs.
Qed.

Lemma pre_receive_failure_leaves_ref_witness :
  let g := sample.gitWith sample.veto sample.accept in
  let '(r, w') :=
    updateRefWithHooks g [] sample.repoPath sample.mainRef
      sample.commitA sample.commitB sample.world in
  is_Some r
  ∧ refs w' = refs sample.world
  ∧ (∃ tr, events w' = events sample.world ++ tr ∧ Forall notGit tr)
  ∧ (GetRef g sample.repoPath sample.mainRef w').1
    = (GetRef g sample.repoPath sample.mainRef sample.world).1.
Proof.
  exact (pre_receive_failure_leaves_ref
           (sample.gitWith sample.veto sample.accept) [] sample.repoPath
           sample.mainRef sample.commitA sample.commitB sample.world
           (hook.mkClient sample.veto sample.accept) eq_refl eq_refl).
Defined.

(** What a successful [update-ref] has checked and done. *)
Lemma git_update_ref_Ok repoPath ref (oldValue newValue : sha.SHA) rs out rs' :
  git (updateRefCommand repoPath ref oldValue newValue) rs = (Ok out, rs') →
  ∃ oldOid,
    parseOid (sha.String oldValue) = Some oldOid
    ∧ casCheck rs ref oldOid = None
    ∧ if sha.IsNil newValue then rs' = delete ref rs
      else ∃ newOid,
          parseOid (sha.String newValue) = Some newOid
          ∧ rs' = if isZeroOid newOid then delete ref rs else <[ref := newOid]> rs.
Proof.
  unfold git, updateRefCommand. simpl.
  destruct (sha.IsNil newValue); simpl; unfold updateRefCmd;
    destruct (parseOid (sha.String oldValue)) as [oldOid|]; simpl; try done.
  - destruct (casCheck rs ref oldOid) eqn:Hc; simpl; [done|].
    intros [= _ <-]. by exists oldOid.
  - destruct (parseOid (sha.String newValue)) as [newOid|]; simpl; [|done].
    destruct (casCheck rs ref oldOid) eqn:Hc; simpl; [done|].
    intros [= _ <-]. exists oldOid. repeat split; [done|]. by exists newOid.
Qed.

Lemma parseOid_Some s b : parseOid s = Some b → gostd.DecodeString s = Some b ∧ length b = 20%nat.
Proof.
  unfold parseOid. destruct (gostd.DecodeString s); [|done].
  case_bool_decide; [|done]. by intros [= <-].
Qed.

Lemma isZeroOid_Nil b : isZeroOid b = true → length b = 20%nat → b = sha.bytes sha.Nil.
Proof.
  intros Hz Hl.
  do 21 (destruct b as [|? b]; [try discriminate Hl|];
         simpl in Hz; try apply andb_true_iff in Hz as [?%bool_decide_eq_true Hz];
         subst).
  - reflexivity.
  - simpl in Hl. lia.
Qed.

Lemma list_ascii_of_string_app s t :
  list_ascii_of_string (s +:+ t) = list_ascii_of_string s ++ list_ascii_of_string t.
Proof. induction s as [|c s IH]; [done|]. simpl. by rewrite <- IH. Qed.

(** The newline the store prints after an object name is trimmed away. *)
Lemma TrimSpace_hex_newline s :
  gostd.allHex s = true → gostd.TrimSpace (s +:+ String "010" EmptyString) = s.
Proof.
  intros Hs. unfold gostd.TrimSpace.
  assert (gostd.trimRightSpace (s +:+ String "010" EmptyString) = s) as Hr.
  { unfold gostd.trimRightSpace.
    rewrite list_ascii_of_string_app, rev_app_distr. simpl.
    apply allHex_Forall, Forall_rev in Hs.
    destruct (rev (list_ascii_of_string s)) as [|c r] eqn:E.
    - apply (f_equal (@rev ascii)) in E. rewrite rev_involutive in E.
      rewrite <- (string_of_list_ascii_of_string s). by rewrite E.
    - inversion Hs; subst. rewrite trimRightSpaceRev_hex_head by done.
      rewrite <- E, rev_involutive. apply string_of_list_ascii_of_string. }
  destruct s as [|c s]; [done|].
  simpl in Hs. apply andb_true_iff in Hs as [Hc _].
  change (String c s +:+ String "010" EmptyString)
    with (String c (s +:+ String "010" EmptyString)) in *.
  by rewrite trimLeftSpace_hex_head.
Qed.

(** Looking up a ref the store holds gives the object it points to. *)
Lemma GetRef_present g repoPath ref w oid :
  repoPath ≠ EmptyString → refs w !! ref = Some oid →
  (GetRef g repoPath ref w).1 = Ok (sha.mkSHA oid EmptyString).
Proof.
  intros Hp Hr. unfold GetRef. rewrite bool_decide_eq_false_2 by done.
  unfold Run. rewrite git_show_ref. unfold showRef. rewrite Hr. simpl.
  unfold sha.New.
  rewrite TrimSpace_hex_newline by (apply lowerHex_allHex, EncodeToString_lowerHex).
  by rewrite Decode_Encode.
Qed.

(** Looking up a ref the store does not hold reports [NotFound]. *)
Lemma Contains_app_r p s sub : gostd.Contains s sub = true → gostd.Contains (p +:+ s) sub = true.
Proof.
  intros H. induction p as [|c p IH]; [done|].
  change (String c p +:+ s) with (String c (p +:+ s)).
  simpl. rewrite IH. by rewrite orb_true_r.
Qed.

Lemma showRef_absent_error ref :
  let e := exitError ("fatal: '" +:+ ref +:+ "' - not a valid ref") in
  errors.IsExitCode e 128 && gostd.Contains (errors.Error e) "not a valid ref" = true.
Proof.
  cbv zeta. unfold exitError, errors.IsExitCode, errors.Error.
  rewrite Z.eqb_refl, andb_true_l.
  apply (Contains_app_r "exit status 128").
  apply (Contains_app_r ": ").
  apply (Contains_app_r "fatal: '").
  by apply Contains_app_r.
Qed.

Lemma GetRef_absent g repoPath ref w :
  repoPath ≠ EmptyString → refs w !! ref = None →
  ∃ e, (GetRef g repoPath ref w).1 = Err e ∧ errors.IsNotFound (Some e) = true.
Proof.
  intros Hp Hr. unfold GetRef. rewrite bool_decide_eq_false_2 by done.
  unfold Run. rewrite git_show_ref. unfold showRef. rewrite Hr.
  cbv zeta. cbv iota. cbv beta. rewrite showRef_absent_error.
  eexists. split; reflexivity.
Qed.

(** C4: when validation and pre-receive pass and the store accepts the
    compare-and-swap, a post-receive call that fails or returns a non-nil
    [Error] makes [updateRefWithHooks] return an error, while the refs stay as
    [update-ref] left them: the ref is gone when the new value is [Nil], and
    otherwise it points to the new value, which [GetRef] then reports. *)
Theorem post_receive_failure_keeps_update
    g envVars repoPath ref (oldValue newValue : sha.SHA) w client out rs' :
  repoPath ≠ EmptyString →
  sha.IsEmpty oldValue = false →
  sha.IsEmpty newValue = false →
  sha.IsNil oldValue && sha.IsNil newValue = false →
  githookFactory g envVars = Ok client →
  hook.failed (hook.PreReceive client (intent ref oldValue newValue)) = false →
  git (updateRefCommand repoPath ref oldValue newValue) (refs w) = (Ok out, rs') →
  hook.failed (hook.PostReceive client (intent ref oldValue newValue)) = true →
  let '(r, w') := updateRefWithHooks g envVars repoPath ref oldValue newValue w in
  is_Some r
  ∧ refs w' = rs'
  ∧ if sha.IsNil newValue then rs' !! ref = None
    else sha.str newValue = EmptyString →
         rs' !! ref = Some (sha.bytes newValue)
         ∧ (GetRef g repoPath ref w').1 = Ok newValue.
Proof.
  intros Hp Ho Hn Hnil Hf Hpre Hgit Hpost.
  assert (if sha.IsNil newValue then rs' !! ref = None
          else sha.str newValue = EmptyString → rs' !! ref = Some (sha.bytes newValue))
    as Hval.
  { apply git_update_ref_Ok in Hgit as (oldOid & _ & _ & Hnew).
    destruct (sha.IsNil newValue) eqn:HN.
    - subst rs'. apply lookup_delete_eq.
    - destruct Hnew as (newOid & Hparse & ->). intros Hstr.
      apply parseOid_Some in Hparse as [Hdec Hlen].
      unfold sha.String, sha.toString in Hdec.
      rewrite Hstr, bool_decide_eq_true_2, Decode_Encode in Hdec by done.
      injection Hdec as <-.
      destruct (isZeroOid (sha.bytes newValue)) eqn:Hz.
      + apply isZeroOid_Nil in Hz; [|done].
        unfold sha.IsNil, sha.Equal, sha.bytesEqual in HN.
        apply bool_decide_eq_false in HN. by destruct HN.
      + apply lookup_insert_eq. }
  unfold updateRefWithHooks.
  rewrite bool_decide_eq_false_2 by done. rewrite Ho, Hn, Hnil, Hf.
  destruct (hook.PreReceive client (intent ref oldValue newValue)) as [o|]; [|done].
  simpl in Hpre. destruct (hook.Error o) as [msg|] eqn:Eo.
  { apply bool_decide_eq_false in Hpre. destruct Hpre. by eauto. }
  unfold Run. simpl. rewrite Hgit.
  assert (∀ (e : error) tr,
    is_Some (Some e) ∧ refs (mkWorld rs' tr) = rs'
    ∧ if sha.IsNil newValue then rs' !! ref = None
      else sha.str newValue = EmptyString →
           rs' !! ref = Some (sha.bytes newValue)
           ∧ (GetRef g repoPath ref (mkWorld rs' tr)).1 = Ok newValue) as Hfinal.
  { intros e tr. split; [by eauto|]. split; [done|].
    destruct (sha.IsNil newValue); [done|]. intros Hstr.
    split; [by apply Hval|].
    rewrite (GetRef_present g repoPath ref _ (sha.bytes newValue)); [|done|by apply Hval].
    destruct newValue as [b t]. simpl in Hstr. by subst. }
  destruct (hook.PostReceive client (intent ref oldValue newValue)) as [o2|e2].
  - simpl in Hpost. destruct (hook.Error o2) as [msg|].
    + apply Hfinal.
    + by apply bool_decide_eq_true, is_Some_None in Hpost.
  - apply Hfinal.
Qed.

Lemma post_receive_failure_keeps_update_witness :
  let g := sample.gitWith sample.accept sample.unreachable in
  let rs' := <[sample.mainRef := sha.bytes sample.commitB]> (refs sample.world) in
  let '(r, w') :=
    updateRefWithHooks g [] sample.repoPath sample.mainRef
      sample.commitA sample.commitB sample.world in
  is_Some r
  ∧ refs w' = rs'
  ∧ rs' !! sample.mainRef = Some (sha.bytes sample.commitB)
  ∧ (GetRef g sample.repoPath sample.mainRef w').1 = Ok sample.commitB.
Proof.
  intros g rs'.
  pose proof (post_receive_failure_keeps_update g [] sample.repoPath
                sample.mainRef sample.commitA sample.commitB sample.world
                (hook.mkClient sample.accept sample.unreachable) EmptyString rs'
                ltac:(done) eq_refl eq_refl eq_refl eq_refl eq_refl eq_refl eq_refl)
    as Hthm.
  destruct (updateRefWithHooks g [] sample.repoPath sample.mainRef
              sample.commitA sample.commitB sample.world) as [r w'].
  destruct Hthm as (Hr & Hrefs & Hval).
  change (sha.IsNil sample.commitB) with false in Hval. cbv iota in Hval.
  split; [exact Hr|]. split; [exact Hrefs|]. exact (Hval eq_refl).
Defined.

(** C2: [UpdateRef] normalises its values before it delegates. An unset
    new value is read as [Nil] (delete intent). An unset old value is
    resolved with [GetRef]: the value found is the old value of the delegated
    call; when the lookup reports the ref absent, the call fails with
    [NotFound] if the new value is [Nil], and otherwise [Nil] is the old
    value of the delegated call (create intent). *)
Theorem UpdateRef_normalises
    g envVars repoPath ref (oldValue newValue : sha.SHA) w :
  let newValue' := if sha.IsEmpty newValue then sha.Nil else newValue in
  UpdateRef g envVars repoPath ref oldValue newValue w
  = UpdateRef g envVars repoPath ref oldValue newValue' w
  ∧ (sha.IsEmpty oldValue = true →
     (∀ val w1,
        GetRef g repoPath ref w = (Ok val, w1) →
        UpdateRef g envVars repoPath ref oldValue newValue w
        = delegated (updateRefWithHooks g envVars repoPath ref val newValue' w1))
     ∧ (∀ e w1,
          GetRef g repoPath ref w = (Err e, w1) →
          errors.IsNotFound (Some e) = true →
          if sha.IsNil newValue' then
            ∃ e', UpdateRef g envVars repoPath ref oldValue newValue w = (Some e', w1)
                  ∧ errors.AsStatus e' = errors.StatusNotFound
          else
            UpdateRef g envVars repoPath ref oldValue newValue w
            = delegated
                (updateRefWithHooks g envVars repoPath ref sha.Nil newValue' w1))).
Proof.
  intros newValue'. split.
  - unfold UpdateRef. case_bool_decide; [done|].
    subst newValue'. destruct (sha.IsEmpty newValue) eqn:Hn.
    + reflexivity.
    + cbv iota. by rewrite Hn.
  - intros Ho.
    assert (∀ r w1, GetRef g repoPath ref w = (r, w1) →
                    (∀ e, r = Err e → errors.IsNotFound (Some e) = true) →
                    repoPath ≠ EmptyString) as Hp.
    { intros r w1 Hget Hr ->. unfold GetRef in Hget. simpl in Hget.
      injection Hget as <- _. by specialize (Hr _ eq_refl). }
    split.
    + intros val w1 Hget.
      unfold UpdateRef. rewrite bool_decide_eq_false_2 by (by eapply Hp).
      fold newValue'. by rewrite Ho, Hget.
    + intros e w1 Hget Hnf.
      unfold UpdateRef.
      rewrite bool_decide_eq_false_2 by (eapply Hp; [done|]; by intros ? [= <-]).
      fold newValue'. rewrite Ho, Hget, Hnf.
      destruct (sha.IsNil newValue') eqn:HN.
      * eexists. split; reflexivity.
      * reflexivity.
Qed.

Lemma UpdateRef_normalises_witness :
  let g := sample.gitWith sample.accept sample.accept in
  let w1 := record (EvGit (mkCommand "show-ref" ["--verify"; "-s"] [sample.mainRef]
                             sample.repoPath)) sample.emptyWorld in
  ∃ e', UpdateRef g [] sample.repoPath sample.mainRef sha.Empty sha.Empty
          sample.emptyWorld = (Some e', w1)
        ∧ errors.AsStatus e' = errors.StatusNotFound.
Proof.
  intros g w1.
  pose proof (UpdateRef_normalises g [] sample.repoPath sample.mainRef sha.Empty
                sha.Empty sample.emptyWorld) as [_ Hthm].
  specialize (Hthm eq_refl) as [_ Habsent].
  specialize (Habsent (errors.NotFound "reference %q not found" [sample.mainRef]) w1
                eq_refl eq_refl).
  change (sha.IsNil (if sha.IsEmpty sha.Empty then sha.Nil else sha.Empty))
    with true in Habsent.
  exact Habsent.
Defined.

End RefStore.

(** *** The reference walker *)

Section WalkFacts.

Import api.

Context {H SortOrder : Type}.
Variable mapToReferenceSortingArgument : GitReferenceField → SortOrder → string.
Variable formatFlag : list string → string.
Variable mapRawRef : RawRef → result WalkReferencesEntry.
Variable forEachRef : Command → gmap string (list byte) → list RawRef * option error.

Implicit Types (instructor : @WalkReferencesInstructor H)
  (handler : @WalkReferencesHandler H) (st : @Walk H)
  (opts : @WalkReferencesOptions H SortOrder).

(** Each iteration of the loop invokes the handler at most once. *)
Lemma walkLoop_handled n instructor handler st :
  length (handled (walkLoop mapRawRef n instructor handler st).2)
  ≤ length (handled st) + n.
Proof.
  revert st. induction n as [|n IH]; intros st; simpl; [lia|].
  destruct (Next (parser st)) as [[rawRef|] p]; simpl; [|lia].
  destruct (mapRawRef rawRef) as [ref|e]; simpl; [|lia].
  destruct (instructor ref (caller st)) as [[[]|e] h]; simpl; try lia.
  - destruct (handler ref h) as [[e|] h2]; simpl.
    + rewrite length_app. simpl. lia.
    + etrans; [apply IH|]. simpl. rewrite length_app. simpl. lia.
  - etrans; [apply IH|]. simpl. lia.
Qed.

Lemma walkReferenceParser_handled p handler opts h :
  length (handled (walkReferenceParser mapRawRef p handler opts h).2)
  ≤ Z.to_nat (MaxWalkDistance opts).
Proof.
  unfold walkReferenceParser.
  pose proof (walkLoop_handled (Z.to_nat (MaxWalkDistance opts))
                (default DefaultInstructor (Instructor opts)) handler
                (mkWalk p h [])) as Hb.
  destruct (walkLoop _ _ _ _ _) as [[e|] st]; simpl in *; [lia|].
  destruct (err (parser st)); simpl; lia.
Qed.

(** [Stop] on the first entry: the loop is left before the handler is reached. *)
Lemma walkReferenceParser_stop p handler opts h r rest ref instructor h' :
  (0 < MaxWalkDistance opts)%Z →
  pending p = r :: rest →
  err p = None →
  mapRawRef r = Ok ref →
  Instructor opts = Some instructor →
  instructor ref h = (Ok WalkInstructionStop, h') →
  walkReferenceParser mapRawRef p handler opts h
  = (None, mkWalk (mkParser rest (failure p) None) h' []).
Proof.
  intros Hmax Hp He Hm Hi Hstop. unfold walkReferenceParser.
  destruct (Z.to_nat (MaxWalkDistance opts)) as [|n] eqn:En; [lia|].
  rewrite Hi. simpl. unfold Next. rewrite Hp. simpl. rewrite Hm, Hstop. simpl.
  by rewrite He.
Qed.

Lemma WalkReferences_handled g repoPath handler opts h w :
  (0 < MaxWalkDistance opts)%Z →
  length (handled (WalkReferences mapToReferenceSortingArgument formatFlag
                     mapRawRef forEachRef g repoPath handler opts h w).1.2)
  ≤ Z.to_nat (MaxWalkDistance opts).
Proof.
  intros Hmax. unfold WalkReferences.
  case_bool_decide; [simpl; lia|].
  destruct (MaxWalkDistance opts <=? 0)%Z eqn:Hle; [lia|].
  destruct (forEachRef _ _) as [records failure].
  match goal with
  | |- context [walkReferenceParser mapRawRef ?p handler ?o h] =>
      pose proof (walkReferenceParser_handled p handler o h) as Hb;
      destruct (walkReferenceParser mapRawRef p handler o h) as [e st]
  end.
  exact Hb.
Qed.

(** C5 (as amended): the handler is invoked at most [MaxWalkDistance] times,
    by [walkReferenceParser] over any stream (so at most twice for a
    distance of 2 and a stream of five) and by [WalkReferences] for a
    positive distance; and when the instructor answers [Stop] on the first
    entry of the stream, the walk ends without error and the handler has not
    been invoked at all. *)
Theorem walk_distance_and_stop g repoPath p handler opts h w :
  length (handled (walkReferenceParser mapRawRef p handler opts h).2)
  ≤ Z.to_nat (MaxWalkDistance opts)
  ∧ ((0 < MaxWalkDistance opts)%Z →
     length (handled (WalkReferences mapToReferenceSortingArgument formatFlag
                        mapRawRef forEachRef g repoPath handler opts h w).1.2)
     ≤ Z.to_nat (MaxWalkDistance opts))
  ∧ (∀ r rest ref instructor h',
       (0 < MaxWalkDistance opts)%Z →
       pending p = r :: rest →
       err p = None →
       mapRawRef r = Ok ref →
       Instructor opts = Some instructor →
       instructor ref h = (Ok WalkInstructionStop, h') →
       walkReferenceParser mapRawRef p handler opts h
       = (None, mkWalk (mkParser rest (failure p) None) h' [])).
Proof.
  split; [apply walkReferenceParser_handled|].
  split; [apply WalkReferences_handled|].
  intros r rest ref instructor h'. apply walkReferenceParser_stop.
Qed.

End WalkFacts.

Lemma walk_distance_and_stop_witness :
  let p := api.mkParser sample.fiveBranches None None in
  let opts := sample.options (Some sample.stopAtOnce) 2 in
  (length (api.handled
             (api.walkReferenceParser sample.mapRawRef p sample.keep opts tt).2)
   ≤ 2)%nat
  ∧ api.walkReferenceParser sample.mapRawRef p sample.keep opts tt
    = (None, api.mkWalk (api.mkParser (tail sample.fiveBranches) None None) tt []).
Proof.
  intros p opts.
  destruct (walk_distance_and_stop (λ _ _, EmptyString) (λ _, EmptyString)
              sample.mapRawRef (λ _ _, (sample.fiveBranches, None))
              (sample.gitWith sample.accept sample.accept) sample.repoPath
              p sample.keep opts tt sample.emptyWorld) as (Hbound & _ & Hstop).
  split; [exact Hbound|].
  exact (Hstop (sample.branch "refs/heads/a") (tail sample.fiveBranches)
           (sample.branch "refs/heads/a") sample.stopAtOnce tt
           ltac:(reflexivity) eq_refl eq_refl ltac:(vm_compute; reflexivity)
           eq_refl eq_refl).
Defined.

(** C5 (as stated) fails: over a stream of one entry, with an instructor
    that answers [Stop] on it, the walk ends without error and the list of
    entries the handler was invoked with is empty: the handler has run zero
    times, not once. *)
Lemma walk_stop_first_counterexample :
  let r :=
    api.walkReferenceParser sample.mapRawRef
      (api.mkParser [sample.branch "refs/heads/a"] None None)
      sample.keep (sample.options (Some sample.stopAtOnce) 2) tt in
  r = (None, api.mkWalk (api.mkParser [] None None) tt [])
  ∧ length (api.handled r.2) ≠ 1%nat.
Proof. vm_compute. split; [reflexivity|discriminate]. Qed.



(** *** The commit builder *)

Section CommitBuilderFacts.

Import api git.

Context {S : Type} `{!Collaborators S}.

Implicit Types (s : Service) (shared repo : SharedRepo S)
  (action : CommitFileAction) (commit : Commit).

(** C10: an action whose kind is none of the four known ones, and whose path
    cleans to a non-empty string, is passed over: [processAction] returns nil
    and the shared repository (staging state and calls) is what it was. *)
Theorem processAction_ignores_unknown_action s shared action commit :
  Action action ≠ CreateAction →
  Action action ≠ UpdateAction →
  Action action ≠ MoveAction →
  Action action ≠ DeleteAction →
  CleanUploadFileName (Path action) ≠ EmptyString →
  processAction s shared action commit = (None, shared).
Proof.
  intros Hc Hu Hm Hd Hp. unfold processAction.
  by rewrite !bool_decide_eq_false_2.
Qed.

(** **** The stale-read guard *)

Lemma getFileEntry_mismatch repo commit sha path entry :
  getTreeNode (sha.String (commitSHA commit)) path (store repo) = Ok entry →
  sha ≠ EmptyString →
  sha ≠ sha.String (nodeSHA entry) →
  ∃ e, (getFileEntry repo commit sha path).1 = Err e
       ∧ errors.AsStatus e = errors.StatusInvalidArgument.
Proof.
  intros Hn H1 H2. unfold getFileEntry, GetTreeNode. rewrite Hn.
  rewrite !bool_decide_eq_false_2 by done. simpl. by eauto.
Qed.

Lemma getFileEntry_no_sha repo commit path entry :
  getTreeNode (sha.String (commitSHA commit)) path (store repo) = Ok entry →
  (getFileEntry repo commit EmptyString path).1 = Ok entry.
Proof.
  intros Hn. unfold getFileEntry, GetTreeNode. rewrite Hn.
  by rewrite bool_decide_eq_true_2.
Qed.

Lemma getFileEntry_matching repo commit sha path entry :
  getTreeNode (sha.String (commitSHA commit)) path (store repo) = Ok entry →
  sha = sha.String (nodeSHA entry) →
  (getFileEntry repo commit sha path).1 = Ok entry.
Proof.
  intros Hn ->. unfold getFileEntry, GetTreeNode. rewrite Hn.
  rewrite (bool_decide_eq_true_2 (sha.String _ = sha.String _)) by done.
  by rewrite andb_false_r.
Qed.

(** C7 (as amended): with [entry] the tree entry of the parent commit at the
    cleaned path of the action, a supplied SHA that is not empty and differs
    from the entry's makes [getFileEntry] fail with [InvalidArgument], and
    with it every Update action and every Move action whose payload names a
    valid destination; without a supplied SHA [getFileEntry] returns the
    entry, whatever its SHA. *)
Theorem stale_sha_is_invalid_argument s shared action commit entry :
  let filePath := CleanUploadFileName (Path action) in
  filePath ≠ EmptyString →
  getTreeNode (sha.String (commitSHA commit)) filePath (store shared) = Ok entry →
  (SHA action ≠ EmptyString →
   SHA action ≠ sha.String (nodeSHA entry) →
   (∃ e, (getFileEntry shared commit (SHA action) filePath).1 = Err e
         ∧ errors.AsStatus e = errors.StatusInvalidArgument)
   ∧ (Action action = UpdateAction
      ∨ (Action action = MoveAction
         ∧ ∃ dest, parseMovePayload (Payload action) = Ok dest) →
      ∃ e, (processAction s shared action commit).1 = Some e
           ∧ errors.AsStatus e = errors.StatusInvalidArgument))
  ∧ (getFileEntry shared commit EmptyString filePath).1 = Ok entry.
Proof.
  intros filePath Hp Hn. split; [|by apply getFileEntry_no_sha].
  intros H1 H2.
  destruct (getFileEntry_mismatch shared commit (SHA action) filePath entry Hn H1 H2)
    as (e & He & Hs).
  split; [by eauto|].
  intros Hkind. exists e. split; [|done].
  unfold processAction. fold filePath. rewrite bool_decide_eq_false_2 by done.
  destruct Hkind as [Hu|[Hm [[newPath newContent] Hpay]]].
  - rewrite Hu. simpl. unfold updateFile.
    destruct (getFileEntry shared commit (SHA action) filePath) as [r repo].
    simpl in He. by subst r.
  - rewrite Hm. simpl. unfold moveFile. rewrite Hpay.
    destruct (getFileEntry shared commit (SHA action) filePath) as [r repo].
    simpl in He. by subst r.
Qed.

(** **** Tree preparation for an empty repository *)

Lemma called_calls (c : Call) repo (st : S) : calls (called c repo st) = calls repo ++ [c].
Proof. reflexivity. Qed.

(** Creating a file without a parent commit writes an object and stages it. *)
Lemma createFile_None_calls repo filePath mode payload :
  ∃ tr, calls (createFile repo None filePath mode payload).2 = calls repo ++ tr
        ∧ Forall notTreeOrCommit tr.
Proof.
  unfold createFile, WriteGitObject, AddObjectToIndex.
  destruct (writeGitObject payload (store repo)) as [[h|e] st1]; simpl.
  - destruct (addObjectToIndex mode (sha.String h) filePath st1) as [[e|] st2]; simpl;
      (eexists; split; [by rewrite <- app_assoc|]; by repeat constructor).
  - eexists. split; [done|]. by repeat constructor.
Qed.

Lemma prepareTreeEmptyRepo_calls s shared actions :
  ∃ tr, calls (prepareTreeEmptyRepo s shared actions).2 = calls shared ++ tr
        ∧ Forall notTreeOrCommit tr.
Proof.
  revert shared. induction actions as [|a rest IH]; intros shared; simpl.
  - exists []. by rewrite app_nil_r.
  - destruct (negb _); simpl; [exists []; by rewrite app_nil_r|].
    case_bool_decide; simpl; [exists []; by rewrite app_nil_r|].
    destruct (createFile_None_calls shared (CleanUploadFileName (Path a))
                defaultFilePermission (Payload a)) as (tr1 & Hc1 & Hf1).
    destruct (createFile shared None _ _ _) as [[e|] shared1]; simpl in *.
    + by eauto.
    + destruct (IH shared1) as (tr2 & Hc2 & Hf2).
      exists (tr1 ++ tr2). rewrite Hc2, Hc1, app_assoc. split; [done|].
      by apply Forall_app.
Qed.

(** With an action that is not a Create in the list, preparation fails. *)
Lemma prepareTreeEmptyRepo_fails s shared actions :
  Exists (λ a, Action a ≠ CreateAction) actions →
  is_Some (prepareTreeEmptyRepo s shared actions).1.
Proof.
  revert shared. induction actions as [|a rest IH]; intros shared Hex.
  - by apply Exists_nil in Hex.
  - simpl. case_bool_decide as Ha; simpl; [|by eauto].
    apply Exists_cons in Hex as [?|Hex]; [done|].
    case_bool_decide; simpl; [by eauto|].
    destruct (createFile shared None _ _ _) as [[e|] shared1]; simpl; [by eauto|].
    by apply IH.
Qed.

(** When the actions before it went through, the action that is not a
    Create is answered with [PreconditionFailed]. *)
Lemma prepareTreeEmptyRepo_first_non_create s shared shared' pre a post :
  prepareTreeEmptyRepo s shared pre = (None, shared') →
  Action a ≠ CreateAction →
  prepareTreeEmptyRepo s shared (pre ++ a :: post)
  = (Some (errors.PreconditionFailed "action not allowed on empty repository" []),
     shared').
Proof.
  revert shared. induction pre as [|b pre IH]; intros shared Hpre Ha; simpl in *.
  - injection Hpre as <-. by rewrite bool_decide_eq_false_2.
  - destruct (negb _); [done|].
    case_bool_decide; [done|].
    destruct (createFile shared None _ _ _) as [[e|] shared1]; [done|].
    by apply IH.
Qed.

(** The closure on the shared repository, for an empty repository and a list
    with an action that is not a Create: it fails, and the calls it made
    wrote no tree and no commit. *)
Lemma buildCommit_empty_fails
    s params repoPath (tip : option Commit) old author committer ad cd log :
  Exists (λ a, Action a ≠ CreateAction) (Actions params) →
  ∃ e tr,
    buildCommit s params repoPath true tip old author committer ad cd log
    = (Err e, log ++ tr)
    ∧ Forall notTreeOrCommit tr.
Proof.
  intros Hex. unfold buildCommit.
  destruct (newSharedRepo _ _ _) as [st0|e0].
  2:{ eexists _, []. by rewrite app_nil_r. }
  unfold InitAsShared. simpl.
  destruct (initAsShared st0) as [[e1|] st1]; simpl.
  { eexists _, [CallInitAsShared; CallClose]. rewrite <- app_assoc.
    split; [done|]. by repeat constructor. }
  pose proof (prepareTreeEmptyRepo_fails s
                (called CallInitAsShared (mkSharedRepo st0 log) st1)
                (Actions params) Hex) as [e He].
  destruct (prepareTreeEmptyRepo_calls s
              (called CallInitAsShared (mkSharedRepo st0 log) st1)
              (Actions params)) as (tr & Hc & Hf).
  destruct (prepareTreeEmptyRepo s _ (Actions params)) as [r shared1].
  simpl in He, Hc. subst r. simpl.
  eexists _, ([CallInitAsShared] ++ tr ++ [CallClose]).
  split.
  - f_equal. rewrite Hc. by rewrite <- !app_assoc.
  - apply Forall_app. split; [by repeat constructor|].
    apply Forall_app. split; [done|]. by repeat constructor.
Qed.

Lemma buildCommit_empty_status
    s params repoPath (tip : option Commit) old author committer ad cd log
    st0 st1 pre a post :
  newSharedRepo (tmpDir s) (RepoUID (writeParams params)) repoPath = Ok st0 →
  initAsShared st0 = (None, st1) →
  Actions params = pre ++ a :: post →
  Action a ≠ CreateAction →
  (prepareTreeEmptyRepo s (mkSharedRepo st1 (log ++ [CallInitAsShared])) pre).1 = None →
  ∃ e, (buildCommit s params repoPath true tip old author committer ad cd log).1
       = Err e
       ∧ errors.AsStatus e = errors.StatusPreconditionFailed.
Proof.
  intros Hnew Hinit Hact Ha Hpre. unfold buildCommit.
  rewrite Hnew. unfold InitAsShared. simpl. rewrite Hinit. simpl.
  unfold called. simpl.
  destruct (prepareTreeEmptyRepo s (mkSharedRepo st1 (log ++ [CallInitAsShared])) pre)
    as [r shared'] eqn:Epre.
  simpl in Hpre. subst r.
  rewrite Hact.
  rewrite (prepareTreeEmptyRepo_first_non_create s _ shared' pre a post Epre Ha).
  simpl. by eauto.
Qed.

Lemma validateAndPrepareHeader_params s repoPath isEmpty params w :
  Actions (validateAndPrepareHeader s repoPath isEmpty params w).2 = Actions params
  ∧ writeParams (validateAndPrepareHeader s repoPath isEmpty params w).2
    = writeParams params.
Proof.
  unfold validateAndPrepareHeader.
  destruct (if bool_decide (Branch params = EmptyString) then _ else _) as [b|e];
    [|done].
  destruct isEmpty; [done|].
  destruct (getBranch repoPath _ w) as [source|e]; [|done].
  by destruct (if negb _ then _ else _).
Qed.

(** C6 (as amended): on an empty repository, a list with an action that is
    not a Create makes tree preparation fail, so that [CommitFiles] fails
    and neither a tree nor a commit is written, and the refs stay as they
    are. The failure is [PreconditionFailed] when the actions before the
    first one that is not a Create were staged without error, also as
    [CommitFiles] reports it once it has reached tree preparation. *)
Theorem empty_repository_rejects_non_create s params st shared :
  let repoPath := getFullPathForRepo (reposRoot s) (RepoUID (writeParams params)) in
  Exists (λ a, Action a ≠ CreateAction) (Actions params) →
  is_Some (prepareTreeEmptyRepo s shared (Actions params)).1
  ∧ (∀ pre a post shared',
       Actions params = pre ++ a :: post →
       Action a ≠ CreateAction →
       prepareTreeEmptyRepo s shared pre = (None, shared') →
       prepareTreeEmptyRepo s shared (Actions params)
       = (Some (errors.PreconditionFailed "action not allowed on empty repository" []),
          shared'))
  ∧ (hasBranches repoPath (world st) = Ok true →
     (∃ e tr,
        (CommitFiles s params st).1 = Err e
        ∧ sharedCalls (CommitFiles s params st).2 = sharedCalls st ++ tr
        ∧ Forall notTreeOrCommit tr
        ∧ world (CommitFiles s params st).2 = world st)
     ∧ (∀ st0 st1 pre a post,
          validate s (writeParams params) = None →
          (validateAndPrepareHeader s repoPath true params (world st)).1 = Ok None →
          newSharedRepo (tmpDir s) (RepoUID (writeParams params)) repoPath = Ok st0 →
          initAsShared st0 = (None, st1) →
          Actions params = pre ++ a :: post →
          Action a ≠ CreateAction →
          (prepareTreeEmptyRepo s
             (mkSharedRepo st1 (sharedCalls st ++ [CallInitAsShared])) pre).1 = None →
          ∃ e, (CommitFiles s params st).1 = Err e
               ∧ errors.AsStatus e = errors.StatusPreconditionFailed)).
Proof.
  intros repoPath Hex.
  split; [by apply prepareTreeEmptyRepo_fails|].
  split.
  { intros pre a post shared' -> Ha Hpre.
    by apply prepareTreeEmptyRepo_first_non_create. }
  intros Hempty. split.
  - unfold CommitFiles. fold repoPath.
    destruct (validate s (writeParams params)) as [e|].
    { eexists _, []. by rewrite app_nil_r. }
    rewrite Hempty.
    pose proof (validateAndPrepareHeader_params s repoPath true params (world st))
      as [Hacts _].
    destruct (validateAndPrepareHeader s repoPath true params (world st))
      as [[tip|e] params'].
    2:{ eexists _, []. by rewrite app_nil_r. }
    simpl in Hacts. rewrite <- Hacts in Hex.
    match goal with
    | |- context [buildCommit s params' repoPath true tip ?old ?au ?co ?ad ?cd ?log] =>
        destruct (buildCommit_empty_fails s params' repoPath tip old au co ad cd log Hex)
          as (e & tr & -> & Hf)
    end.
    simpl. by eauto 10.
  - intros st0 st1 pre a post Hval Hhead Hnew Hinit Hact Ha Hpre.
    unfold CommitFiles. fold repoPath. rewrite Hval, Hempty.
    pose proof (validateAndPrepareHeader_params s repoPath true params (world st))
      as [Hacts Hwp].
    destruct (validateAndPrepareHeader s repoPath true params (world st))
      as [r params'].
    simpl in Hhead, Hacts, Hwp. subst r.
    rewrite <- Hacts in Hact. rewrite <- Hwp in Hnew.
    match goal with
    | |- context [buildCommit s params' repoPath true None ?old ?au ?co ?ad ?cd ?log] =>
        destruct (buildCommit_empty_status s params' repoPath None old au co ad cd log
                    st0 st1 pre a post Hnew Hinit Hact Ha Hpre) as (e & He & Hs);
        destruct (buildCommit s params' repoPath true None old au co ad cd log)
          as [r log']
    end.
    simpl in He. subst r. simpl. by eauto.
Qed.

(** **** Paths made of normal elements *)

Lemma append_cons c (a b : string) : String c a +:+ b = String c (a +:+ b).
Proof. reflexivity. Qed.

Lemma append_assoc_s (a b c : string) : (a +:+ b) +:+ c = a +:+ b +:+ c.
Proof. induction a as [|x a IH]; [done|]. by rewrite !append_cons, IH. Qed.

Lemma normalSegment_spec seg :
  normalSegment seg = true →
  seg ≠ EmptyString ∧ seg ≠ "." ∧ seg ≠ ".." ∧ hasSlash seg = false.
Proof.
  unfold normalSegment. rewrite !andb_true_iff, !negb_true_iff.
  intros [[[H1 H2] H3] H4].
  apply bool_decide_eq_false in H1, H2, H3. done.
Qed.

Lemma Split_no_slash a : hasSlash a = false → gostd.Split a "/" = [a].
Proof.
  induction a as [|c a IH]; [done|]. simpl.
  intros [Hc Ha]%orb_false_iff. rewrite Hc, (IH Ha). done.
Qed.

Lemma Split_append_slash a b :
  hasSlash a = false →
  gostd.Split (a +:+ "/" +:+ b) "/" = a :: gostd.Split b "/".
Proof.
  induction a as [|c a IH]; [done|]. rewrite append_cons. simpl.
  intros [Hc Ha]%orb_false_iff. rewrite Hc, (IH Ha). done.
Qed.

Lemma concat_cons2 sep x y (l : list string) :
  String.concat sep (x :: y :: l) = x +:+ sep +:+ String.concat sep (y :: l).
Proof. reflexivity. Qed.

Lemma Split_concat segs :
  segs ≠ [] → forallb normalSegment segs = true →
  gostd.Split (String.concat "/" segs) "/" = segs.
Proof.
  induction segs as [|x [|y l] IH]; [done| |]; intros _ Hn.
  - simpl in *. apply andb_true_iff in Hn as [Hx _].
    apply normalSegment_spec in Hx as (_ & _ & _ & Hs). by apply Split_no_slash.
  - rewrite concat_cons2.
    change (forallb normalSegment (x :: y :: l))
      with (normalSegment x && forallb normalSegment (y :: l)) in Hn.
    apply andb_true_iff in Hn as [Hx Hl].
    apply normalSegment_spec in Hx as (_ & _ & _ & Hs).
    rewrite Split_append_slash by done. by rewrite IH.
Qed.

Lemma concat_snoc sep (pre : list string) x :
  pre ≠ [] → String.concat sep (pre ++ [x]) = String.concat sep pre +:+ sep +:+ x.
Proof.
  induction pre as [|a [|b l] IH]; [done| |]; intros _.
  - reflexivity.
  - change ((a :: b :: l) ++ [x]) with (a :: (b :: l) ++ [x]).
    change ((b :: l) ++ [x]) with (b :: l ++ [x]) at 1.
    rewrite concat_cons2.
    change (b :: l ++ [x]) with ((b :: l) ++ [x]).
    rewrite IH by done. rewrite concat_cons2. by rewrite !append_assoc_s.
Qed.

Lemma fold_cleanStep_normal rooted segs stack :
  forallb normalSegment segs = true →
  fold_left (gostd.cleanStep rooted) segs stack = rev segs ++ stack.
Proof.
  revert stack. induction segs as [|x l IH]; intros stack Hn; [done|].
  simpl in Hn. apply andb_true_iff in Hn as [Hx Hl].
  apply normalSegment_spec in Hx as (H1 & H2 & H3 & _).
  simpl. unfold gostd.cleanStep at 2.
  rewrite !bool_decide_eq_false_2 by done. simpl.
  rewrite IH by done. by rewrite <- app_assoc.
Qed.

Lemma concat_nonempty sep segs x :
  segs = x :: tail segs → x ≠ EmptyString → String.concat sep segs ≠ EmptyString.
Proof.
  intros -> Hx. destruct (tail (x :: tail segs)) as [|y l] eqn:E.
  - simpl in E. rewrite E. done.
  - simpl in E. rewrite E, concat_cons2. destruct x; [done|]. by rewrite append_cons.
Qed.

Lemma concat_not_rooted segs :
  segs ≠ [] → forallb normalSegment segs = true →
  String.concat "/" segs ≠ EmptyString
  ∧ gostd.isRooted (String.concat "/" segs) = false.
Proof.
  destruct segs as [|x l]; [done|]. intros _ Hn.
  simpl in Hn. apply andb_true_iff in Hn as [Hx _].
  apply normalSegment_spec in Hx as (H1 & _ & _ & Hs).
  destruct x as [|c x]; [done|]. simpl in Hs. apply orb_false_iff in Hs as [Hc _].
  destruct l as [|y l].
  - split; [done|]. simpl. done.
  - rewrite concat_cons2, append_cons. split; [done|]. simpl. done.
Qed.

Lemma Clean_concat segs :
  segs ≠ [] → forallb normalSegment segs = true →
  gostd.Clean (String.concat "/" segs) = String.concat "/" segs.
Proof.
  intros Hne Hn. destruct (concat_not_rooted segs Hne Hn) as [Hc Hr].
  unfold gostd.Clean. rewrite bool_decide_eq_false_2 by done.
  rewrite Hr, Split_concat, fold_cleanStep_normal by done.
  rewrite app_nil_r, rev_involutive. by rewrite bool_decide_eq_false_2.
Qed.

(** Joining one more normal element onto a path of normal elements. *)
Lemma Join_concat pre seg :
  forallb normalSegment (pre ++ [seg]) = true →
  gostd.Join (String.concat "/" pre) seg = String.concat "/" (pre ++ [seg]).
Proof.
  intros Hn.
  assert (forallb normalSegment pre = true ∧ normalSegment seg = true) as [Hpre Hseg].
  { rewrite forallb_app in Hn. apply andb_true_iff in Hn as [? Hs]. simpl in Hs.
    by rewrite andb_true_r in Hs. }
  pose proof (normalSegment_spec seg Hseg) as (Hs1 & _).
  unfold gostd.Join. destruct pre as [|x l].
  - simpl. rewrite (bool_decide_eq_false_2 (seg = EmptyString)) by done.
    by apply (Clean_concat [seg]).
  - destruct (concat_not_rooted (x :: l)) as [Hc _]; [done..|].
    rewrite !bool_decide_eq_false_2 by done.
    rewrite <- concat_snoc by done. by apply Clean_concat.
Qed.

(** **** The tree behind the store *)

Lemma treeEntry_app t (a b : list string) :
  treeEntry t (a ++ b) = treeEntry t a ≫= λ t', treeEntry t' b.
Proof.
  revert t. induction a as [|x a IH]; intros t; [done|]. simpl.
  destruct t as [|oid entries]; [done|].
  destruct (childNamed x entries); [apply IH|done].
Qed.

Lemma treeEntry_below t x (l : list string) t' :
  treeEntry t (x :: l) = Some t' → treeMode t = TreeNodeModeTree.
Proof. by destruct t. Qed.

Lemma treeNodeAt_concat root segs :
  segs ≠ [] → forallb normalSegment segs = true →
  treeNodeAt root (String.concat "/" segs)
  = match treeEntry root segs with
    | Some t =>
        Ok (mkTreeNode (treeMode t) (treeOid t) (List.last segs EmptyString)
              (String.concat "/" segs))
    | None => Err (errors.NotFound "path %q not found" [String.concat "/" segs])
    end.
Proof.
  intros Hne Hn. destruct (concat_not_rooted segs Hne Hn) as [Hc _].
  unfold treeNodeAt. rewrite bool_decide_eq_false_2 by done.
  by rewrite Split_concat.
Qed.

(** The walk over the elements of a path whose prefix [done ++ todo] leads
    to an entry that is not a directory, with more elements [rest] to come
    after it, ends at that entry with a [Conflict]. *)
Lemma checkPathLoop_conflict commit filePath isNewFile root len t :
  ∀ todo done rest repo,
    (∀ p, getTreeNode (sha.String (commitSHA commit)) p (store repo) = treeNodeAt root p) →
    forallb normalSegment (done ++ todo) = true →
    todo ≠ [] → rest ≠ [] →
    treeEntry root (done ++ todo) = Some t →
    treeMode t ≠ TreeNodeModeTree →
    len = length (done ++ todo ++ rest) →
    ∃ e, (checkPathLoop commit filePath isNewFile len (length done) (todo ++ rest)
            (String.concat "/" done) repo).1 = Some e
         ∧ errors.AsStatus e = errors.StatusConflict.
Proof.
  induction todo as [|seg todo IH]; [done|].
  intros done rest repo Hstore Hn _ Hrest Ht Hmode Hlen.
  assert (forallb normalSegment (done ++ [seg]) = true) as Hn1.
  { replace (done ++ seg :: todo) with ((done ++ [seg]) ++ todo) in Hn
      by (by rewrite <- app_assoc).
    rewrite forallb_app in Hn. by apply andb_true_iff in Hn as [? _]. }
  change ((seg :: todo) ++ rest) with (seg :: todo ++ rest).
  cbn [checkPathLoop]. rewrite Join_concat by done.
  unfold GetTreeNode. rewrite Hstore.
  rewrite treeNodeAt_concat by (done || by destruct done).
  replace (done ++ seg :: todo) with ((done ++ [seg]) ++ todo) in Ht
    by (by rewrite <- app_assoc).
  rewrite treeEntry_app in Ht.
  destruct (treeEntry root (done ++ [seg])) as [t1|] eqn:E1; [|done].
  simpl in Ht.
  assert ((length done <? len - 1)%nat = true) as ->.
  { apply Nat.ltb_lt. rewrite Hlen. repeat rewrite length_app.
    destruct rest; [done|]. cbn [length]. lia. }
  destruct todo as [|seg2 todo].
  - simpl in Ht. injection Ht as ->.
    unfold IsDir. simpl. rewrite bool_decide_eq_false_2 by done. simpl. by eauto.
  - apply treeEntry_below in Ht as Hdir.
    unfold IsDir. cbn [Mode]. rewrite bool_decide_eq_true_2 by done. cbn [negb].
    replace (Datatypes.S (length done)) with (length (done ++ [seg]))
      by (rewrite length_app; simpl; lia).
    apply IH.
    + done.
    + by rewrite <- app_assoc.
    + done.
    + done.
    + by rewrite treeEntry_app, E1.
    + done.
    + rewrite Hlen. by rewrite <- !app_assoc.
Qed.

(** C8: when the parent commit's tree holds, at a proper prefix of the cleaned
    target path, an entry that is not a directory, the availability check
    of that path fails with [Conflict], and so does the Create action. *)
Theorem create_below_non_directory_conflicts
    s shared action commit (root : Tree) (k : nat) (t : Tree) :
  let filePath := CleanUploadFileName (Path action) in
  let parts := gostd.Split filePath "/" in
  (∀ p, getTreeNode (sha.String (commitSHA commit)) p (store shared)
        = treeNodeAt root p) →
  (0 < k < length parts)%nat →
  forallb normalSegment (take k parts) = true →
  treeEntry root (take k parts) = Some t →
  treeMode t ≠ TreeNodeModeTree →
  (∀ isNewFile,
     ∃ e, (checkPathAvailability shared commit filePath isNewFile).1 = Some e
          ∧ errors.AsStatus e = errors.StatusConflict)
  ∧ (Action action = CreateAction →
     ∃ e, (processAction s shared action commit).1 = Some e
          ∧ errors.AsStatus e = errors.StatusConflict).
Proof.
  intros filePath parts Hstore Hk Hn Ht Hmode.
  assert (∀ isNewFile,
            ∃ e, (checkPathAvailability shared commit filePath isNewFile).1 = Some e
                 ∧ errors.AsStatus e = errors.StatusConflict) as Hcheck.
  { intros isNewFile. unfold checkPathAvailability. fold parts.
    assert (take k parts ≠ []) as Htake.
    { intros E. apply (f_equal length) in E. rewrite length_take in E. simpl in E. lia. }
    assert (drop k parts ≠ []) as Hdrop.
    { intros E. apply (f_equal length) in E. rewrite length_drop in E. simpl in E. lia. }
    pose proof (checkPathLoop_conflict commit filePath isNewFile root (length parts) t
                  (take k parts) [] (drop k parts) shared Hstore Hn Htake Hdrop Ht Hmode)
      as Hloop.
    rewrite take_drop in Hloop. exact (Hloop eq_refl). }
  split; [done|].
  intros Hcreate.
  destruct (Hcheck true) as (e & He & Hs). exists e. split; [|done].
  unfold processAction. fold filePath.
  assert (filePath ≠ EmptyString) as Hp.
  { intros E. subst parts. rewrite E in Hk. simpl in Hk. lia. }
  rewrite bool_decide_eq_false_2 by done. rewrite Hcreate. simpl.
  unfold createFile.
  destruct (checkPathAvailability shared commit filePath true) as [r repo].
  simpl in He. by subst r.
Qed.

End CommitBuilderFacts.

(** *** The commit builder on the sample repository *)

Lemma processAction_ignores_unknown_action_witness :
  @git.processAction _ (sample.collaborators sample.rootTree) sample.service
    sample.staging (sample.action "RENAME" "src/main.go" [] EmptyString)
    sample.parentCommit
  = (None, sample.staging).
Proof.
  apply (@processAction_ignores_unknown_action _ (sample.collaborators sample.rootTree));
    [discriminate..|].
  vm_compute. discriminate.
Defined.

Lemma stale_sha_is_invalid_argument_witness :
  let C := sample.collaborators sample.rootTree in
  let entry := api.mkTreeNode api.TreeNodeModeFile sample.fileOid "main.go" "src/main.go" in
  (∃ e, (@git.processAction _ C sample.service sample.staging
           (sample.action git.UpdateAction "src/main.go" [Byte.x61] "abc")
           sample.parentCommit).1 = Some e
        ∧ errors.AsStatus e = errors.StatusInvalidArgument)
  ∧ (@git.getFileEntry _ C sample.staging sample.parentCommit EmptyString "src/main.go").1
    = Ok entry.
Proof.
  intros C entry.
  destruct (@stale_sha_is_invalid_argument _ C sample.service sample.staging
              (sample.action git.UpdateAction "src/main.go" [Byte.x61] "abc")
              sample.parentCommit entry
              ltac:(vm_compute; discriminate) ltac:(vm_compute; reflexivity))
    as [Hguard Hnone].
  split; [|exact Hnone].
  destruct (Hguard ltac:(discriminate) ltac:(vm_compute; discriminate)) as [_ Hact].
  apply Hact. left. reflexivity.
Defined.

(** C7 (as stated) fails for a Move action whose payload names no valid
    destination: the entry at [src/main.go] has another SHA than the supplied
    one, and the action fails with the invalid-path error, which is not an
    [InvalidArgument], before the entry is looked up. *)
Lemma move_without_destination_counterexample :
  let C := sample.collaborators sample.rootTree in
  let action := sample.action git.MoveAction "src/main.go" [] "abc" in
  (∃ entry,
     api.getTreeNode (sha.String (api.commitSHA sample.parentCommit))
       (api.CleanUploadFileName (git.Path action)) (api.store sample.staging) = Ok entry
     ∧ git.SHA action ≠ sha.String (api.nodeSHA entry))
  ∧ @git.processAction _ C sample.service sample.staging action sample.parentCommit
    = (Some api.ErrInvalidPath, sample.staging)
  ∧ errors.AsStatus api.ErrInvalidPath ≠ errors.StatusInvalidArgument.
Proof.
  intros C action. split; [|split].
  - eexists. split; [vm_compute; reflexivity|]. vm_compute. discriminate.
  - vm_compute. reflexivity.
  - vm_compute. discriminate.
Qed.

Lemma empty_repository_rejects_non_create_witness :
  let C := sample.collaborators sample.rootTree in
  let params :=
    sample.emptyRepoParams [sample.action git.CreateAction "a.txt" [] EmptyString;
                     sample.action git.DeleteAction "b.txt" [] EmptyString] in
  ∃ e, (@git.CommitFiles _ C sample.service params
          (git.mkState sample.emptyWorld [])).1 = Err e
       ∧ errors.AsStatus e = errors.StatusPreconditionFailed.
Proof.
  intros C params.
  destruct (@empty_repository_rejects_non_create _ C sample.service params
              (git.mkState sample.emptyWorld []) sample.staging) as (_ & _ & Hcommit).
  { apply Exists_cons_tl, Exists_cons_hd. discriminate. }
  destruct (Hcommit ltac:(vm_compute; reflexivity)) as [_ Hstatus].
  refine (Hstatus (sample.mkStaging sample.rootTree ∅)
            (sample.mkStaging sample.rootTree ∅)
            [sample.action git.CreateAction "a.txt" [] EmptyString]
            (sample.action git.DeleteAction "b.txt" [] EmptyString) [] _ _ _ _ _ _ _).
  - reflexivity.
  - vm_compute. reflexivity.
  - reflexivity.
  - reflexivity.
  - reflexivity.
  - discriminate.
  - vm_compute. reflexivity.
Defined.

(** C6 (as stated) fails when a Create with an invalid path comes before the
    action that is not a Create: the repository is empty, the list holds a
    Delete, and [CommitFiles] fails with [InvalidArgument]. *)
Lemma invalid_path_before_non_create_counterexample :
  let C := sample.collaborators sample.rootTree in
  let params :=
    sample.emptyRepoParams [sample.action git.CreateAction EmptyString [] EmptyString;
                     sample.action git.DeleteAction "b.txt" [] EmptyString] in
  let st := git.mkState sample.emptyWorld [] in
  api.hasBranches
    (api.getFullPathForRepo (git.reposRoot sample.service)
       (git.RepoUID (git.writeParams params))) (git.world st) = Ok true
  ∧ (@git.prepareTreeEmptyRepo _ C sample.service sample.staging (git.Actions params)).1
    = Some (errors.InvalidArgument "invalid path" [])
  ∧ ∃ e, (@git.CommitFiles _ C sample.service params st).1 = Err e
         ∧ errors.AsStatus e = errors.StatusInvalidArgument
         ∧ errors.AsStatus e ≠ errors.StatusPreconditionFailed.
Proof.
  intros C params st. split; [|split].
  - vm_compute. reflexivity.
  - vm_compute. reflexivity.
  - vm_compute. eexists. split; [reflexivity|]. split; [reflexivity|discriminate].
Qed.

Lemma create_below_non_directory_conflicts_witness :
  let C := sample.collaborators sample.rootTree in
  ∃ e, (@git.processAction _ C sample.service sample.staging
          (sample.action git.CreateAction "dir/file" [] EmptyString)
          sample.parentCommit).1 = Some e
       ∧ errors.AsStatus e = errors.StatusConflict.
Proof.
  intros C.
  destruct (@create_below_non_directory_conflicts _ C sample.service sample.staging
              (sample.action git.CreateAction "dir/file" [] EmptyString)
              sample.parentCommit sample.rootTree 1
              (api.Leaf api.TreeNodeModeFile sample.fileOid)) as [_ Hcreate].
  - intros p. reflexivity.
  - split; [lia|]. apply Nat.ltb_lt. vm_compute. reflexivity.
  - vm_compute. reflexivity.
  - vm_compute. reflexivity.
  - discriminate.
  - apply Hcreate. reflexivity.
Defined.

(** *** More about SHA values *)

Section ShaMore.

Lemma DecodeString_length s b :
  gostd.DecodeString s = Some b → String.length s = (2 * length b)%nat.
Proof.
  revert b. induction s as [|c|c d s IH] using string_pair_ind; intros b; simpl.
  - by intros [= <-].
  - done.
  - destruct (gostd.fromHexChar c); [|done]. destruct (gostd.fromHexChar d); [|done].
    destruct (Byte.of_N _); [|done].
    destruct (gostd.DecodeString s) as [rest|]; [|done].
    intros [= <-]. simpl. rewrite (IH rest eq_refl). lia.
Qed.

Lemma EncodeToString_length b : String.length (gostd.EncodeToString b) = (2 * length b)%nat.
Proof. induction b as [|v b IH]; [done|]. simpl. rewrite IH. lia. Qed.

Lemma trimLeftSpace_spaces pre s :
  gostd.allAsciiSpace pre = true → gostd.trimLeftSpace (pre +:+ s) = gostd.trimLeftSpace s.
Proof.
  induction pre as [|c pre IH]; [done|]. cbn [gostd.allAsciiSpace].
  intros [Hc Hp]%andb_true_iff. rewrite append_cons. simpl. rewrite Hc. by apply IH.
Qed.

Lemma trimRightSpaceRev_spaces (post r : list ascii) :
  Forall (λ c, gostd.asciiSpace c = true) post →
  gostd.trimRightSpaceRev (post ++ r) = gostd.trimRightSpaceRev r.
Proof.
  induction 1 as [|c post Hc _ IH]; [done|]. simpl. by rewrite Hc.
Qed.

Lemma allAsciiSpace_Forall s :
  gostd.allAsciiSpace s = true →
  Forall (λ c, gostd.asciiSpace c = true) (list_ascii_of_string s).
Proof.
  induction s as [|c s IH]; simpl; [constructor|].
  intros [??]%andb_true_iff. constructor; auto.
Qed.

(** White space around a hex text is trimmed away. *)
Lemma TrimSpace_around_hex pre h post :
  gostd.allAsciiSpace pre = true → gostd.allAsciiSpace post = true →
  gostd.allHex h = true →
  gostd.TrimSpace (pre +:+ h +:+ post) = h.
Proof.
  intros Hpre Hpost Hh. unfold gostd.TrimSpace.
  rewrite trimLeftSpace_spaces by done.
  assert (gostd.trimRightSpace (h +:+ post) = h) as Hr.
  { unfold gostd.trimRightSpace.
    rewrite list_ascii_of_string_app, rev_app_distr.
    rewrite trimRightSpaceRev_spaces
      by (apply Forall_rev; by apply allAsciiSpace_Forall).
    apply allHex_Forall, Forall_rev in Hh.
    destruct (rev (list_ascii_of_string h)) as [|c r] eqn:E.
    - apply (f_equal (@rev ascii)) in E. rewrite rev_involutive in E.
      rewrite <- (string_of_list_ascii_of_string h). by rewrite E.
    - inversion Hh; subst. rewrite trimRightSpaceRev_hex_head by done.
      rewrite <- E, rev_involutive. apply string_of_list_ascii_of_string. }
  destruct h as [|c h].
  - change (EmptyString +:+ post) with post.
    replace post with (post +:+ EmptyString) at 1.
    + rewrite trimLeftSpace_spaces by done. done.
    + clear. induction post as [|c p IH]; [done|]. by rewrite append_cons, IH.
  - simpl in Hh. apply andb_true_iff in Hh as [Hc _].
    rewrite append_cons in *. by rewrite trimLeftSpace_hex_head.
Qed.

(** X1: text and bytes are two views of one value. [New] of a byte slice
    keeps the bytes; printing an SHA that [New] returned and parsing the
    text again, also with the newline the store prints after it, gives the
    same SHA back. *)
Theorem New_String_round_trip (value : sha.any) (v : sha.SHA) (b : list byte) :
  sha.New (sha.ABytes b) = Ok (sha.mkSHA b EmptyString)
  ∧ (sha.New value = Ok v →
     sha.New (sha.AString (sha.String v)) = Ok v
     ∧ sha.New (sha.AString (sha.String v +:+ String "010" EmptyString)) = Ok v).
Proof.
  split; [done|]. intros Hnew.
  assert (sha.str v = EmptyString) as Hstr.
  { destruct value as [h|b'| |]; simpl in Hnew; try done.
    - destruct (gostd.DecodeString _); [|done]. by injection Hnew as <-.
    - by injection Hnew as <-. }
  destruct v as [bv sv]. simpl in Hstr. subst sv.
  unfold sha.String, sha.toString. simpl.
  pose proof (EncodeToString_lowerHex bv) as Hl. apply lowerHex_allHex in Hl.
  split; unfold sha.New.
  - by rewrite TrimSpace_allHex, Decode_Encode.
  - by rewrite TrimSpace_hex_newline, Decode_Encode.
Qed.

Lemma New_String_round_trip_witness :
  sha.New (sha.AString (sha.String sample.commitA)) = Ok sample.commitA
  ∧ sha.New (sha.AString (sha.String sample.commitA +:+ String "010" EmptyString))
    = Ok sample.commitA.
Proof.
  exact (proj2 (New_String_round_trip
                  (sha.AString "1111111111111111111111111111111111111111")
                  sample.commitA []) eq_refl).
Defined.

(** X2: [New] reads hex text without regard to the white space around it
    and to the case of the digits: for a text [h] that decodes to [b], any
    ASCII white space before and after [h] gives the SHA with the bytes [b],
    whose text is lower case and two digits per byte. *)
Theorem New_ignores_space_and_case (pre h post : string) (b : list byte) :
  gostd.allAsciiSpace pre = true →
  gostd.allAsciiSpace post = true →
  gostd.DecodeString h = Some b →
  sha.New (sha.AString (pre +:+ h +:+ post)) = Ok (sha.mkSHA b EmptyString)
  ∧ gostd.lowerHex (sha.String (sha.mkSHA b EmptyString)) = true
  ∧ String.length (sha.String (sha.mkSHA b EmptyString)) = String.length h.
Proof.
  intros Hpre Hpost Hd. split; [|split].
  - unfold sha.New.
    rewrite TrimSpace_around_hex by (done || by eapply DecodeString_allHex).
    by rewrite Hd.
  - apply EncodeToString_lowerHex.
  - unfold sha.String, sha.toString. simpl.
    by rewrite EncodeToString_length, (DecodeString_length h b).
Qed.

Lemma New_ignores_space_and_case_witness :
  sha.New (sha.AString ("  " +:+ "4B825DC6" +:+ String "010" EmptyString))
  = Ok (sha.mkSHA [Byte.x4b; Byte.x82; Byte.x5d; Byte.xc6] EmptyString)
  ∧ sha.String (sha.mkSHA [Byte.x4b; Byte.x82; Byte.x5d; Byte.xc6] EmptyString)
    = "4b825dc6".
Proof.
  destruct (New_ignores_space_and_case "  " "4B825DC6" (String "010" EmptyString)
              [Byte.x4b; Byte.x82; Byte.x5d; Byte.xc6] eq_refl eq_refl eq_refl)
    as (Hnew & _ & _).
  split; [exact Hnew|reflexivity].
Defined.

(** X3: a text whose trimmed length is odd is no hex text: [New] fails on
    it, and [MustNew], which drops the error, returns the zero SHA. *)
Theorem New_odd_length_fails (arg : string) :
  Nat.odd (String.length (gostd.TrimSpace arg)) = true →
  (∃ e, sha.New (sha.AString arg) = Err e)
  ∧ sha.MustNew arg = sha.mkSHA [] EmptyString
  ∧ sha.IsZero (sha.MustNew arg) = true.
Proof.
  intros Hodd.
  assert (gostd.DecodeString (gostd.TrimSpace arg) = None) as Hd.
  { destruct (gostd.DecodeString (gostd.TrimSpace arg)) as [b|] eqn:E; [|done].
    apply DecodeString_length in E. rewrite E in Hodd.
    rewrite Nat.odd_mul in Hodd. done. }
  unfold sha.MustNew, sha.New. rewrite Hd. by eauto.
Qed.

Lemma New_odd_length_fails_witness :
  (∃ e, sha.New (sha.AString "abc") = Err e)
  ∧ sha.MustNew "abc" = sha.mkSHA [] EmptyString
  ∧ sha.IsZero (sha.MustNew "abc") = true.
Proof. exact (New_odd_length_fails "abc" eq_refl). Defined.

(** X4: an SHA that [New] built from text is zero exactly when the text is
    blank. *)
Theorem New_zero_iff_blank (arg : string) (v : sha.SHA) :
  sha.New (sha.AString arg) = Ok v →
  (sha.IsZero v = true ↔ gostd.TrimSpace arg = EmptyString).
Proof.
  unfold sha.New.
  destruct (gostd.DecodeString (gostd.TrimSpace arg)) as [b|] eqn:Hd; [|done].
  intros [= <-]. unfold sha.IsZero. simpl.
  apply DecodeString_length in Hd. rewrite bool_decide_eq_true.
  split.
  - intros Hb. rewrite Hb in Hd. by destruct (gostd.TrimSpace arg).
  - intros Ht. rewrite Ht in Hd. simpl in Hd. lia.
Qed.

Lemma New_zero_iff_blank_witness :
  sha.IsZero (sha.mkSHA [] EmptyString) = true
  ↔ gostd.TrimSpace (String "010" EmptyString) = EmptyString.
Proof.
  exact (New_zero_iff_blank (String "010" EmptyString) (sha.mkSHA [] EmptyString) eq_refl).
Defined.

(** X5: on SHA values [Equal] is symmetric and transitive, it looks at the
    bytes only (not at the cached text), and comparing with an SHA is
    comparing with its bytes; a value of another type is never equal. *)
Theorem Equal_is_equivalence_on_bytes (s t u : sha.SHA) :
  sha.Equal s (sha.ASHA t) = sha.Equal t (sha.ASHA s)
  ∧ (sha.Equal s (sha.ASHA t) = true → sha.Equal t (sha.ASHA u) = true →
     sha.Equal s (sha.ASHA u) = true)
  ∧ sha.Equal s (sha.ASHA t) = bool_decide (sha.bytes s = sha.bytes t)
  ∧ sha.Equal s (sha.ASHA t) = sha.Equal s (sha.ABytes (sha.bytes t))
  ∧ sha.Equal s sha.AOther = false.
Proof.
  unfold sha.Equal, sha.bytesEqual. repeat split.
  - apply bool_decide_ext. split; congruence.
  - rewrite !bool_decide_eq_true. congruence.
  - apply bool_decide_ext. split; congruence.
Qed.

(** X6: two SHAs that [New] returned are [Equal] exactly when their texts
    are the same. *)
Theorem Equal_iff_same_text (x y : sha.any) (s t : sha.SHA) :
  sha.New x = Ok s → sha.New y = Ok t →
  (sha.Equal s (sha.ASHA t) = true ↔ sha.String s = sha.String t).
Proof.
  intros Hs Ht.
  assert (∀ z v, sha.New z = Ok v → sha.String v = gostd.EncodeToString (sha.bytes v))
    as Htext.
  { intros z v Hn. destruct z as [h|b'| |]; simpl in Hn; try done.
    - destruct (gostd.DecodeString _); [|done]. by injection Hn as <-.
    - by injection Hn as <-. }
  rewrite (Htext x s Hs), (Htext y t Ht).
  unfold sha.Equal, sha.bytesEqual. rewrite bool_decide_eq_true. split.
  - by intros ->.
  - intros He. apply (f_equal gostd.DecodeString) in He.
    rewrite !Decode_Encode in He. by injection He as ->.
Qed.

Lemma Equal_iff_same_text_witness :
  sha.Equal sample.commitA (sha.ASHA sample.commitA) = true
  ↔ sha.String sample.commitA = sha.String sample.commitA.
Proof.
  exact (Equal_iff_same_text
           (sha.AString "1111111111111111111111111111111111111111")
           (sha.ABytes (sha.bytes sample.commitA))
           sample.commitA sample.commitA eq_refl eq_refl).
Defined.

End ShaMore.

(** *** More about the reference store *)

Section RefStoreMore.

Import api.

Implicit Types (g : Git) (w : World) (rs : gmap string (list byte)).

Lemma objectName_parseOid v : objectName v → parseOid (sha.String v) = Some (sha.bytes v).
Proof.
  intros [Hs Hl]. unfold parseOid, sha.String, sha.toString.
  rewrite Hs, bool_decide_eq_true_2, Decode_Encode by done.
  by rewrite bool_decide_eq_true_2.
Qed.

Lemma objectName_not_empty v : objectName v → sha.IsEmpty v = false.
Proof.
  intros [_ Hl]. unfold sha.IsEmpty, sha.IsZero. apply bool_decide_eq_false. lia.
Qed.

Lemma objectName_isZeroOid v : objectName v → isZeroOid (sha.bytes v) = sha.IsNil v.
Proof.
  intros [_ Hl]. unfold sha.IsNil, sha.Equal, sha.bytesEqual.
  destruct (isZeroOid (sha.bytes v)) eqn:Hz.
  - symmetry. apply bool_decide_eq_true. symmetry. by apply isZeroOid_Nil.
  - symmetry. apply bool_decide_eq_false. intros E. rewrite <- E in Hz. done.
Qed.

Lemma casCheck_expected rs ref v :
  objectName v → (casCheck rs ref (sha.bytes v) = None ↔ rs !! ref = expected v).
Proof.
  intros Hv. unfold casCheck, expected. rewrite (objectName_isZeroOid v Hv).
  destruct (rs !! ref) as [cur|], (sha.IsNil v); try case_bool_decide;
    split; intros; try done; congruence.
Qed.

(** What [update-ref] does for values that are object names. *)
Lemma git_update_ref_objectName repoPath ref (oldValue newValue : sha.SHA) rs :
  objectName oldValue → objectName newValue →
  git (updateRefCommand repoPath ref oldValue newValue) rs
  = match casCheck rs ref (sha.bytes oldValue) with
    | Some e => (Err e, rs)
    | None => (Ok EmptyString, updated ref newValue rs)
    end.
Proof.
  intros Ho Hn. unfold git, updateRefCommand, updated.
  destruct (sha.IsNil newValue) eqn:HN; simpl; unfold updateRefCmd;
    rewrite (objectName_parseOid oldValue Ho).
  - by destruct (casCheck rs ref (sha.bytes oldValue)).
  - rewrite (objectName_parseOid newValue Hn).
    rewrite (objectName_isZeroOid newValue Hn), HN.
    by destruct (casCheck rs ref (sha.bytes oldValue)).
Qed.

(** [update-ref] leaves every other ref alone. *)
Lemma git_update_ref_frame repoPath ref (oldValue newValue : sha.SHA) rs other :
  other ≠ ref →
  (git (updateRefCommand repoPath ref oldValue newValue) rs).2 !! other = rs !! other.
Proof.
  intros Hne. unfold git, updateRefCommand.
  destruct (sha.IsNil newValue); simpl; unfold updateRefCmd;
    destruct (parseOid (sha.String oldValue)); simpl; try done.
  - destruct (casCheck rs ref l); simpl; [done|]. by apply lookup_delete_ne.
  - destruct (parseOid (sha.String newValue)); simpl; [|done].
    destruct (casCheck rs ref l); simpl; [done|].
    destruct (isZeroOid l0); [by apply lookup_delete_ne|by apply lookup_insert_ne].
Qed.

(** The refs after [updateRefWithHooks] are the refs before, or what the
    [update-ref] command made of them. *)
Lemma updateRefWithHooks_refs g envVars repoPath ref (oldValue newValue : sha.SHA) w :
  let w' := (updateRefWithHooks g envVars repoPath ref oldValue newValue w).2 in
  refs w' = refs w
  ∨ refs w' = (git (updateRefCommand repoPath ref oldValue newValue) (refs w)).2.
Proof.
  unfold updateRefWithHooks.
  case_bool_decide; [by left|].
  destruct (sha.IsEmpty oldValue); [by left|].
  destruct (sha.IsEmpty newValue); [by left|].
  destruct (sha.IsNil oldValue && sha.IsNil newValue); [by left|].
  destruct (githookFactory g envVars) as [client|]; [|by left].
  destruct (hook.PreReceive client _) as [out|]; [|by left].
  destruct (hook.Error out); [by left|].
  unfold Run. simpl.
  destruct (git (updateRefCommand repoPath ref oldValue newValue) (refs w))
    as [[o|e] rs'] eqn:Eg; simpl.
  - right. destruct (hook.PostReceive client _) as [out2|]; [|done].
    by destruct (hook.Error out2).
  - left. unfold git, updateRefCommand in Eg.
    destruct (sha.IsNil newValue); simpl in Eg; unfold updateRefCmd in Eg;
      destruct (parseOid (sha.String oldValue)); simpl in Eg; try congruence.
    + destruct (casCheck (refs w) ref l); simpl in Eg; congruence.
    + destruct (parseOid (sha.String newValue)); simpl in Eg; [|congruence].
      destruct (casCheck (refs w) ref l); simpl in Eg; congruence.
Qed.

(** What [updateRefWithHooks] does when nothing stands in the way. *)
Lemma updateRefWithHooks_success
    g envVars repoPath ref (oldValue newValue : sha.SHA) w client :
  repoPath ≠ EmptyString →
  objectName oldValue → objectName newValue →
  sha.IsNil oldValue && sha.IsNil newValue = false →
  githookFactory g envVars = Ok client →
  hook.failed (hook.PreReceive client (intent ref oldValue newValue)) = false →
  hook.failed (hook.PostReceive client (intent ref oldValue newValue)) = false →
  refs w !! ref = expected oldValue →
  updateRefWithHooks g envVars repoPath ref oldValue newValue w
  = (None,
     mkWorld (updated ref newValue (refs w))
       (events w ++ [EvNewClient envVars;
                     EvPreReceive (intent ref oldValue newValue);
                     EvGit (updateRefCommand repoPath ref oldValue newValue);
                     EvPostReceive (intent ref oldValue newValue)])).
Proof.
  intros Hp Ho Hn Hnil Hf Hpre Hpost Hcur.
  unfold updateRefWithHooks.
  rewrite bool_decide_eq_false_2 by done.
  rewrite (objectName_not_empty _ Ho), (objectName_not_empty _ Hn), Hnil, Hf.
  destruct (hook.PreReceive client (intent ref oldValue newValue)) as [o|]; [|done].
  simpl in Hpre. destruct (hook.Error o) as [msg|].
  { apply bool_decide_eq_false in Hpre. destruct Hpre. by eauto. }
  unfold Run. simpl. rewrite git_update_ref_objectName by done.
  apply casCheck_expected in Hcur; [|done]. rewrite Hcur.
  destruct (hook.PostReceive client (intent ref oldValue newValue)) as [o2|]; [|done].
  simpl in Hpost. destruct (hook.Error o2) as [msg|].
  { apply bool_decide_eq_false in Hpost. destruct Hpost. by eauto. }
  unfold record. simpl. by rewrite <- !app_assoc.
Qed.



Lemma objectName_commitB : objectName sample.commitB.
Proof. split; reflexivity. Qed.


Lemma Error_exitError_not_missing_dir stdErr :
  errors.Error (exitError stdErr) ≠ "no such file or directory".
Proof. unfold exitError, errors.Error. by rewrite append_cons. Qed.

Lemma processGitErrorf_already_exists ref format args :
  errors.AsStatus
    (processGitErrorf
       (exitError ("fatal: cannot lock ref '" +:+ ref +:+ "': reference already exists"))
       format args)
  = errors.StatusConflict.
Proof.
  unfold processGitErrorf.
  rewrite bool_decide_eq_false_2 by apply Error_exitError_not_missing_dir.
  unfold exitError, errors.Error.
  rewrite (Contains_app_r "exit status 128"); [done|].
  apply (Contains_app_r ": "). apply (Contains_app_r "fatal: cannot lock ref '").
  by apply Contains_app_r.
Qed.

(** X8: a compare-and-swap that does not find what it expects changes
    nothing. With accepting hooks and object names for both values, when the
    ref is not at the old value, [updateRefWithHooks] returns an error, the
    refs are what they were, and post-receive is not called; creating a ref
    that exists already is reported as a [Conflict]. *)
Theorem updateRefWithHooks_stale_old_value
    g envVars repoPath ref (oldValue newValue : sha.SHA) w client :
  repoPath ≠ EmptyString →
  objectName oldValue → objectName newValue →
  sha.IsNil oldValue && sha.IsNil newValue = false →
  githookFactory g envVars = Ok client →
  hook.failed (hook.PreReceive client (intent ref oldValue newValue)) = false →
  refs w !! ref ≠ expected oldValue →
  ∃ e,
    updateRefWithHooks g envVars repoPath ref oldValue newValue w
    = (Some e,
       mkWorld (refs w)
         (events w ++ [EvNewClient envVars;
                       EvPreReceive (intent ref oldValue newValue);
                       EvGit (updateRefCommand repoPath ref oldValue newValue)]))
    ∧ (sha.IsNil oldValue = true → errors.AsStatus e = errors.StatusConflict).
Proof.
  intros Hp Ho Hn Hnil Hf Hpre Hcur.
  unfold updateRefWithHooks.
  rewrite bool_decide_eq_false_2 by done.
  rewrite (objectName_not_empty _ Ho), (objectName_not_empty _ Hn), Hnil, Hf.
  destruct (hook.PreReceive client (intent ref oldValue newValue)) as [o|]; [|done].
  simpl in Hpre. destruct (hook.Error o) as [msg|].
  { apply bool_decide_eq_false in Hpre. destruct Hpre. by eauto. }
  unfold Run. simpl. rewrite git_update_ref_objectName by done.
  destruct (casCheck (refs w) ref (sha.bytes oldValue)) as [e|] eqn:Hc.
  2:{ apply casCheck_expected in Hc; done. }
  eexists. split.
  - unfold record. simpl. by rewrite <- !app_assoc.
  - intros HN. unfold casCheck in Hc.
    rewrite (objectName_isZeroOid _ Ho), HN in Hc.
    unfold expected in Hcur. rewrite HN in Hcur.
    destruct (refs w !! ref) as [cur|]; [|done].
    injection Hc as <-. apply processGitErrorf_already_exists.
Qed.

Lemma updateRefWithHooks_stale_old_value_witness :
  let g := sample.gitWith sample.accept sample.accept in
  ∃ e,
    (updateRefWithHooks g [] sample.repoPath sample.mainRef
       sha.Nil sample.commitB sample.world).1 = Some e
    ∧ errors.AsStatus e = errors.StatusConflict.
Proof.
  intros g.
  destruct (updateRefWithHooks_stale_old_value g [] sample.repoPath sample.mainRef
              sha.Nil sample.commitB sample.world
              (hook.mkClient sample.accept sample.accept)
              ltac:(discriminate) ltac:(split; reflexivity) objectName_commitB
              eq_refl eq_refl eq_refl ltac:(vm_compute; discriminate))
    as (e & He & Hs).
  exists e. split; [by rewrite He|]. apply Hs. reflexivity.
Defined.

(** [updateRefWithHooks] touches no ref but the one it is called for. *)
Lemma updateRefWithHooks_frame g envVars repoPath ref (oldValue newValue : sha.SHA) w other :
  other ≠ ref →
  refs (updateRefWithHooks g envVars repoPath ref oldValue newValue w).2 !! other
  = refs w !! other.
Proof.
  intros Hne.
  destruct (updateRefWithHooks_refs g envVars repoPath ref oldValue newValue w)
    as [-> | ->]; [done|]. by apply git_update_ref_frame.
Qed.

(** Neither does [UpdateRef]. *)
Lemma UpdateRef_frame g envVars repoPath ref (oldValue newValue : sha.SHA) w other :
  other ≠ ref →
  refs (UpdateRef g envVars repoPath ref oldValue newValue w).2 !! other
  = refs w !! other.
Proof.
  intros Hne.
  unfold UpdateRef. case_bool_decide; [done|].
  set (n := if sha.IsEmpty newValue then sha.Nil else newValue).
  assert (∀ o w0, refs w0 = refs w →
            refs (match updateRefWithHooks g envVars repoPath ref o n w0 with
                  | (Some e, w1) =>
                      (Some (errors.Errorfw "failed to update reference with hooks: %w"
                               [] e), w1)
                  | (None, w1) => (None, w1)
                  end).2 !! other = refs w !! other) as Hdel.
  { intros o w0 Hw.
    rewrite <- Hw, <- (updateRefWithHooks_frame g envVars repoPath ref o n w0 other Hne).
    by destruct (updateRefWithHooks g envVars repoPath ref o n w0) as [[e|] w1]. }
  destruct (sha.IsEmpty oldValue); [|by apply Hdel].
  pose proof (GetRef_refs g repoPath ref w) as Hget.
  destruct (GetRef g repoPath ref w) as [[val|e] w1]; simpl in Hget.
  - by apply Hdel.
  - destruct (errors.IsNotFound (Some e)).
    + destruct (sha.IsNil n); [simpl; by rewrite Hget|by apply Hdel].
    + simpl. by rewrite Hget.
Qed.

(** X9: [updateRefWithHooks] and [UpdateRef] touch no ref but the one they
    are called for. *)
Theorem update_leaves_other_refs
    g envVars repoPath ref (oldValue newValue : sha.SHA) w other :
  other ≠ ref →
  refs (updateRefWithHooks g envVars repoPath ref oldValue newValue w).2 !! other
  = refs w !! other
  ∧ refs (UpdateRef g envVars repoPath ref oldValue newValue w).2 !! other
    = refs w !! other.
Proof.
  intros Hne. split; [by apply updateRefWithHooks_frame|by apply UpdateRef_frame].
Qed.

Lemma update_leaves_other_refs_witness :
  let g := sample.gitWith sample.accept sample.accept in
  refs (UpdateRef g [] sample.repoPath "refs/heads/dev" sha.Empty sample.commitB
          sample.world).2 !! sample.mainRef
  = refs sample.world !! sample.mainRef.
Proof.
  intros g.
  exact (proj2 (update_leaves_other_refs g [] sample.repoPath "refs/heads/dev"
                  sha.Empty sample.commitB sample.world sample.mainRef
                  ltac:(discriminate))).
Defined.

(** The world a lookup leaves: the refs as they were, the command recorded. *)
Lemma GetRef_world g repoPath ref w :
  repoPath ≠ EmptyString →
  (GetRef g repoPath ref w).2
  = record (EvGit (mkCommand "show-ref" ["--verify"; "-s"] [ref] repoPath)) w.
Proof.
  intros Hp. unfold GetRef. rewrite bool_decide_eq_false_2 by done.
  unfold Run. rewrite git_show_ref.
  destruct (showRef (refs w) ref) as [out|e]; [done|].
  by destruct (_ && _).
Qed.

(** X10: [GetRef] reads the store and nothing else. For a repository path
    that is not empty, a ref the store holds is answered with its object, a
    ref it does not hold with [NotFound]; either way the refs stay as they
    are and the trace grows by the one lookup command. *)
Theorem GetRef_reads_the_store g repoPath ref w :
  repoPath ≠ EmptyString →
  match refs w !! ref with
  | Some oid => (GetRef g repoPath ref w).1 = Ok (sha.mkSHA oid EmptyString)
  | None =>
      ∃ e, (GetRef g repoPath ref w).1 = Err e
           ∧ errors.AsStatus e = errors.StatusNotFound
  end
  ∧ refs (GetRef g repoPath ref w).2 = refs w
  ∧ events (GetRef g repoPath ref w).2
    = events w ++ [EvGit (mkCommand "show-ref" ["--verify"; "-s"] [ref] repoPath)].
Proof.
  intros Hp. split; [|split].
  - destruct (refs w !! ref) as [oid|] eqn:Hr.
    + by apply GetRef_present.
    + destruct (GetRef_absent g repoPath ref w Hp Hr) as (e & He & Hnf).
      exists e. split; [done|]. simpl in Hnf. by apply bool_decide_eq_true in Hnf.
  - apply GetRef_refs.
  - by rewrite GetRef_world.
Qed.

Lemma GetRef_reads_the_store_witness :
  let g := sample.gitWith sample.accept sample.accept in
  (GetRef g sample.repoPath sample.mainRef sample.world).1 = Ok sample.commitA
  ∧ ∃ e, (GetRef g sample.repoPath sample.mainRef sample.emptyWorld).1 = Err e
         ∧ errors.AsStatus e = errors.StatusNotFound.
Proof.
  intros g. split.
  - exact (proj1 (GetRef_reads_the_store g sample.repoPath sample.mainRef sample.world
                    ltac:(discriminate))).
  - exact (proj1 (GetRef_reads_the_store g sample.repoPath sample.mainRef
                    sample.emptyWorld ltac:(discriminate))).
Defined.

Lemma objectName_Nil : objectName sha.Nil.
Proof. split; reflexivity. Qed.



(** X12: deleting a ref. With accepting hooks, [UpdateRef] with neither an
    old nor a new value, on a ref the store holds, returns nil and removes
    the ref, so that [GetRef] reports [NotFound] afterwards. *)
Theorem UpdateRef_deletes g envVars repoPath ref (cur : list byte) w client :
  let current := sha.mkSHA cur EmptyString in
  repoPath ≠ EmptyString →
  length cur = 20%nat →
  sha.IsNil current = false →
  githookFactory g envVars = Ok client →
  hook.failed (hook.PreReceive client (intent ref current sha.Nil)) = false →
  hook.failed (hook.PostReceive client (intent ref current sha.Nil)) = false →
  refs w !! ref = Some cur →
  let '(r, w') := UpdateRef g envVars repoPath ref sha.Empty sha.Empty w in
  r = None
  ∧ refs w' = delete ref (refs w)
  ∧ ∃ e, (GetRef g repoPath ref w').1 = Err e
         ∧ errors.AsStatus e = errors.StatusNotFound.
Proof.
  intros current Hp Hl HN Hf Hpre Hpost Hr.
  pose proof (GetRef_present g repoPath ref w cur Hp Hr) as Hget.
  pose proof (GetRef_world g repoPath ref w Hp) as Hw.
  assert (objectName current) as Hc by (by split).
  unfold UpdateRef. rewrite bool_decide_eq_false_2 by done.
  change (sha.IsEmpty sha.Empty) with true. cbv iota.
  destruct (GetRef g repoPath ref w) as [r1 w1]. simpl in Hget, Hw. subst r1 w1.
  assert (sha.IsNil current && sha.IsNil sha.Nil = false) as Hnil by (by rewrite HN).
  assert (refs (record (EvGit (mkCommand "show-ref" ["--verify"; "-s"] [ref] repoPath)) w)
            !! ref = expected current) as Hexp.
  { simpl. unfold expected. by rewrite HN. }
  fold current.
  rewrite (updateRefWithHooks_success g envVars repoPath ref current sha.Nil _ client
             Hp Hc objectName_Nil Hnil Hf Hpre Hpost Hexp).
  split; [done|]. unfold updated.
  change (sha.IsNil sha.Nil) with true. cbv iota. simpl. split; [done|].
  match goal with
  | |- context [GetRef g repoPath ref ?w2] =>
      destruct (GetRef_absent g repoPath ref w2 Hp) as (e & He & Hnf)
  end.
  { simpl. apply lookup_delete_eq. }
  exists e. split; [done|]. simpl in Hnf. by apply bool_decide_eq_true in Hnf.
Qed.

Lemma UpdateRef_deletes_witness :
  let g := sample.gitWith sample.accept sample.accept in
  let '(r, w') :=
    UpdateRef g [] sample.repoPath sample.mainRef sha.Empty sha.Empty sample.world in
  r = None
  ∧ refs w' = delete sample.mainRef (refs sample.world)
  ∧ ∃ e, (GetRef g sample.repoPath sample.mainRef w').1 = Err e
         ∧ errors.AsStatus e = errors.StatusNotFound.
Proof.
  intros g.
  exact (UpdateRef_deletes g [] sample.repoPath sample.mainRef
           (sha.bytes sample.commitA) sample.world
           (hook.mkClient sample.accept sample.accept)
           ltac:(discriminate) eq_refl eq_refl eq_refl eq_refl eq_refl
           ltac:(vm_compute; reflexivity)).
Defined.






End RefStoreMore.

(** *** More about the reference walker *)

Section WalkMore.

Import api.

Context {H SortOrder : Type}.
Variable mapToReferenceSortingArgument : GitReferenceField → SortOrder → string.
Variable formatFlag : list string → string.
Variable mapRawRef : RawRef → result WalkReferencesEntry.
Variable forEachRef : Command → gmap string (list byte) → list RawRef * option error.

Implicit Types (instructor : @WalkReferencesInstructor H)
  (handler : @WalkReferencesHandler H) (st : @Walk H)
  (opts : @WalkReferencesOptions H SortOrder).

(** What the loop has read and delivered when it is left. *)
Lemma walkLoop_reads n instructor handler st :
  let st' := (walkLoop mapRawRef n instructor handler st).2 in
  ∃ k hs,
    (k ≤ n)%nat
    ∧ pending (parser st') = drop k (pending (parser st))
    ∧ failure (parser st') = failure (parser st)
    ∧ handled st' = handled st ++ hs
    ∧ sublist hs (omap (mapped mapRawRef) (take k (pending (parser st)))).
Proof.
  revert st. induction n as [|n IH]; intros st; simpl.
  { exists 0%nat, []. rewrite drop_0, app_nil_r. repeat split; try done. }
  unfold Next.
  destruct (pending (parser st)) as [|raw rest] eqn:Ep; simpl.
  { exists 0%nat, []. rewrite app_nil_r. repeat split; try done. lia. }
  set (P := λ st' : @Walk H,
    ∃ k hs,
      (k ≤ Datatypes.S n)%nat
      ∧ pending (parser st') = drop k (raw :: rest)
      ∧ failure (parser st') = failure (parser st)
      ∧ handled st' = handled st ++ hs
      ∧ sublist hs (omap (mapped mapRawRef) (take k (raw :: rest)))).
  assert (∀ st' hs0,
    pending (parser st') = rest →
    failure (parser st') = failure (parser st) →
    handled st' = handled st ++ hs0 →
    sublist hs0 (omap (mapped mapRawRef) [raw]) → P st') as Hstop.
  { intros st' hs0 Hp Hf Hh Hs. exists 1%nat, hs0.
    change (drop 1 (raw :: rest)) with rest.
    change (take 1 (raw :: rest)) with [raw].
    repeat split; try done. lia. }
  assert (∀ st1 hs0,
    pending (parser st1) = rest →
    failure (parser st1) = failure (parser st) →
    handled st1 = handled st ++ hs0 →
    sublist hs0 (omap (mapped mapRawRef) [raw]) →
    P (walkLoop mapRawRef n instructor handler st1).2) as Hcont.
  { intros st1 hs0 Hp1 Hf1 Hh1 Hs.
    destruct (IH st1) as (k & hs & Hk & Hp & Hf & Hh & Hsub).
    exists (Datatypes.S k), (hs0 ++ hs).
    split; [lia|]. split; [by rewrite Hp, Hp1|]. split; [by rewrite Hf|]. split.
    - rewrite Hh, Hh1. by rewrite app_assoc.
    - change (take (Datatypes.S k) (raw :: rest)) with ([raw] ++ take k rest).
      rewrite omap_app. apply sublist_app; [done|]. by rewrite <- Hp1. }
  change (P (match mapRawRef raw with
             | Ok ref =>
                 let '(instruction, h) := instructor ref (caller st) in
                 match instruction with
                 | Ok WalkInstructionStop =>
                     (None, mkWalk (mkParser rest (failure (parser st)) (err (parser st)))
                              h (handled st))
                 | Ok WalkInstructionHandle =>
                     let '(e, h0) := handler ref h in
                     match e with
                     | Some e0 =>
                         (Some (errors.Errorfw "error handling reference: %w" [] e0),
                          mkWalk (mkParser rest (failure (parser st)) (err (parser st)))
                            h0 (handled st ++ [ref]))
                     | None =>
                         walkLoop mapRawRef n instructor handler
                           (mkWalk (mkParser rest (failure (parser st)) (err (parser st)))
                              h0 (handled st ++ [ref]))
                     end
                 | Ok WalkInstructionSkip =>
                     walkLoop mapRawRef n instructor handler
                       (mkWalk (mkParser rest (failure (parser st)) (err (parser st)))
                          h (handled st))
                 | Err e =>
                     (Some (errors.Errorfw "error getting instruction: %w" [] e),
                      mkWalk (mkParser rest (failure (parser st)) (err (parser st)))
                        h (handled st))
                 end
             | Err e =>
                 (Some e, mkWalk (mkParser rest (failure (parser st)) (err (parser st)))
                            (caller st) (handled st))
             end).2).
  destruct (mapRawRef raw) as [ref|e] eqn:Em.
  { destruct (instructor ref (caller st)) as [[[]|e] h1].
    - apply (Hstop _ []); simpl; try done; [by rewrite app_nil_r|apply sublist_nil_l].
    - assert (sublist [ref] (omap (mapped mapRawRef) [raw])) as Hs.
      { simpl. unfold mapped. by rewrite Em. }
      destruct (handler ref h1) as [[e|] h2].
      + by apply (Hstop _ [ref]).
      + by apply (Hcont _ [ref]).
    - apply (Hcont _ []); simpl; try done; [by rewrite app_nil_r|apply sublist_nil_l].
    - apply (Hstop _ []); simpl; try done; [by rewrite app_nil_r|apply sublist_nil_l]. }
  apply (Hstop _ []); simpl; try done; [by rewrite app_nil_r|apply sublist_nil_l].
Qed.

(** X14: the walk reads at most [MaxWalkDistance] records from the stream,
    whether they are handled or skipped, and the handler gets a record that
    was read at most once, in the order of the stream. *)
Theorem walk_reads_in_order p handler opts h :
  let st' := (walkReferenceParser mapRawRef p handler opts h).2 in
  ∃ k,
    (k ≤ Z.to_nat (MaxWalkDistance opts))%nat
    ∧ pending (parser st') = drop k (pending p)
    ∧ sublist (handled st') (omap (mapped mapRawRef) (take k (pending p))).
Proof.
  unfold walkReferenceParser.
  destruct (walkLoop_reads (Z.to_nat (MaxWalkDistance opts))
              (default DefaultInstructor (Instructor opts)) handler (mkWalk p h []))
    as (k & hs & Hk & Hp & _ & Hh & Hs).
  destruct (walkLoop _ _ _ _ _) as [[e|] st]; simpl in *.
  - exists k. rewrite Hh. done.
  - exists k. destruct (err (parser st)); simpl; rewrite Hh; done.
Qed.

(** A walk where every record maps, every entry is to be handled and the
    handler raises no error. *)
Lemma walkLoop_all n instructor handler st :
  Forall (λ raw, is_Some (mapped mapRawRef raw)) (pending (parser st)) →
  (∀ ref h, (instructor ref h).1 = Ok WalkInstructionHandle) →
  (∀ ref h, (handler ref h).1 = None) →
  (length (pending (parser st)) < n)%nat →
  let r := walkLoop mapRawRef n instructor handler st in
  r.1 = None
  ∧ handled r.2 = handled st ++ omap (mapped mapRawRef) (pending (parser st))
  ∧ pending (parser r.2) = []
  ∧ err (parser r.2) = failure (parser st).
Proof.
  intros Hmap Hi Hh. revert st Hmap.
  induction n as [|n IH]; intros st Hmap Hlen; [lia|]. simpl. unfold Next.
  destruct (pending (parser st)) as [|raw rest] eqn:Ep; simpl.
  { by rewrite app_nil_r. }
  inversion Hmap as [|? ? [ref Hr] Hrest]; subst.
  unfold mapped in Hr. destruct (mapRawRef raw) as [ref'|] eqn:Em; [|done].
  injection Hr as ->.
  pose proof (Hi ref (caller st)) as Hi1.
  destruct (instructor ref (caller st)) as [i h1]. simpl in Hi1. subst i. simpl.
  pose proof (Hh ref h1) as Hh1.
  destruct (handler ref h1) as [e h2]. simpl in Hh1. subst e.
  destruct (IH (mkWalk (mkParser rest (failure (parser st)) (err (parser st))) h2
                  (handled st ++ [ref]))) as (H1 & H2 & H3 & H4).
  - done.
  - simpl in *. lia.
  - split; [done|]. split; [|done]. rewrite H2. simpl.
    unfold mapped at 2. rewrite Em. by rewrite <- app_assoc.
Qed.


(** X16: a distance of zero or less walks all references. [WalkReferences]
    then asks the store for [MaxInt32] records, the largest count there is;
    with default options, a handler that raises no error and a listing whose
    records all map, the handler is invoked with every entry of the listing,
    in order. *)
Theorem WalkReferences_unbounded g repoPath handler opts h w records failure :
  repoPath ≠ EmptyString →
  (MaxWalkDistance opts <= 0)%Z →
  Instructor opts = None →
  (∀ cmd, forEachRef cmd (refs w) = (records, failure)) →
  Forall (λ raw, is_Some (mapped mapRawRef raw)) records →
  (∀ ref h, (handler ref h).1 = None) →
  (Z.of_nat (length records) < MaxInt32)%Z →
  let r := WalkReferences mapToReferenceSortingArgument formatFlag mapRawRef
             forEachRef g repoPath handler opts h w in
  handled r.1.2 = omap (mapped mapRawRef) records
  ∧ ∃ cmd, events r.2 = events w ++ [EvGit cmd]
           ∧ name cmd = "for-each-ref"
           ∧ flags cmd !! 5%nat = Some "2147483647".
Proof.
  intros Hp Hmax Hinstr Hlist Hmap Hh Hlen. unfold WalkReferences.
  rewrite bool_decide_eq_false_2 by done.
  assert ((MaxWalkDistance opts <=? 0)%Z = true) as -> by (by apply Z.leb_le).
  cbv zeta. cbn [MaxWalkDistance Instructor Patterns Fields Sort Order].
  rewrite Hlist, Hinstr.
  rewrite take_ge by (unfold MaxInt32 in *; lia).
  unfold walkReferenceParser.
  cbn [MaxWalkDistance Instructor Patterns Fields Sort Order default].
  destruct (walkLoop_all (Z.to_nat MaxInt32) (id DefaultInstructor) handler
              (mkWalk (mkParser records failure None) h [])) as (H1 & H2 & _ & H4);
    [done|done|done|cbn [parser pending]; unfold MaxInt32 in *; lia|].
  destruct (walkLoop _ _ _ _ _) as [o st].
  cbn [fst snd parser pending handled api.failure] in H1, H2, H4. subst o.
  split.
  - rewrite H4. destruct failure; cbn [fst snd]; by rewrite H2.
  - eexists. split; [|split].
    + destruct (err (parser st)); reflexivity.
    + reflexivity.
    + cbn [flags lookup list_lookup]. by f_equal.
Qed.

End WalkMore.

(** The stand-in for [mapRawRef] maps a record that names a branch to itself. *)
Lemma mapRawRef_branch refname :
  sample.mapRawRef (sample.branch refname) = Ok (sample.branch refname).
Proof.
  unfold sample.mapRawRef, sample.branch.
  change api.RawRef with (gmap string string).
  by rewrite map_to_list_singleton.
Qed.

Lemma fiveBranches_mapped :
  Forall (λ raw, is_Some (api.mapped sample.mapRawRef raw)) sample.fiveBranches.
Proof.
  unfold sample.fiveBranches, api.mapped.
  repeat (apply Forall_cons; split; [rewrite mapRawRef_branch; by eexists|]).
  apply Forall_nil. done.
Qed.


Lemma WalkReferences_unbounded_witness :
  let r := api.WalkReferences (λ _ _, EmptyString) (λ _, EmptyString) sample.mapRawRef
             (λ _ _, (sample.fiveBranches, None))
             (sample.gitWith sample.accept sample.accept) sample.repoPath sample.keep
             (sample.options None 0) tt sample.emptyWorld in
  api.handled r.1.2 = omap (api.mapped sample.mapRawRef) sample.fiveBranches.
Proof.
  intros r.
  destruct (WalkReferences_unbounded (λ _ _, EmptyString) (λ _, EmptyString)
              sample.mapRawRef (λ _ _, (sample.fiveBranches, None))
              (sample.gitWith sample.accept sample.accept) sample.repoPath sample.keep
              (sample.options None 0) tt sample.emptyWorld sample.fiveBranches None
              ltac:(discriminate) ltac:(discriminate) eq_refl (λ _, eq_refl)
              fiveBranches_mapped (λ _ _, eq_refl) eq_refl)
    as [Hall _].
  exact Hall.
Defined.

(** *** More about the commit builder *)

Section CommitBuilderMore.

Import api git.

Context {S : Type} `{!Collaborators S}.

Implicit Types (s : Service) (shared repo : SharedRepo S)
  (action : CommitFileAction) (commit : Commit).

(** **** The payload of a move *)

Lemma IndexByte_absent (p : list byte) c : c ∉ p → gostd.IndexByte p c = None.
Proof.
  induction p as [|x p IH]; [done|]. intros [Hx Hp]%not_elem_of_cons. simpl.
  rewrite bool_decide_eq_false_2 by done. by rewrite IH.
Qed.

Lemma IndexByte_first (p rest : list byte) c :
  c ∉ p → gostd.IndexByte (p ++ c :: rest) c = Some (length p).
Proof.
  induction p as [|x p IH]; simpl.
  - intros _. by rewrite bool_decide_eq_true_2.
  - intros [Hx Hp]%not_elem_of_cons.
    rewrite bool_decide_eq_false_2 by done. by rewrite IH.
Qed.

(** X17: the payload of a move is cut at its first NUL byte. What comes
    before it is the new path, cleaned as an upload file name; what comes
    after it is the new content, which may be empty. A payload without a NUL
    byte is a path alone and carries no content. A path that cleans to the
    empty string is refused as invalid either way. *)
Theorem parseMovePayload_splits (p content : list byte) :
  Byte.x00 ∉ p →
  let newPath := CleanUploadFileName (string_of_list_byte p) in
  parseMovePayload (p ++ Byte.x00 :: content)
  = (if bool_decide (newPath = EmptyString) then Err ErrInvalidPath
     else Ok (newPath, Some content))
  ∧ parseMovePayload p
    = (if bool_decide (newPath = EmptyString) then Err ErrInvalidPath
       else Ok (newPath, None)).
Proof.
  intros Hp newPath. unfold parseMovePayload.
  rewrite IndexByte_first, IndexByte_absent by done.
  rewrite take_app_length.
  replace (length p + 1)%nat with (length (p ++ [Byte.x00]))
    by (rewrite length_app; simpl; lia).
  replace (p ++ Byte.x00 :: content) with ((p ++ [Byte.x00]) ++ content)
    by (by rewrite <- app_assoc).
  by rewrite drop_app_length.
Qed.

(** **** Availability of a path *)

(** The walk over the elements [todo] of a path, from the entry [cur] that
    the elements [done] before them lead to. *)
Lemma checkPathLoop_tree commit filePath isNewFile root len :
  filePath ≠ EmptyString →
  ∀ todo done cur repo,
    (∀ p, getTreeNode (sha.String (commitSHA commit)) p (store repo) = treeNodeAt root p) →
    forallb normalSegment (done ++ todo) = true →
    treeEntry root done = Some cur →
    len = length (done ++ todo) →
    let r := checkPathLoop commit filePath isNewFile len (length done) todo
               (String.concat "/" done) repo in
    (r.1 = None
     ↔ ∀ k t, (0 < k ≤ length todo)%nat →
              treeEntry cur (take k todo) = Some t →
              (k < length todo)%nat ∧ treeMode t = TreeNodeModeTree)
    ∧ (∀ e, r.1 = Some e → errors.AsStatus e = errors.StatusConflict).
Proof.
  intros Hfile. induction todo as [|seg todo IH]; intros done cur repo Hstore Hn Hcur Hlen.
  { simpl. split; [|done]. split; [|done]. intros _ k t Hk. simpl in Hk. lia. }
  assert (forallb normalSegment (done ++ [seg]) = true) as Hn1.
  { replace (done ++ seg :: todo) with ((done ++ [seg]) ++ todo) in Hn
      by (by rewrite <- app_assoc).
    rewrite forallb_app in Hn. by apply andb_true_iff in Hn as [? _]. }
  cbn [checkPathLoop]. rewrite Join_concat by done.
  unfold GetTreeNode. rewrite Hstore.
  rewrite treeNodeAt_concat by (done || by destruct done).
  rewrite treeEntry_app, Hcur. cbn [mbind option_bind].
  assert (∀ k, take (Datatypes.S k) (seg :: todo) = [seg] ++ take k todo) as Htake by done.
  destruct (treeEntry cur [seg]) as [t1|] eqn:E1.
  2:{ cbn. split; [|done]. split; [|done]. intros _ k t Hk.
      destruct k as [|k]; [lia|]. rewrite Htake, treeEntry_app, E1. done. }
  unfold IsDir, IsLink. cbn [Mode].
  destruct todo as [|seg2 todo].
  - assert ((length done <? len - 1)%nat = false) as ->.
    { apply Nat.ltb_ge. rewrite Hlen, length_app. simpl. lia. }
    assert (∀ e : error,
              errors.AsStatus e = errors.StatusConflict →
              ((Some e = None
                ↔ ∀ k t, (0 < k ≤ 1)%nat → treeEntry cur (take k [seg]) = Some t →
                         (k < 1)%nat ∧ treeMode t = TreeNodeModeTree)
               ∧ ∀ e', Some e = Some e' → errors.AsStatus e' = errors.StatusConflict))
      as Hlast.
    { intros e He. split; [|by intros e' [= <-]]. split; [done|]. intros Hall.
      destruct (Hall 1%nat t1) as [Hlt _]; [lia|done|lia]. }
    rewrite (bool_decide_eq_false_2 (filePath = EmptyString)) by done. cbn [negb orb].
    destruct (bool_decide (treeMode t1 = TreeNodeModeSymlink)); [by apply Hlast|].
    destruct (bool_decide (treeMode t1 = TreeNodeModeTree)); by apply Hlast.
  - assert ((length done <? len - 1)%nat = true) as ->.
    { apply Nat.ltb_lt. rewrite Hlen, length_app. simpl. lia. }
    case_bool_decide as Hdir; cbn [negb].
    + replace (Datatypes.S (length done)) with (length (done ++ [seg]))
        by (rewrite length_app; simpl; lia).
      destruct (IH (done ++ [seg]) t1
                  (called (CallGetTreeNode (sha.String (commitSHA commit))
                             (String.concat "/" (done ++ [seg]))) repo (store repo)))
        as [Hiff Hst].
      * done.
      * by rewrite <- app_assoc.
      * by rewrite treeEntry_app, Hcur.
      * rewrite Hlen. by rewrite <- app_assoc.
      * split; [|exact Hst]. rewrite Hiff. split.
        -- intros Hall k t Hk Ht. destruct k as [|k]; [lia|].
           rewrite Htake, treeEntry_app, E1 in Ht. cbn [mbind option_bind] in Ht.
           destruct k as [|k].
           ++ injection Ht as <-. split; [simpl; lia|done].
           ++ destruct (Hall (Datatypes.S k) t) as [? ?]; [simpl in *; lia|done|].
              split; [simpl in *; lia|done].
        -- intros Hall k t Hk Ht.
           destruct (Hall (Datatypes.S k) t) as [? ?].
           ++ simpl in *. lia.
           ++ rewrite Htake, treeEntry_app, E1. done.
           ++ split; [simpl in *; lia|done].
    + cbn. split; [|by intros e [= <-]]. split; [done|]. intros Hall.
      destruct (Hall 1%nat t1) as [_ Hm]; [simpl; lia|done|done].
Qed.

(** X18: what [checkPathAvailability] decides. For a store that answers
    from the tree of the parent commit, and a path of normal elements, the
    path is available (the check returns nil) exactly when every entry the
    tree holds along the path is a directory at a proper prefix of it: no
    file or link lies on the way, and the path itself is not taken, be it by
    a file, a link or a directory. When the path is not available the error
    is a [Conflict], for a new file and for the target of a move alike. *)
Theorem checkPathAvailability_decides repo commit root (segs : list string) isNewFile :
  (∀ p, getTreeNode (sha.String (commitSHA commit)) p (store repo) = treeNodeAt root p) →
  segs ≠ [] →
  forallb normalSegment segs = true →
  let r := checkPathAvailability repo commit (String.concat "/" segs) isNewFile in
  (r.1 = None
   ↔ ∀ k t, (0 < k ≤ length segs)%nat →
            treeEntry root (take k segs) = Some t →
            (k < length segs)%nat ∧ treeMode t = TreeNodeModeTree)
  ∧ (∀ e, r.1 = Some e → errors.AsStatus e = errors.StatusConflict).
Proof.
  intros Hstore Hne Hn. unfold checkPathAvailability.
  rewrite Split_concat by done.
  destruct (concat_not_rooted segs Hne Hn) as [Hfile _].
  exact (checkPathLoop_tree commit (String.concat "/" segs) isNewFile root (length segs)
           Hfile segs [] root repo Hstore Hn eq_refl eq_refl).
Qed.

(** **** Actions in order *)

(** X19: the actions are processed in order, each on the staging state the
    one before has left, and processing ends with the first action that
    fails: preparing the tree for [actions ++ more] is preparing it for
    [actions] and, if that went through, for [more]. This holds for a
    repository with a parent commit and for an empty one. *)
Theorem prepareTree_app s shared commit (actions more : list CommitFileAction) :
  prepareTree s shared (actions ++ more) commit
  = match prepareTree s shared actions commit with
    | (Some err, shared') => (Some err, shared')
    | (None, shared') => prepareTree s shared' more commit
    end
  ∧ prepareTreeEmptyRepo s shared (actions ++ more)
    = match prepareTreeEmptyRepo s shared actions with
      | (Some err, shared') => (Some err, shared')
      | (None, shared') => prepareTreeEmptyRepo s shared' more
      end.
Proof.
  split; revert shared; induction actions as [|a rest IH]; intros shared; simpl.
  - by destruct (prepareTree s shared more commit) as [[e|] sh].
  - destruct (processAction s shared a commit) as [[e|] sh]; [done|]. apply IH.
  - by destruct (prepareTreeEmptyRepo s shared more) as [[e|] sh].
  - destruct (negb _); [done|]. case_bool_decide; [done|].
    destruct (createFile shared None _ _ _) as [[e|] sh]; [done|]. apply IH.
Qed.

(** **** What is called on the shared repository *)

Lemma stages_refl repo : stages repo repo.
Proof. exists []. by rewrite app_nil_r. Qed.

Lemma stages_trans repo1 repo2 repo3 :
  stages repo1 repo2 → stages repo2 repo3 → stages repo1 repo3.
Proof.
  intros (t1 & E1 & F1) (t2 & E2 & F2). exists (t1 ++ t2).
  split; [by rewrite E2, E1, app_assoc|by apply Forall_app].
Qed.

Lemma stages_called c repo (st : S) : stagingCall c → stages repo (called c repo st).
Proof. intros Hc. exists [c]. split; [done|by constructor]. Qed.

Lemma GetTreeNode_stages rev p repo : stages repo (GetTreeNode rev p repo).2.
Proof. by apply stages_called. Qed.

Lemma LsFiles_stages p repo : stages repo (LsFiles p repo).2.
Proof. by apply stages_called. Qed.

Lemma WriteGitObject_stages payload repo : stages repo (WriteGitObject payload repo).2.
Proof.
  unfold WriteGitObject. destruct (writeGitObject payload (store repo)).
  by apply stages_called.
Qed.

Lemma AddObjectToIndex_stages mode h p repo : stages repo (AddObjectToIndex mode h p repo).2.
Proof.
  unfold AddObjectToIndex. destruct (addObjectToIndex mode h p (store repo)).
  by apply stages_called.
Qed.

Lemma RemoveFilesFromIndex_stages p repo : stages repo (RemoveFilesFromIndex p repo).2.
Proof.
  unfold RemoveFilesFromIndex. destruct (removeFilesFromIndex p (store repo)).
  by apply stages_called.
Qed.

Lemma checkPathLoop_stages commit filePath isNewFile len parts :
  ∀ index subTreePath repo,
    stages repo (checkPathLoop commit filePath isNewFile len index parts subTreePath repo).2.
Proof.
  induction parts as [|part rest IH]; intros index subTreePath repo; [apply stages_refl|].
  cbn [checkPathLoop].
  pose proof (GetTreeNode_stages (sha.String (commitSHA commit))
                (gostd.Join subTreePath part) repo) as Hg.
  destruct (GetTreeNode _ _ repo) as [[entry|e] repo1]; cbn [snd] in Hg.
  - pose proof (IH (Datatypes.S index) (gostd.Join subTreePath part) repo1) as Hc.
    assert (stages repo (checkPathLoop commit filePath isNewFile len (Datatypes.S index)
                           rest (gostd.Join subTreePath part) repo1).2) as Hc'
      by (by eapply stages_trans).
    repeat match goal with |- context [if ?b then _ else _] => destruct b end; done.
  - by destruct (errors.IsNotFound (Some e)).
Qed.

Lemma checkPathAvailability_stages repo commit filePath isNewFile :
  stages repo (checkPathAvailability repo commit filePath isNewFile).2.
Proof. apply checkPathLoop_stages. Qed.

Lemma getFileEntry_stages repo commit sha path :
  stages repo (getFileEntry repo commit sha path).2.
Proof.
  unfold getFileEntry.
  pose proof (GetTreeNode_stages (sha.String (commitSHA commit)) path repo) as Hg.
  destruct (GetTreeNode _ _ repo) as [[entry|e] repo1]; cbn [snd] in Hg.
  - by destruct (_ && _).
  - by destruct (errors.IsNotFound (Some e)).
Qed.

(** Writing an object and adding it to the index. *)
Lemma write_and_add_stages repo repo1 mode filePath payload wrapHash wrapAdd :
  stages repo repo1 →
  stages repo
    (let '(hash, repo2) := WriteGitObject payload repo1 in
     match hash with
     | Err err => (Some (wrapHash err), repo2)
     | Ok hash =>
         let '(e, repo3) := AddObjectToIndex mode (sha.String hash) filePath repo2 in
         match e with
         | Some err => (Some (wrapAdd err), repo3)
         | None => (None : option error, repo3)
         end
     end).2.
Proof.
  intros H1.
  pose proof (WriteGitObject_stages payload repo1) as Hw.
  destruct (WriteGitObject payload repo1) as [[hash|e] repo2]; cbn [snd] in Hw.
  - pose proof (AddObjectToIndex_stages mode (sha.String hash) filePath repo2) as Ha.
    destruct (AddObjectToIndex _ _ _ repo2) as [[e|] repo3]; cbn [snd] in *;
      eapply stages_trans; eauto using stages_trans.
  - cbn [snd]. by eapply stages_trans.
Qed.

Lemma createFile_stages repo (tip : option Commit) filePath mode payload :
  stages repo (createFile repo tip filePath mode payload).2.
Proof.
  unfold createFile.
  assert (stages repo
            (match tip with
             | Some commit => checkPathAvailability repo commit filePath true
             | None => (None, repo)
             end).2) as Hc.
  { destruct tip; [apply checkPathAvailability_stages|apply stages_refl]. }
  destruct (match tip with Some _ => _ | None => _ end) as [[e|] repo1];
    cbn [snd] in Hc; [done|].
  by apply write_and_add_stages.
Qed.

Lemma updateFile_stages repo commit filePath sha mode payload :
  stages repo (updateFile repo commit filePath sha mode payload).2.
Proof.
  unfold updateFile.
  pose proof (getFileEntry_stages repo commit sha filePath) as Hg.
  destruct (getFileEntry repo commit sha filePath) as [[entry|e] repo1];
    cbn [snd] in Hg; [|done].
  by apply write_and_add_stages.
Qed.

Lemma deleteFile_stages repo filePath : stages repo (deleteFile repo filePath).2.
Proof.
  unfold deleteFile.
  pose proof (LsFiles_stages filePath repo) as Hl.
  destruct (LsFiles filePath repo) as [[files|e] repo1]; cbn [snd] in Hl; [|done].
  destruct (negb _); [done|].
  pose proof (RemoveFilesFromIndex_stages filePath repo1) as Hr.
  destruct (RemoveFilesFromIndex filePath repo1) as [[e|] repo2]; cbn [snd] in *;
    by eapply stages_trans.
Qed.

Lemma moveFile_stages repo commit filePath sha mode payload :
  stages repo (moveFile repo commit filePath sha mode payload).2.
Proof.
  unfold moveFile.
  destruct (parseMovePayload payload) as [[newPath newContent]|e]; [|apply stages_refl].
  pose proof (getFileEntry_stages repo commit sha filePath) as Hg.
  destruct (getFileEntry repo commit sha filePath) as [[entry|e] repo1];
    cbn [snd] in Hg; [|done].
  pose proof (checkPathAvailability_stages repo1 commit newPath false) as Hc.
  destruct (checkPathAvailability repo1 commit newPath false) as [[e|] repo2];
    cbn [snd] in Hc; [by eapply stages_trans|].
  assert (stages repo repo2) as H2 by (by eapply stages_trans).
  assert (∀ fileHash fileMode repo3,
            stages repo repo3 →
            stages repo
              (let '(e, repo4) := AddObjectToIndex fileMode fileHash newPath repo3 in
               match e with
               | Some err =>
                   (Some (errors.Errorfw "moveFile: add object error: %w" [] err), repo4)
               | None =>
                   let '(e0, repo5) := RemoveFilesFromIndex filePath repo4 in
                   match e0 with
                   | Some err =>
                       (Some (errors.Errorfw "moveFile: remove object error: %w" [] err),
                        repo5)
                   | None => (None, repo5)
                   end
               end).2) as Hrest.
  { intros fileHash fileMode repo3 H3.
    pose proof (AddObjectToIndex_stages fileMode fileHash newPath repo3) as Ha.
    destruct (AddObjectToIndex _ _ _ repo3) as [[e|] repo4]; cbn [snd] in Ha;
      [by eapply stages_trans|].
    pose proof (RemoveFilesFromIndex_stages filePath repo4) as Hr.
    destruct (RemoveFilesFromIndex filePath repo4) as [[e|] repo5]; cbn [snd] in *;
      eauto using stages_trans. }
  destruct newContent as [newContent|].
  - pose proof (WriteGitObject_stages newContent repo2) as Hw.
    destruct (WriteGitObject newContent repo2) as [[hash|e] repo3]; cbn [snd] in Hw.
    + apply Hrest. by eapply stages_trans.
    + cbn [snd]. by eapply stages_trans.
  - by apply Hrest.
Qed.

Lemma processAction_stages s shared action commit :
  stages shared (processAction s shared action commit).2.
Proof.
  unfold processAction.
  repeat case_bool_decide;
    auto using stages_refl, createFile_stages, updateFile_stages, moveFile_stages,
      deleteFile_stages.
Qed.

Lemma prepareTree_stages s shared commit (actions : list CommitFileAction) :
  stages shared (prepareTree s shared actions commit).2.
Proof.
  revert shared. induction actions as [|a rest IH]; intros shared; simpl;
    [apply stages_refl|].
  pose proof (processAction_stages s shared a commit) as Hp.
  destruct (processAction s shared a commit) as [[e|] sh]; cbn [snd] in Hp; [done|].
  eapply stages_trans; [done|apply IH].
Qed.

Lemma prepareTreeEmptyRepo_stages s shared (actions : list CommitFileAction) :
  stages shared (prepareTreeEmptyRepo s shared actions).2.
Proof.
  revert shared. induction actions as [|a rest IH]; intros shared; simpl;
    [apply stages_refl|].
  destruct (negb _); [apply stages_refl|]. case_bool_decide; [apply stages_refl|].
  pose proof (createFile_stages shared None (CleanUploadFileName (Path a))
                defaultFilePermission (Payload a)) as Hc.
  destruct (createFile shared None _ _ _) as [[e|] sh]; cbn [snd] in Hc; [done|].
  eapply stages_trans; [done|apply IH].
Qed.

(** X20: preparing the tree only stages. Whatever the actions are, and
    whether they succeed or fail, [prepareTree] and [prepareTreeEmptyRepo]
    add to the calls on the shared repository nothing but lookups in the
    parent tree and the index, object writes and index changes; they write
    no tree, create no commit, move no objects and do not close it. *)
Theorem prepareTree_only_stages s shared commit (actions : list CommitFileAction) :
  (∃ tr, calls (prepareTree s shared actions commit).2 = calls shared ++ tr
         ∧ Forall stagingCall tr)
  ∧ (∃ tr, calls (prepareTreeEmptyRepo s shared actions).2 = calls shared ++ tr
           ∧ Forall stagingCall tr).
Proof.
  split; [apply prepareTree_stages|apply prepareTreeEmptyRepo_stages].
Qed.

(** **** The build in the shared repository *)

Local Ltac same_calls :=
  repeat first [rewrite <- app_assoc | rewrite <- app_comm_cons]; reflexivity.

Lemma stagingCall_not_Close (tr : list Call) : Forall stagingCall tr → CallClose ∉ tr.
Proof. intros HF Hin. rewrite Forall_forall in HF. by apply HF in Hin. Qed.

(** X21: the life of the shared repository in [CommitFiles]. When it cannot
    be created nothing is called on it. Otherwise the calls begin with
    [InitAsShared] and end with [Close], which is called exactly once, on
    every way out, failure included; and a build that returns a commit has
    set the index to the parent commit (unless the repository is empty),
    staged the actions, and then written the tree, committed it on top of
    the parent commit and moved the objects, each once and in this order. *)
Theorem buildCommit_trace s params repoPath isEmpty (tip : option Commit)
    (old : sha.SHA) author committer authorDate committerDate (log : list Call) :
  let r := buildCommit s params repoPath isEmpty tip old author committer
             authorDate committerDate log in
  match newSharedRepo (tmpDir s) (RepoUID (writeParams params)) repoPath with
  | Err _ => r.2 = log ∧ ∃ e, r.1 = Err e
  | Ok _ =>
      (∃ tr, r.2 = log ++ CallInitAsShared :: tr ++ [CallClose] ∧ CallClose ∉ tr)
      ∧ (∀ new, r.1 = Ok new →
           ∃ tr tree message,
             r.2 = log ++ CallInitAsShared
                     :: (if isEmpty then [] else [CallSetIndex (sha.String old)])
                     ++ tr
                     ++ [CallWriteTree; CallCommitTree old tree message;
                         CallMoveObjects; CallClose]
             ∧ Forall stagingCall tr)
  end.
Proof.
  intros r. subst r. unfold buildCommit.
  destruct (newSharedRepo _ _ _) as [st0|e0]; [|split; [done|by eexists]].
  unfold InitAsShared. cbn [store calls].
  destruct (initAsShared st0) as [[e|] st1].
  { cbn. split; [|done]. exists []. split; [same_calls|].
    apply not_elem_of_nil. }
  set (sh0 := called CallInitAsShared (mkSharedRepo st0 log) st1).
  (* what follows once the tree is prepared *)
  assert (∀ (pre tr : list Call) (sh : SharedRepo S),
    calls sh = log ++ CallInitAsShared :: pre ++ tr →
    Forall stagingCall tr → CallClose ∉ pre →
    let out :=
      let '(treeHash, shared) := WriteTree sh in
      match treeHash with
      | Err err => (Err (errors.Errorfw "failed to write tree object: %w" [] err), shared)
      | Ok treeHash =>
          let '(commitSHA, shared0) :=
            CommitTreeWithDate old (mkIdentity (Name author) (Email author))
              (mkIdentity (Name committer) (Email committer)) treeHash
              (gostd.TrimSpace (Title params)
               +:+ (if (0 <? String.length (Message params))%nat
                    then String "010" (String "010" EmptyString)
                         +:+ gostd.TrimSpace (Message params)
                    else EmptyString))
              false authorDate committerDate shared in
          match commitSHA with
          | Err err => (Err (errors.Errorfw "failed to commit the tree: %w" [] err), shared0)
          | Ok commitSHA =>
              let '(e, shared1) := MoveObjects shared0 in
              match e with
              | Some err =>
                  (Err (errors.Errorfw "failed to move git objects: %w" [] err), shared1)
              | None => (Ok commitSHA, shared1)
              end
          end
      end in
    (∃ tr', calls (Close out.2) = log ++ CallInitAsShared :: tr' ++ [CallClose]
            ∧ CallClose ∉ tr')
    ∧ (∀ new, out.1 = Ok new →
         ∃ tree message,
           calls (Close out.2)
           = log ++ CallInitAsShared :: pre ++ tr
               ++ [CallWriteTree; CallCommitTree old tree message;
                   CallMoveObjects; CallClose])) as Htail.
  { intros pre tr sh Hsh Htr Hpre out. subst out.
    pose proof (stagingCall_not_Close tr Htr) as Hc.
    unfold WriteTree. destruct (writeTree (store sh)) as [[tree|e] st2];
      cbn [fst snd Close calls called store].
    2:{ split; [|done]. exists ((pre ++ tr) ++ [CallWriteTree]).
        split; [rewrite Hsh; same_calls|].
        rewrite !not_elem_of_app. repeat split; try done.
        by intros [=]%list_elem_of_singleton. }
    unfold CommitTreeWithDate. cbn [store calls called].
    destruct (commitTreeWithDate _ _ _ _ _ _ _ _ _) as [[new|e] st3];
      cbn [fst snd Close calls called store].
    2:{ split; [|done]. eexists ((pre ++ tr) ++ [CallWriteTree; CallCommitTree old tree _]).
        split; [rewrite Hsh; same_calls|].
        rewrite !not_elem_of_app. repeat split; try done.
        rewrite !not_elem_of_cons. repeat split; try done. apply not_elem_of_nil. }
    unfold MoveObjects. cbn [store calls called].
    destruct (moveObjects st3) as [[e|] st4]; cbn [fst snd Close calls called store].
    - split; [|done].
      eexists ((pre ++ tr) ++ [CallWriteTree; CallCommitTree old tree _; CallMoveObjects]).
      split; [rewrite Hsh; same_calls|].
      rewrite !not_elem_of_app. repeat split; try done.
      rewrite !not_elem_of_cons. repeat split; try done. apply not_elem_of_nil.
    - split.
      + eexists ((pre ++ tr) ++ [CallWriteTree; CallCommitTree old tree _; CallMoveObjects]).
        split; [rewrite Hsh; same_calls|].
        rewrite !not_elem_of_app. repeat split; try done.
        rewrite !not_elem_of_cons. repeat split; try done. apply not_elem_of_nil.
      + intros ? _. eexists tree, _. rewrite Hsh. same_calls. }
  assert (calls sh0 = log ++ [CallInitAsShared]) as Hsh0 by done.
  destruct isEmpty.
  - fold sh0.
    destruct (prepareTreeEmptyRepo_stages s sh0 (Actions params)) as (tr & Etr & Ftr).
    rewrite Hsh0 in Etr.
    destruct (prepareTreeEmptyRepo s sh0 (Actions params)) as [[e|] sh]; cbn [snd] in Etr.
    + cbn. split; [|done]. exists tr. split; [rewrite Etr; same_calls|].
      by apply stagingCall_not_Close.
    + destruct (Htail [] tr sh) as [H1 H2];
        [rewrite Etr; same_calls|done|apply not_elem_of_nil|].
      cbv zeta in H1, H2. cbn [fst snd]. split; [exact H1|].
      intros new Hnew. destruct (H2 new Hnew) as (tree & msg & E).
      by exists tr, tree, msg.
  - fold sh0. unfold SetIndex.
    destruct (setIndex (sha.String old) (store sh0)) as [[e|] st2].
    { cbn. split; [|done]. exists [CallSetIndex (sha.String old)].
      split; [same_calls|]. by intros [=]%list_elem_of_singleton. }
    set (sh1 := called (CallSetIndex (sha.String old)) sh0 st2).
    assert (calls sh1 = log ++ [CallInitAsShared; CallSetIndex (sha.String old)]) as Hsh1.
    { subst sh1. cbn [calls called]. rewrite Hsh0. same_calls. }
    assert (CallClose ∉ [CallSetIndex (sha.String old)]) as Hpre
      by (by intros [=]%list_elem_of_singleton).
    destruct tip as [commit|].
    2:{ cbn [fst snd Close calls called store]. split; [|done].
        exists [CallSetIndex (sha.String old)]. split; [|done].
        fold sh1. rewrite Hsh1. same_calls. }
    destruct (prepareTree_stages s sh1 commit (Actions params)) as (tr & Etr & Ftr).
    rewrite Hsh1 in Etr.
    destruct (prepareTree s sh1 (Actions params) commit) as [[e|] sh]; cbn [snd] in Etr.
    + cbn [fst snd Close calls called store]. split; [|done].
      exists ([CallSetIndex (sha.String old)] ++ tr). split; [rewrite Etr; same_calls|].
      rewrite not_elem_of_app. split; [done|]. by apply stagingCall_not_Close.
    + destruct (Htail [CallSetIndex (sha.String old)] tr sh) as [H1 H2];
        [rewrite Etr; same_calls|done|done|].
      cbv zeta in H1, H2. cbn [fst snd]. split; [exact H1|].
      intros new Hnew. destruct (H2 new Hnew) as (tree & msg & E).
      by exists tr, tree, msg.
Qed.

(** **** The whole operation *)

(** X22: a new branch that exists already. In a repository with commits,
    when the request names a branch and a new branch that differ once the
    [refs/heads/] prefix and the white space around them are cut off, and
    both exist, [CommitFiles] fails with [Conflict]; no shared repository
    has been created, and the origin is untouched. *)
Theorem CommitFiles_existing_new_branch s params st (source existing : api.Branch) :
  let repoPath := getFullPathForRepo (reposRoot s) (RepoUID (writeParams params)) in
  let branch :=
    gostd.TrimPrefix (gostd.TrimSpace (Branch params)) gitReferenceNamePrefixBranch in
  let newBranch :=
    gostd.TrimPrefix (gostd.TrimSpace (NewBranch params)) gitReferenceNamePrefixBranch in
  validate s (writeParams params) = None →
  hasBranches repoPath (world st) = Ok false →
  Branch params ≠ EmptyString → NewBranch params ≠ EmptyString →
  branch ≠ newBranch →
  getBranch repoPath branch (world st) = Ok source →
  getBranch repoPath newBranch (world st) = Ok existing →
  ∃ e, CommitFiles s params st = (Err e, st)
       ∧ errors.AsStatus e = errors.StatusConflict.
Proof.
  intros repoPath branch newBranch Hv Hb Hbn Hnn Hne Hsrc Hex.
  unfold CommitFiles. rewrite Hv. fold repoPath. rewrite Hb.
  unfold validateAndPrepareHeader.
  rewrite (bool_decide_eq_false_2 (Branch params = EmptyString)) by done.
  rewrite (bool_decide_eq_false_2 (NewBranch params = EmptyString)) by done.
  cbv zeta. subst branch newBranch. rewrite Hsrc.
  rewrite (bool_decide_eq_false_2 _ Hne).
  cbn [negb]. rewrite Hex. by eexists.
Qed.

(** X23: [CommitFiles] moves one branch at most. Whatever the request and
    whatever the outcome, every ref of the origin other than the one of the
    new branch (which is the branch itself when no new branch is asked
    for) is after the call where it was before. *)
Theorem CommitFiles_touches_one_ref s params st isEmpty other :
  let repoPath := getFullPathForRepo (reposRoot s) (RepoUID (writeParams params)) in
  let params' := (validateAndPrepareHeader s repoPath isEmpty params (world st)).2 in
  hasBranches repoPath (world st) = Ok isEmpty →
  other ≠ getReferenceFromBranchName (NewBranch params') →
  refs (world (CommitFiles s params st).2) !! other = refs (world st) !! other.
Proof.
  intros repoPath params' Hb Hne. unfold CommitFiles.
  destruct (validate s (writeParams params)); [done|].
  fold repoPath. rewrite Hb. subst params'.
  destruct (validateAndPrepareHeader s repoPath isEmpty params (world st))
    as [[tip|e] p']; [|done].
  cbn [snd] in Hne.
  destruct (buildCommit _ _ _ _ _ _ _ _ _ _ _) as [[new|e] log]; [|done].
  match goal with
  | |- context [UpdateRef ?g ?env ?p ?ref ?o ?n ?w] =>
      pose proof (UpdateRef_frame g env p ref o n w other) as Hframe;
      destruct (UpdateRef g env p ref o n w) as [[e|] w1]
  end; cbn [snd] in Hframe.
  - cbn [snd world]. apply Hframe. case_bool_decide as Heq; cbn [negb]; [by rewrite Heq|done].
  - assert (refs w1 !! other = refs (world st) !! other) as Hw.
    { apply Hframe. case_bool_decide as Heq; cbn [negb]; [by rewrite Heq|done]. }
    by destruct (getCommit _ _ _).
Qed.


(** The availability check only looks up tree nodes. *)
Lemma checkPathLoop_lookups commit filePath isNewFile len parts :
  ∀ index subTreePath repo,
    ∃ tr,
      calls (checkPathLoop commit filePath isNewFile len index parts subTreePath repo).2
      = calls repo ++ tr
      ∧ Forall (λ c, ∀ content, c ≠ CallWriteGitObject content) tr.
Proof.
  induction parts as [|part rest IH]; intros index subTreePath repo.
  { exists []. by rewrite app_nil_r. }
  cbn [checkPathLoop]. unfold GetTreeNode.
  set (repo1 := called _ repo (store repo)).
  assert (∃ tr, calls repo1 = calls repo ++ tr
                ∧ Forall (λ c, ∀ content, c ≠ CallWriteGitObject content) tr) as Hone.
  { eexists [_]. split; [done|]. by repeat constructor. }
  destruct (IH (Datatypes.S index) (gostd.Join subTreePath part) repo1)
    as (tr & Etr & Ftr).
  assert (∃ tr0,
            calls (checkPathLoop commit filePath isNewFile len (Datatypes.S index) rest
                     (gostd.Join subTreePath part) repo1).2 = calls repo ++ tr0
            ∧ Forall (λ c, ∀ content, c ≠ CallWriteGitObject content) tr0) as Hmore.
  { eexists (_ :: tr). split; [rewrite Etr; subst repo1; cbn [calls called];
                               by rewrite <- app_assoc|].
    by constructor. }
  destruct (getTreeNode _ _ (store repo)) as [entry|e].
  - repeat match goal with |- context [if ?b then _ else _] => destruct b end; done.
  - by destruct (errors.IsNotFound (Some e)).
Qed.

(** **** The mode a file is staged with *)

(** X25: what an Update and a Move stage when they succeed. An Update
    stages the new content at the path, as an executable when the entry of
    the parent commit is one and with the given mode otherwise. A Move
    stages the target and then removes the source: without new content the
    target gets the object and the mode of the entry as they are (a link
    stays a link); with new content it gets the new object, as an
    executable when the entry is one and with the given mode otherwise. *)
Theorem update_and_move_stage repo commit (filePath sha mode : string) (payload : list byte) :
  let rev := sha.String (commitSHA commit) in
  ((updateFile repo commit filePath sha mode payload).1 = None →
   ∃ entry hash tr,
     getTreeNode rev filePath (store repo) = Ok entry
     ∧ calls (updateFile repo commit filePath sha mode payload).2
       = calls repo ++ tr
         ++ [CallWriteGitObject payload;
             CallAddObjectToIndex (if IsExecutable entry then "100755" else mode)
               (sha.String hash) filePath])
  ∧ ((moveFile repo commit filePath sha mode payload).1 = None →
     ∃ entry newPath newContent tr fileMode fileHash,
       parseMovePayload payload = Ok (newPath, newContent)
       ∧ getTreeNode rev filePath (store repo) = Ok entry
       ∧ calls (moveFile repo commit filePath sha mode payload).2
         = calls repo ++ tr
           ++ [CallAddObjectToIndex fileMode fileHash newPath;
               CallRemoveFilesFromIndex filePath]
       ∧ match newContent with
         | None =>
             fileHash = sha.String (nodeSHA entry)
             ∧ fileMode = modeString (Mode entry)
             ∧ Forall (λ c, ∀ content, c ≠ CallWriteGitObject content) tr
         | Some content =>
             fileMode = (if IsExecutable entry then "100755" else mode)
             ∧ ∃ tr', tr = tr' ++ [CallWriteGitObject content]
         end).
Proof.
  intros rev. split.
  - unfold updateFile, getFileEntry, GetTreeNode. fold rev.
    destruct (getTreeNode rev filePath (store repo)) as [entry|e] eqn:En.
    2:{ by destruct (errors.IsNotFound (Some e)). }
    destruct (_ && _); [done|].
    unfold WriteGitObject. cbn [store calls called].
    destruct (writeGitObject payload (store repo)) as [[hash|e] st1]; [|done].
    unfold AddObjectToIndex. cbn [store calls called].
    destruct (addObjectToIndex _ _ _ st1) as [[e|] st2]; [done|].
    intros _. exists entry, hash, [CallGetTreeNode rev filePath].
    split; [done|]. cbn [snd calls called]. by rewrite <- !app_assoc.
  - unfold moveFile.
    destruct (parseMovePayload payload) as [[newPath newContent]|e]; [|done].
    unfold getFileEntry, GetTreeNode. fold rev.
    destruct (getTreeNode rev filePath (store repo)) as [entry|e] eqn:En.
    2:{ by destruct (errors.IsNotFound (Some e)). }
    destruct (_ && _); [done|].
    set (repo1 := called (CallGetTreeNode rev filePath) repo (store repo)).
    destruct (checkPathLoop_lookups commit newPath false
                (length (gostd.Split newPath "/")) (gostd.Split newPath "/")
                0%nat EmptyString repo1) as (tr1 & E1 & F1).
    fold (checkPathAvailability repo1 commit newPath false) in E1.
    destruct (checkPathAvailability repo1 commit newPath false) as [[e|] repo2];
      [done|]. cbn [snd] in E1.
    assert (calls repo2 = calls repo ++ CallGetTreeNode rev filePath :: tr1) as E2.
    { rewrite E1. subst repo1. cbn [calls called]. by rewrite <- app_assoc. }
    assert (Forall (λ c, ∀ content, c ≠ CallWriteGitObject content)
              (CallGetTreeNode rev filePath :: tr1)) as Hnw by (by constructor).
    unfold WriteGitObject, AddObjectToIndex, RemoveFilesFromIndex.
    destruct newContent as [content|].
    + destruct (writeGitObject content (store repo2)) as [[hash|e] st3]; [|done].
      cbn [store calls called].
      destruct (addObjectToIndex _ _ _ st3) as [[e|] st4]; [done|].
      cbn [store calls called].
      destruct (removeFilesFromIndex filePath st4) as [[e|] st5]; [done|].
      intros _.
      exists entry, newPath, (Some content),
        ((CallGetTreeNode rev filePath :: tr1) ++ [CallWriteGitObject content]).
      eexists _, _. split; [done|]. split; [done|]. split.
      * cbn [snd calls called]. rewrite E2. by rewrite <- !app_assoc.
      * split; [done|]. by eexists.
    + cbn [store calls called].
      destruct (addObjectToIndex _ _ _ (store repo2)) as [[e|] st4]; [done|].
      cbn [store calls called].
      destruct (removeFilesFromIndex filePath st4) as [[e|] st5]; [done|].
      intros _.
      exists entry, newPath, None, (CallGetTreeNode rev filePath :: tr1).
      eexists _, _. split; [done|]. split; [done|]. split.
      * cbn [snd calls called]. rewrite E2. by rewrite <- !app_assoc.
      * done.
Qed.

End CommitBuilderMore.

(** *** More about the commit builder, on the sample repository *)

Lemma parseMovePayload_splits_witness :
  let C := sample.collaborators sample.rootTree in
  let p := list_byte_of_string "docs/b.txt" in
  @git.parseMovePayload _ C (p ++ Byte.x00 :: [Byte.x68; Byte.x69])
  = Ok ("docs/b.txt", Some [Byte.x68; Byte.x69])
  ∧ @git.parseMovePayload _ C p = Ok ("docs/b.txt", None).
Proof.
  intros C p.
  assert (Byte.x00 ∉ p) as Hp.
  { apply (bool_decide_unpack _). vm_compute. exact I. }
  pose proof (@parseMovePayload_splits _ C p [Byte.x68; Byte.x69] Hp) as Hthm.
  cbv zeta in Hthm.
  change (bool_decide (api.CleanUploadFileName (string_of_list_byte p) = EmptyString))
    with false in Hthm.
  change (api.CleanUploadFileName (string_of_list_byte p)) with "docs/b.txt" in Hthm.
  exact Hthm.
Defined.

Lemma checkPathAvailability_decides_witness :
  let C := sample.collaborators sample.rootTree in
  (@git.checkPathAvailability _ C sample.staging sample.parentCommit
     (String.concat "/" ["src"; "new.go"]) true).1 = None.
Proof.
  intros C.
  destruct (@checkPathAvailability_decides _ C sample.staging sample.parentCommit
              sample.rootTree ["src"; "new.go"] true) as [Hiff _].
  - intros p. reflexivity.
  - discriminate.
  - vm_compute. reflexivity.
  - apply Hiff. intros k t Hk Ht.
    destruct k as [|[|[|k]]]; [lia| | |simpl in Hk; lia].
    + vm_compute in Ht. injection Ht as <-. split; [simpl; lia|reflexivity].
    + vm_compute in Ht. discriminate.
Defined.

Lemma CommitFiles_existing_new_branch_witness :
  let C := sample.collaborators sample.rootTree in
  let st := git.mkState sample.twoBranches [] in
  ∃ e, @git.CommitFiles _ C sample.service
         (sample.params "main" " refs/heads/dev" []) st = (Err e, st)
       ∧ errors.AsStatus e = errors.StatusConflict.
Proof.
  intros C st.
  refine (@CommitFiles_existing_new_branch _ C sample.service
            (sample.params "main" " refs/heads/dev" []) st
            (api.mkBranch "main" (api.mkCommit (sha.mkSHA (sha.bytes sample.commitA) EmptyString)))
            (api.mkBranch "dev" (api.mkCommit (sha.mkSHA (sha.bytes sample.commitB) EmptyString)))
            _ _ _ _ _ _ _).
  - reflexivity.
  - vm_compute. reflexivity.
  - discriminate.
  - discriminate.
  - vm_compute. discriminate.
  - vm_compute. reflexivity.
  - vm_compute. reflexivity.
Defined.

Lemma CommitFiles_touches_one_ref_witness :
  let C := sample.collaborators sample.rootTree in
  let st := git.mkState sample.twoBranches [] in
  let params :=
    sample.params "main" EmptyString
      [sample.action git.CreateAction "new.txt" [Byte.x68; Byte.x69] EmptyString] in
  api.refs (git.world (@git.CommitFiles _ C sample.service params st).2) !! "refs/heads/dev"
  = api.refs (git.world st) !! "refs/heads/dev".
Proof.
  intros C st params.
  refine (@CommitFiles_touches_one_ref _ C sample.service params st false
            "refs/heads/dev" _ _).
  - vm_compute. reflexivity.
  - vm_compute. discriminate.
Defined.


(** *** Messages of a rejected push ([git/api/errors.go]) *)

Section PushRejected.

Import api.PushRejectedError.

Lemma append_nil_r (s : string) : s +:+ EmptyString = s.
Proof. induction s as [|c s IH]; [done|]. by rewrite append_cons, IH. Qed.

Lemma length_append_s (a b : string) :
  String.length (a +:+ b) = (String.length a + String.length b)%nat.
Proof. induction a as [|c a IH]; [done|]. rewrite append_cons. simpl. by rewrite IH. Qed.

Lemma sliceFrom_app (a b : string) : gostd.sliceFrom (String.length a) (a +:+ b) = b.
Proof. induction a as [|c a IH]; [by destruct b|]. by rewrite append_cons. Qed.

Lemma sliceTo_app (a b : string) : gostd.sliceTo (String.length a) (a +:+ b) = a.
Proof. induction a as [|c a IH]; [by destruct b|]. rewrite append_cons. simpl. by rewrite IH. Qed.

Lemma slice_app (a x b : string) :
  gostd.slice (String.length a) (String.length a + String.length x) (a +:+ x +:+ b) = x.
Proof.
  unfold gostd.slice. rewrite sliceFrom_app.
  replace (String.length a + String.length x - String.length a)%nat
    with (String.length x) by lia.
  apply sliceTo_app.
Qed.

Lemma sliceTo_HasPrefix (p s : string) :
  gostd.sliceTo (String.length p) s = p → gostd.HasPrefix s p = true.
Proof.
  revert s. induction p as [|c p IH]; intros s; [by destruct s|].
  destruct s as [|d s]; simpl; [done|]. intros [= -> Hs].
  rewrite Ascii.eqb_refl. by apply IH.
Qed.

Lemma IndexByteString_line (l b : string) c :
  gostd.IndexByteString l c = None →
  gostd.IndexByteString (l +:+ String c b) c = Some (String.length l).
Proof.
  induction l as [|x l IH]; simpl.
  - intros _. by rewrite Ascii.eqb_refl.
  - destruct (Ascii.eqb x c); [done|].
    destruct (gostd.IndexByteString l c); [done|]. intros _. by rewrite IH.
Qed.

(** More fuel than the bytes that are left changes nothing. *)
Lemma generateLoop_fuel (stdErr : string) :
  ∀ fuel extra i acc,
    (String.length stdErr - i ≤ fuel)%nat →
    generateLoop (fuel + extra) stdErr i acc = generateLoop fuel stdErr i acc.
Proof.
  induction fuel as [|fuel IH]; intros extra i acc Hlen.
  - destruct extra as [|extra]; [done|]. simpl.
    assert ((String.length stdErr <=? i + 8)%nat = true) as ->; [|done].
    apply Nat.leb_le. lia.
  - change (Datatypes.S fuel + extra)%nat with (Datatypes.S (fuel + extra)).
    cbn [generateLoop].
    destruct (String.length stdErr <=? i + 8)%nat eqn:Hle; [done|].
    apply Nat.leb_gt in Hle.
    destruct (negb _); [done|].
    destruct (gostd.IndexByteString _ _) as [nl|]; apply IH; lia.
Qed.

(** X26: the loop of [GenerateMessage] ends. Whatever [StdErr] is, from any
    position in it, iterating more often than [StdErr] has bytes gives the
    message that as many iterations as it has bytes give: one of the two
    [break]s is reached by then. *)
Theorem generateLoop_ends (stdErr : string) (fuel i : nat) (acc : string) :
  (String.length stdErr ≤ fuel)%nat →
  generateLoop fuel stdErr i acc = generateLoop (String.length stdErr) stdErr i acc.
Proof.
  intros Hf.
  replace fuel with (String.length stdErr + (fuel - String.length stdErr))%nat by lia.
  apply generateLoop_fuel. lia.
Qed.

(** The lines of a remote message as [StdErr] has them, and as the message
    has them. *)
Lemma generateLoop_lines (rest : string) :
  gostd.HasPrefix rest "remote: " = false →
  ∀ (lines : list string) (a acc : string) (fuel : nat),
    Forall (λ l, gostd.IndexByteString l "010" = None) lines →
    (length lines ≤ fuel)%nat →
    generateLoop fuel
      (a +:+ String.concat EmptyString
               (map (λ l, "remote: " +:+ l +:+ String "010" EmptyString) lines)
         +:+ rest)
      (String.length a) acc
    = acc +:+ String.concat EmptyString (map (λ l, l +:+ String "010" EmptyString) lines).
Proof.
  intros Hrest. induction lines as [|l ls IH]; intros a acc fuel Hnl Hfuel.
  - cbn [map String.concat]. rewrite append_nil_r.
    destruct fuel as [|fuel]; [done|]. cbn [generateLoop].
    destruct (_ <=? _)%nat; [done|].
    rewrite bool_decide_eq_false_2; [done|].
    unfold gostd.slice. intros Hs.
    rewrite sliceFrom_app in Hs.
    replace (String.length a + 8 - String.length a)%nat with 8%nat in Hs by lia.
    apply (sliceTo_HasPrefix "remote: ") in Hs.
    change (EmptyString +:+ rest) with rest in Hs. congruence.
  - destruct fuel as [|fuel]; [simpl in Hfuel; lia|].
    inversion Hnl as [|? ? Hl Hls]; subst.
    set (body := String.concat EmptyString
                   (map (λ l, "remote: " +:+ l +:+ String "010" EmptyString) ls)).
    assert (String.concat EmptyString
              (map (λ l, "remote: " +:+ l +:+ String "010" EmptyString) (l :: ls))
            = "remote: " +:+ l +:+ String "010" EmptyString +:+ body) as ->.
    { cbn [map]. destruct ls as [|l2 ls]; [subst body; cbn; by rewrite !append_nil_r|].
      subst body. cbn [map]. rewrite concat_cons2. cbn [append].
      by rewrite !append_assoc_s. }
    assert (String.concat EmptyString
              (map (λ l, l +:+ String "010" EmptyString) (l :: ls))
            = l +:+ String "010" EmptyString
              +:+ String.concat EmptyString
                    (map (λ l, l +:+ String "010" EmptyString) ls)) as ->.
    { cbn [map]. destruct ls as [|l2 ls]; [cbn; by rewrite !append_nil_r|].
      cbn [map]. rewrite concat_cons2. cbn [append]. by rewrite !append_assoc_s. }
    set (nl := String "010" EmptyString) in *.
    set (tail := l +:+ nl +:+ body +:+ rest).
    assert (a +:+ ("remote: " +:+ l +:+ nl +:+ body) +:+ rest
            = (a +:+ "remote: ") +:+ tail) as ->.
    { subst tail. by rewrite !append_assoc_s. }
    assert (String.length (a +:+ "remote: ") = (String.length a + 8)%nat) as Hla.
    { by rewrite length_append_s. }
    cbn [generateLoop].
    assert ((String.length ((a +:+ "remote: ") +:+ tail) <=? String.length a + 8)%nat
            = false) as ->.
    { apply Nat.leb_gt. subst tail. rewrite !length_append_s. subst nl. simpl. lia. }
    assert (gostd.slice (String.length a) (String.length a + 8)
              ((a +:+ "remote: ") +:+ tail) = "remote: ") as ->.
    { rewrite append_assoc_s. apply (slice_app a "remote: " tail). }
    rewrite bool_decide_eq_true_2 by done. cbn [negb].
    rewrite <- Hla, sliceFrom_app.
    assert (gostd.IndexByteString tail "010" = Some (String.length l)) as ->.
    { subst tail nl. by apply IndexByteString_line. }
    assert (gostd.slice (String.length (a +:+ "remote: "))
              (String.length (a +:+ "remote: ") + String.length l + 1)
              ((a +:+ "remote: ") +:+ tail) = l +:+ nl) as ->.
    { subst tail. rewrite <- (append_assoc_s l nl).
      replace (String.length (a +:+ "remote: ") + String.length l + 1)%nat
        with (String.length (a +:+ "remote: ") + String.length (l +:+ nl))%nat
        by (rewrite (length_append_s l nl); subst nl; simpl; lia).
      apply slice_app. }
    replace (String.length (a +:+ "remote: ") + String.length l + 1)%nat
      with (String.length ((a +:+ "remote: ") +:+ l +:+ nl))
      by (rewrite !length_append_s; subst nl; simpl; lia).
    replace ((a +:+ "remote: ") +:+ tail)
      with (((a +:+ "remote: ") +:+ l +:+ nl) +:+ body +:+ rest)
      by (subst tail; by rewrite !append_assoc_s).
    subst body. rewrite IH; [|done|simpl in Hfuel; lia].
    by rewrite !append_assoc_s.
Qed.

(** X27: the message of a rejected push is made of the lines the remote
    sent. When [StdErr] is some text, then lines that each begin with
    [remote: ] and end with a newline, then a rest that does not begin with
    [remote: ], and the first [remote: ] in it is the one of the first of
    these lines, [GenerateMessage] sets [Message] to the lines without
    their [remote: ] marks, in order, with the white space around the whole
    cut off; the other fields stay as they are. Without any [remote: ] in
    [StdErr] the message is empty. *)
Theorem GenerateMessage_lines (err : t) (pre rest : string) (lines : list string) :
  (gostd.Index (StdErr err) "remote: " = None →
   Message (GenerateMessage err) = EmptyString)
  ∧ (StdErr err
     = pre +:+ String.concat EmptyString
                 (map (λ l, "remote: " +:+ l +:+ String "010" EmptyString) lines)
         +:+ rest →
     gostd.Index (StdErr err) "remote: " = Some (String.length pre) →
     Forall (λ l, gostd.IndexByteString l "010" = None) lines →
     gostd.HasPrefix rest "remote: " = false →
     GenerateMessage err
     = mk (gostd.TrimSpace
             (String.concat EmptyString
                (map (λ l, l +:+ String "010" EmptyString) lines)))
          (StdOut err) (StdErr err) (Err err)).
Proof.
  split.
  - intros Hi. unfold GenerateMessage. by rewrite Hi.
  - intros Hs Hi Hnl Hrest. unfold GenerateMessage. rewrite Hi. f_equal. f_equal.
    rewrite Hs. rewrite (generateLoop_lines rest Hrest lines pre EmptyString); [done|done|].
    rewrite !length_append_s.
    assert (∀ ls : list string,
              (length ls
               ≤ String.length
                   (String.concat EmptyString
                      (map (λ l, "remote: " +:+ l +:+ String "010" EmptyString) ls)))%nat)
      as Hlen.
    { induction ls as [|x [|y ls] IH]; [simpl; lia|simpl; lia|].
      cbn [map] in *. rewrite concat_cons2, !length_append_s. simpl in *. lia. }
    specialize (Hlen lines). lia.
Qed.

End PushRejected.

Lemma generateLoop_ends_witness :
  let stdErr := "remote: branch is protected" +:+ String "010" "error: failed to push" in
  api.PushRejectedError.generateLoop 1000 stdErr 0 EmptyString
  = api.PushRejectedError.generateLoop (String.length stdErr) stdErr 0 EmptyString.
Proof.
  intros stdErr. apply (generateLoop_ends stdErr 1000 0 EmptyString).
  vm_compute. lia.
Defined.

Lemma GenerateMessage_lines_witness :
  let nl := String "010" EmptyString in
  let stdErr :=
    "To origin" +:+ nl +:+ "remote: branch is protected" +:+ nl
    +:+ "remote: ask an owner" +:+ nl +:+ "error: failed to push" in
  api.PushRejectedError.Message
    (api.PushRejectedError.GenerateMessage
       (api.PushRejectedError.mk "stale" EmptyString stdErr None))
  = "branch is protected" +:+ nl +:+ "ask an owner".
Proof.
  intros nl stdErr.
  pose proof (proj2 (GenerateMessage_lines
                       (api.PushRejectedError.mk "stale" EmptyString stdErr None)
                       ("To origin" +:+ nl) "error: failed to push"
                       ["branch is protected"; "ask an owner"])
                eq_refl eq_refl) as Hthm.
  rewrite Hthm.
  - vm_compute. reflexivity.
  - repeat constructor.
  - reflexivity.
Defined.

(** *** Field names and action kinds *)

Section Names.

Import api git.

(** X28: [ParseGitReferenceField] is the inverse of the conversion of a
    field to its name. It returns a field exactly for the four names
    [refname], [objecttype], [objectname] and [creatordate], and the field
    it returns is the one of that name; every other text is an error that
    quotes it. *)
Theorem ParseGitReferenceField_round_trip (f : string) :
  (∀ field, ParseGitReferenceField f = Ok field
            ↔ field = f
              ∧ f ∈ [GitReferenceFieldRefName; GitReferenceFieldObjectType;
                     GitReferenceFieldObjectName; GitReferenceFieldCreatorDate])
  ∧ (f ∉ [GitReferenceFieldRefName; GitReferenceFieldObjectType;
          GitReferenceFieldObjectName; GitReferenceFieldCreatorDate] →
     ParseGitReferenceField f
     = Err (errors.Errorf "unknown git reference field '%s'" [f])).
Proof.
  unfold ParseGitReferenceField. split.
  - intros field. rewrite !elem_of_cons, elem_of_nil. split.
    + repeat case_bool_decide; try done; intros [= <-]; (split; [done|auto 10]).
    + intros [-> [->|[->|[->|[->|[]]]]]]; reflexivity.
  - rewrite !not_elem_of_cons. intros (H1 & H2 & H3 & H4 & _).
    by rewrite !bool_decide_eq_false_2.
Qed.

(** X29: what [Enum] lists. Of the four kinds only [CreateAction] and
    [UpdateAction] are in the list as values of the type [FileAction];
    [DeleteAction] and [MoveAction], declared without a type, are in it as
    plain strings. So a [FileAction] is equal to an element of the list
    exactly when it is [CREATE] or [UPDATE], and a string exactly when it is
    [DELETE] or [MOVE]. *)
Theorem Enum_members (a : FileAction) (x : string) :
  (OfFileAction a ∈ Enum ↔ a = CreateAction ∨ a = UpdateAction)
  ∧ (OfString x ∈ Enum ↔ x = DeleteAction ∨ x = MoveAction).
Proof.
  unfold Enum. rewrite !elem_of_cons, !elem_of_nil. split; split.
  - intros [[= ->]|[[= ->]|[?|[?|[]]]]]; try done; by eauto.
  - intros [->| ->]; by eauto.
  - intros [?|[?|[[= ->]|[[= ->]|[]]]]]; try done; by eauto.
  - intros [->| ->]; by eauto 6.
Qed.

End Names.
